(** * Whisper: the in-memory session / chat cache of [server/utils/lib.js]

    A shallow embedding of the cache layer (waiting users, active users,
    chats) and of the operations that keep it in step with the persistent
    store, followed by the properties of the specification stated against
    that embedding. *)

From Stdlib Require Import String Ascii List Arith NArith Bool Lia.
From stdpp Require Import base tactics option list.
Import ListNotations.

Local Open Scope string_scope.
Local Open Scope list_scope.
Local Open Scope nat_scope.

(** ** JavaScript objects used as string-keyed maps

    [waiting_users], [active_users], [chats] and every chat's [messages] are
    plain objects.  Their own keys are unique, [Object.keys] and
    [for ... in] visit the keys that are array indices first (in ascending
    numeric order) and then the other keys in insertion order.  A property
    read [o[k]] that finds no own key goes on to [Object.prototype], whose
    members are not enumerable; an assignment [o[k] = v] makes an own key of
    every [k] but [__proto__]. *)

Module JsObj.

Definition t (V : Type) : Type := list (string * V).

Definition digit_of (c : ascii) : option N :=
  let n := N_of_ascii c in
  if ((48 <=? n) && (n <=? 57))%N then Some (n - 48)%N else None.

Fixpoint parse_digits (s : string) (acc : N) : option N :=
  match s with
  | EmptyString => Some acc
  | String c s' =>
      match digit_of c with
      | Some d => parse_digits s' (10 * acc + d)%N
      | None => None
      end
  end.

(** A key is an array index when it is the canonical decimal form of an
    integer below 2^32 - 1. *)
Definition array_index (s : string) : option N :=
  match s with
  | EmptyString => None
  | String c s' =>
      if Ascii.eqb c "0" && negb (String.eqb s' EmptyString) then None
      else match parse_digits s 0 with
           | Some n => if (n <? 4294967295)%N then Some n else None
           | None => None
           end
  end.

(** The property names of [Object.prototype].  Each holds a function, but
    [__proto__], which reads as the prototype object: all are truthy, and
    none has a property of the names this file reads ([messages],
    [chatIds], ...). *)
Definition prototype_names : list string :=
  ["constructor"; "__defineGetter__"; "__defineSetter__"; "hasOwnProperty";
   "__lookupGetter__"; "__lookupSetter__"; "isPrototypeOf";
   "propertyIsEnumerable"; "toString"; "valueOf"; "__proto__";
   "toLocaleString"].

Definition inherited (k : string) : bool :=
  existsb (String.eqb k) prototype_names.

(** What a property read finds, when it finds something: the value stored
    under an own key, or a member of [Object.prototype]. *)
Inductive Looked (V : Type) : Type :=
| Own (v : V)
| Builtin.
Arguments Own {V} v.
Arguments Builtin {V}.

Section Ops.
Context {V : Type}.

(** The value stored under the own key [k], as [Object.keys] and
    [for ... in] see the object. *)
Fixpoint get (k : string) (o : t V) : option V :=
  match o with
  | [] => None
  | (k', v) :: o' => if String.eqb k' k then Some v else get k o'
  end.

(** [delete o[k]] *)
Fixpoint del (k : string) (o : t V) : t V :=
  match o with
  | [] => []
  | (k', v) :: o' =>
      if String.eqb k' k then del k o' else (k', v) :: del k o'
  end.

(** [Object.keys(o)] *)
Definition keys (o : t V) : list string := map fst o.

Definition values (o : t V) : list V := map snd o.

Fixpoint replace (k : string) (v : V) (o : t V) : t V :=
  match o with
  | [] => []
  | (k', v') :: o' =>
      if String.eqb k' k then (k', v) :: o' else (k', v') :: replace k v o'
  end.

Fixpoint put_index (n : N) (k : string) (v : V) (o : t V) : t V :=
  match o with
  | [] => [(k, v)]
  | (k', v') :: o' =>
      match array_index k' with
      | Some m =>
          if (m <? n)%N then (k', v') :: put_index n k v o'
          else (k, v) :: o
      | None => (k, v) :: o
      end
  end.

(** [o[k] = v] for a key other than [__proto__]: an existing key keeps its
    place, a new array index goes to its numeric position, any other new
    key goes last. *)
Definition set (k : string) (v : V) (o : t V) : t V :=
  match get k o with
  | Some _ => replace k v o
  | None =>
      match array_index k with
      | Some n => put_index n k v o
      | None => o ++ [(k, v)]
      end
  end.

(** [o[k]]: the own key first, then [Object.prototype]; [None] is
    [undefined]. *)
Definition read (k : string) (o : t V) : option (Looked V) :=
  match get k o with
  | Some v => Some (Own v)
  | None => if inherited k then Some Builtin else None
  end.

(** [o[k] = v] for any key and an object [v].  The assignment to
    [__proto__] ends in the setter of [Object.prototype]: it makes [v] the
    prototype of [o] and adds no key. *)
Definition assign (k : string) (v : V) (o : t V) : t V :=
  match get k o with
  | Some _ => set k v o
  | None => if String.eqb k "__proto__" then o else set k v o
  end.

Definition wf (o : t V) : Prop := NoDup (keys o).
End Ops.

End JsObj.

(** ** Data model (the typedefs at the head of the file) *)

(** References to user objects. *)
Abbreviation loc := nat (only parsing).

(** A value that is either a reference to a user object or [undefined] /
    [null]. *)
Definition UserRef := option loc.

Record Socket := { socket_id : string }.

Record User := {
  user_id : option string;
  email : option string;
  loginId : string;
  socketConnections : list Socket;
  socketIds : list string;
  currentChatId : option string;
  chatIds : list string
}.

(** The derived key: [target.email ?? target.loginId]. *)
Definition emailOrLoginId (u : User) : string :=
  match email u with
  | Some e => e
  | None => loginId u
  end.

Inductive MessageType := room_notification | message_type.

Record Message := {
  msg_id : string;
  message : string;
  senderId : string;
  time : N;
  type : MessageType
}.

Record Chat := {
  chat_id : string;
  userIds : list string;
  messages : JsObj.t Message;
  createdAt : N
}.

(** ** The store collaborator

    Modelled from the spec: the Mongoose models [ActiveUserModel],
    [ChatModel] and [MessageModel] are not part of this file.  The store is
    three collections of documents with create / find / update / delete
    primitives (section 6 of the specification); [populate] resolves
    references, a missing single reference becoming [null]; every record
    has a canonical projection ([optimizedVersion]) used when it enters the
    cache. *)

Record ActiveUserDoc := {
  au_id : string;
  au_email : option string;
  au_loginId : string;
  au_currentChat : option string
}.

Record MessageDoc := {
  md_id : string;
  md_message : string;
  md_sender : string;
  md_type : MessageType;
  md_createdAt : N
}.

Record ChatDoc := {
  cd_id : string;
  cd_users : list string;
  cd_messages : list string;
  cd_createdAt : N
}.

Record Store := {
  ActiveUsers : list ActiveUserDoc;
  Chats : list ChatDoc;
  Messages : list MessageDoc
}.

Record PopulatedMessage := {
  pm_doc : MessageDoc;
  pm_sender : option ActiveUserDoc
}.

Record PopulatedChat := {
  pc_doc : ChatDoc;
  pc_users : list ActiveUserDoc;
  pc_messages : list PopulatedMessage
}.

(** ** The world: the three module-level maps, the user objects they refer
    to, and the environment (store, its failures, identifier generator,
    clock, and the channel joins requested from the transport). *)

Record World := {
  heap : list User;
  waiting_users : JsObj.t loc;
  active_users : JsObj.t loc;
  chats : JsObj.t Chat;
  store : Store;
  faults : list bool;
  next_oid : N;
  clock : N;
  joined : list (string * string)
}.

Definition set_heap (h : list User) (w : World) : World :=
  {| heap := h; waiting_users := waiting_users w;
     active_users := active_users w; chats := chats w; store := store w;
     faults := faults w; next_oid := next_oid w; clock := clock w;
     joined := joined w |}.

Definition set_waiting_users (o : JsObj.t loc) (w : World) : World :=
  {| heap := heap w; waiting_users := o;
     active_users := active_users w; chats := chats w; store := store w;
     faults := faults w; next_oid := next_oid w; clock := clock w;
     joined := joined w |}.

Definition set_active_users (o : JsObj.t loc) (w : World) : World :=
  {| heap := heap w; waiting_users := waiting_users w;
     active_users := o; chats := chats w; store := store w;
     faults := faults w; next_oid := next_oid w; clock := clock w;
     joined := joined w |}.

Definition set_chats (o : JsObj.t Chat) (w : World) : World :=
  {| heap := heap w; waiting_users := waiting_users w;
     active_users := active_users w; chats := o; store := store w;
     faults := faults w; next_oid := next_oid w; clock := clock w;
     joined := joined w |}.

Definition set_store (s : Store) (w : World) : World :=
  {| heap := heap w; waiting_users := waiting_users w;
     active_users := active_users w; chats := chats w; store := s;
     faults := faults w; next_oid := next_oid w; clock := clock w;
     joined := joined w |}.

Definition set_faults (fs : list bool) (w : World) : World :=
  {| heap := heap w; waiting_users := waiting_users w;
     active_users := active_users w; chats := chats w; store := store w;
     faults := fs; next_oid := next_oid w; clock := clock w;
     joined := joined w |}.

Definition set_next_oid (n : N) (w : World) : World :=
  {| heap := heap w; waiting_users := waiting_users w;
     active_users := active_users w; chats := chats w; store := store w;
     faults := faults w; next_oid := n; clock := clock w;
     joined := joined w |}.

Definition set_joined (j : list (string * string)) (w : World) : World :=
  {| heap := heap w; waiting_users := waiting_users w;
     active_users := active_users w; chats := chats w; store := store w;
     faults := faults w; next_oid := next_oid w; clock := clock w;
     joined := j |}.

(** The part of the world that is the cache proper. *)
Definition cache (w : World) :
  list User * JsObj.t loc * JsObj.t loc * JsObj.t Chat :=
  (heap w, waiting_users w, active_users w, chats w).

Definition empty_store : Store :=
  {| ActiveUsers := []; Chats := []; Messages := [] |}.

Definition empty_world : World :=
  {| heap := []; waiting_users := []; active_users := []; chats := [];
     store := empty_store; faults := []; next_oid := 0; clock := 0;
     joined := [] |}.

(** ** Computations: state that survives exceptions *)

Inductive Exn := TypeError | StoreError.

Inductive Res (A : Type) :=
| Ok (a : A)
| Throw (e : Exn).
Arguments Ok {A} a.
Arguments Throw {A} e.

Definition M (A : Type) : Type := World -> Res A * World.

#[global] Instance M_ret : MRet M := fun A a w => (Ok a, w).

#[global] Instance M_bind : MBind M := fun A B f m w =>
  match m w with
  | (Ok a, w') => f a w'
  | (Throw e, w') => (Throw e, w')
  end.

Definition throw {A} (e : Exn) : M A := fun w => (Throw e, w).

Definition read {A} (f : World -> A) : M A := fun w => (Ok (f w), w).

Definition modify (f : World -> World) : M unit := fun w => (Ok tt, f w).

(** [try { body } catch { handler }] *)
Definition try_catch {A} (body handler : M A) : M A := fun w =>
  match body w with
  | (Throw _, w') => handler w'
  | r => r
  end.

(** The user object behind a reference.  References kept in the maps are
    always allocated; the default is never reached from them. *)
Definition no_user : User :=
  {| user_id := None; email := None; loginId := EmptyString;
     socketConnections := [];
     socketIds := []; currentChatId := None; chatIds := [] |}.

Definition deref (w : World) (l : loc) : User := nth l (heap w) no_user.

Definition update_user (l : loc) (f : User -> User) (w : World) : World :=
  set_heap (<[l := f (deref w l)]> (heap w)) w.

(** Allocation of a new object. *)
Definition alloc (u : User) : M loc := fun w =>
  (Ok (length (heap w)), set_heap (heap w ++ [u]) w).

(** ** Store primitives

    Modelled from the spec: [mongoose.Types.ObjectId], the model methods
    ([create], [find], [populate], [updateOne], [deleteOne], [deleteMany])
    and the [optimizedVersion] projections are defined outside this file.
    A store call consumes one entry of [faults]; [true] makes it reject
    before it changes anything. *)

Definition hex_digit (n : N) : ascii :=
  nth (N.to_nat n) (list_ascii_of_string "0123456789abcdef") "0"%char.

Fixpoint hex_fixed (len : nat) (n : N) (acc : string) : string :=
  match len with
  | 0 => acc
  | S len' => hex_fixed len' (n / 16)%N (String (hex_digit (n mod 16)%N) acc)
  end.

Definition ObjectId_toString (n : N) : string := hex_fixed 24 n EmptyString.

(** [new mongoose.Types.ObjectId()] *)
Definition new_ObjectId : M string := fun w =>
  (Ok (ObjectId_toString (next_oid w)), set_next_oid (N.succ (next_oid w)) w).

(** [new mongoose.Types.ObjectId(id)]: the given identifier, a new one when
    there is none. *)
Definition ObjectId_of (id : option string) : M string :=
  match id with
  | Some s => mret s
  | None => new_ObjectId
  end.

Definition store_call : M unit := fun w =>
  match faults w with
  | true :: fs => (Throw StoreError, set_faults fs w)
  | _ => (Ok tt, set_faults (tail (faults w)) w)
  end.

Definition modify_store (f : Store -> Store) : M unit :=
  modify (fun w => set_store (f (store w)) w).

Definition ActiveUser_create (e : option string) (lid : string)
    (currentChat : string) : M ActiveUserDoc :=
  store_call;;
  _id ← new_ObjectId;
  let doc := {| au_id := _id; au_email := e; au_loginId := lid;
                au_currentChat := Some currentChat |} in
  modify_store (fun s =>
    {| ActiveUsers := ActiveUsers s ++ [doc]; Chats := Chats s;
       Messages := Messages s |});;
  mret doc.

Definition ActiveUser_deleteOne (id : option string) : M unit :=
  store_call;;
  modify_store (fun s =>
    {| ActiveUsers :=
         match id with
         | Some i => List.filter (fun d => negb (String.eqb (au_id d) i))
                                 (ActiveUsers s)
         | None => ActiveUsers s
         end;
       Chats := Chats s; Messages := Messages s |}).

Definition ActiveUser_find : M (list ActiveUserDoc) :=
  store_call;; read (fun w => ActiveUsers (store w)).

Definition Chat_create (_id : string) (users msgs : list string) : M ChatDoc :=
  store_call;;
  now ← read clock;
  let doc := {| cd_id := _id; cd_users := users; cd_messages := msgs;
                cd_createdAt := now |} in
  modify_store (fun s =>
    {| ActiveUsers := ActiveUsers s; Chats := Chats s ++ [doc];
       Messages := Messages s |});;
  mret doc.

Definition Chat_deleteOne (id : string) : M unit :=
  store_call;;
  modify_store (fun s =>
    {| ActiveUsers := ActiveUsers s;
       Chats := List.filter (fun d => negb (String.eqb (cd_id d) id)) (Chats s);
       Messages := Messages s |}).

(** The [$push] of a message id on one document. *)
Definition pushed (chatId msgId : string) (d : ChatDoc) : ChatDoc :=
  if String.eqb (cd_id d) chatId then
    {| cd_id := cd_id d; cd_users := cd_users d;
       cd_messages := cd_messages d ++ [msgId];
       cd_createdAt := cd_createdAt d |}
  else d.

(** [Chat.updateOne({_id}, {$push: {messages: msgId}})] *)
Definition Chat_push_message (id msgId : string) : M unit :=
  store_call;;
  modify_store (fun s =>
    {| ActiveUsers := ActiveUsers s;
       Chats := map (pushed id msgId) (Chats s);
       Messages := Messages s |}).

(** [Chat.find({users: {$in: [uid]}})] *)
Definition Chat_find_by_user (uid : string) : M (list ChatDoc) :=
  store_call;;
  read (fun w =>
    List.filter (fun d => existsb (String.eqb uid) (cd_users d))
                (Chats (store w))).

Definition find_user (s : Store) (id : string) : option ActiveUserDoc :=
  List.find (fun d => String.eqb (au_id d) id) (ActiveUsers s).

Definition find_message (s : Store) (id : string) : option MessageDoc :=
  List.find (fun d => String.eqb (md_id d) id) (Messages s).

Definition populate_message (s : Store) (d : MessageDoc) : PopulatedMessage :=
  {| pm_doc := d; pm_sender := find_user s (md_sender d) |}.

Definition populate_chat (s : Store) (c : ChatDoc) : PopulatedChat :=
  {| pc_doc := c;
     pc_users := omap (find_user s) (cd_users c);
     pc_messages :=
       omap (fun id => populate_message s <$> find_message s id)
            (cd_messages c) |}.

(** [Chat.find().populate('users').populate({path: 'messages', populate:
    {path: 'sender'}})] *)
Definition Chat_find_populated : M (list PopulatedChat) :=
  store_call;;
  read (fun w => map (populate_chat (store w)) (Chats (store w))).

Definition Message_create (text sender : string) (ty : MessageType)
    (created : N) : M MessageDoc :=
  store_call;;
  _id ← new_ObjectId;
  let doc := {| md_id := _id; md_message := text; md_sender := sender;
                md_type := ty; md_createdAt := created |} in
  modify_store (fun s =>
    {| ActiveUsers := ActiveUsers s; Chats := Chats s;
       Messages := Messages s ++ [doc] |});;
  mret doc.

Definition Message_deleteMany (ids : list string) : M unit :=
  store_call;;
  modify_store (fun s =>
    {| ActiveUsers := ActiveUsers s; Chats := Chats s;
       Messages :=
         List.filter (fun d => negb (existsb (String.eqb (md_id d)) ids))
                     (Messages s) |}).

Definition Message_deleteOne (id : string) : M unit :=
  Message_deleteMany [id].

(** [Message.updateOne({_id: id}, {$set: {message}})] *)
Definition Message_updateOne (id text : string) : M unit :=
  store_call;;
  modify_store (fun s =>
    {| ActiveUsers := ActiveUsers s; Chats := Chats s;
       Messages := map (fun d =>
                     if String.eqb (md_id d) id then
                       {| md_id := md_id d; md_message := text;
                          md_sender := md_sender d; md_type := md_type d;
                          md_createdAt := md_createdAt d |}
                     else d) (Messages s) |}).

(** The projections that enter the cache. *)
Definition Message_optimizedVersion (d : MessageDoc) (sender : string)
    : Message :=
  {| msg_id := md_id d; message := md_message d; senderId := sender;
     time := md_createdAt d; type := md_type d |}.

Definition Chat_optimizedVersion (d : ChatDoc) (members : list string)
    (msgs : JsObj.t Message) : Chat :=
  {| chat_id := cd_id d; userIds := members; messages := msgs;
     createdAt := cd_createdAt d |}.

Definition ActiveUser_optimizedVersion (d : ActiveUserDoc)
    (cids : list string) : User :=
  {| user_id := Some (au_id d); email := au_email d; loginId := au_loginId d;
     socketConnections := []; socketIds := [];
     currentChatId := au_currentChat d; chatIds := cids |}.

Definition doc_emailOrLoginId (d : ActiveUserDoc) : string :=
  match au_email d with
  | Some e => e
  | None => au_loginId d
  end.

(** ** Session registry *)

Inductive Search :=
| SearchString (search : string)
| SearchObject (socketId loginId email : option string).

Definition includes (x : string) (l : list string) : bool :=
  existsb (String.eqb x) l.

(** [a == b] for a possibly null [a] and a string [b]. *)
Definition loose_eq (a : option string) (b : string) : bool :=
  match a with
  | Some a' => String.eqb a' b
  | None => false
  end.

Definition user_matches (s : Search) (user : User) : bool :=
  match s with
  | SearchString search =>
      includes search (socketIds user)
      || loose_eq (email user) search
      || String.eqb (loginId user) search
  | SearchObject socketId lid e =>
      match socketId with
      | Some sid => includes sid (socketIds user)
      | None => false
      end
      || match e with
         | Some e' => negb (String.eqb e' EmptyString) && loose_eq (email user) e'
         | None => false
         end
      || match lid with
         | Some l' => negb (String.eqb l' EmptyString) && String.eqb (loginId user) l'
         | None => false
         end
  end.

(** The [for (let id in active_users)] scan. *)
Fixpoint scan_active (w : World) (s : Search) (entries : JsObj.t loc)
    : UserRef :=
  match entries with
  | [] => None
  | (_, user) :: rest =>
      if user_matches s (deref w user) then Some user
      else scan_active w s rest
  end.

Definition getActiveUser (s : Search) (w : World) : UserRef :=
  scan_active w s (active_users w).

(** [Boolean(active_users[emailOrLoginId])] *)
Definition isUserActive (id : string) (w : World) : bool :=
  match JsObj.read id (active_users w) with
  | Some _ => true
  | None => false
  end.

(** [chats[chatId] ?? null] *)
Definition getChat (chatId : string) (w : World)
    : option (JsObj.Looked Chat) :=
  JsObj.read chatId (chats w).

Definition chatExists (chatId : string) (w : World) : bool :=
  match getChat chatId w with
  | Some _ => true
  | None => false
  end.

(** [getActiveUser(emailOrLoginId).chatIds.length] *)
Definition getChatsCount (id : string) : M nat := fun w =>
  match getActiveUser (SearchString id) w with
  | Some user => (Ok (length (chatIds (deref w user))), w)
  | None => (Throw TypeError, w)
  end.

Definition addToWaitingList (lid : string) (e : option string)
    (socket : Socket) : M unit :=
  let key := match e with Some e' => e' | None => lid end in
  user ← alloc {| user_id := None; email := e; loginId := lid;
                  socketConnections := [socket];
                  socketIds := [socket_id socket];
                  currentChatId := None; chatIds := [] |};
  modify (fun w =>
    set_waiting_users (JsObj.assign key user (waiting_users w)) w).

(** [active_users[user.emailOrLoginId] = user].  The users a caller holds
    have come out of the waiting map, which stores no user under
    [__proto__]. *)
Definition addActiveUser (user : loc) (w : World) : World :=
  set_active_users
    (JsObj.set (emailOrLoginId (deref w user)) user (active_users w)) w.

Definition delActiveUser (user : loc) : M unit :=
  modify (fun w =>
    set_active_users
      (JsObj.del (emailOrLoginId (deref w user)) (active_users w)) w);;
  uid ← read (fun w => user_id (deref w user));
  ActiveUser_deleteOne uid.

Definition delWaitingUser (id : string) (w : World) : World :=
  set_waiting_users (JsObj.del id (waiting_users w)) w.

Definition getWaitingUserLen (w : World) : nat :=
  length (JsObj.keys (waiting_users w)).

(** ** Pairing engine *)

(** A value of [Math.random()]: the fraction [num/den], below 1 when
    [num < den]. *)
Record Rand := { num : nat; den : nat }.

Definition in_unit_interval (r : Rand) : Prop := num r < den r.

(** [Math.floor(Math.random() * n)], the product taken exactly.  The code
    multiplies doubles, which can round to another index; that index is
    below [n] all the same, and nothing below depends on which index is
    drawn. *)
Definition floor_mul (r : Rand) (n : nat) : nat := (num r * n) / den r.

(** A property key made from a possibly undefined value. *)
Definition prop_key (k : option string) : string :=
  match k with
  | Some s => s
  | None => "undefined"
  end.

(** One turn of the [for] loop.  [randomId] is a key of the waiting map
    or ["undefined"], which [Object.prototype] does not have: the read
    [waiting_users[randomId]] finds an own entry or nothing. *)
Definition pick (r : Rand) (st : list string * list UserRef) (w : World)
    : (list string * list UserRef) * World :=
  let '(waitingUserIds, pairedUsers) := st in
  let randomIndex := floor_mul r (length waitingUserIds) in
  let randomId := prop_key (waitingUserIds !! randomIndex) in
  let pairedUsers' := pairedUsers ++ [JsObj.get randomId (waiting_users w)] in
  let w' := delWaitingUser randomId w in
  ((delete randomIndex waitingUserIds, pairedUsers'), w').

Definition getRandomPairFromWaitingList (r1 r2 : Rand) (w : World)
    : list UserRef * World :=
  let waitingUserIds := JsObj.keys (waiting_users w) in
  let '(st1, w1) := pick r1 (waitingUserIds, []) w in
  let '(st2, w2) := pick r2 st1 w1 in
  (snd st2, w2).

(** ** Chat lifecycle

    Chat ids and message ids are the strings of [ObjectId]s, 24 hexadecimal
    digits, and so never [__proto__]: the assignments [chats[chatId] = ...]
    and [messages[id] = ...] are [JsObj.set]. *)

Definition join_all (sockets : list Socket) (chatId : string) : M unit :=
  modify (fun w =>
    set_joined (joined w ++ map (fun s => (socket_id s, chatId)) sockets) w).

(** [user.id = id; user.currentChatId = chatId; user.chatIds.push(chatId)] *)
Definition joined_chat (chatId id : string) (x : User) : User :=
  {| user_id := Some id; email := email x; loginId := loginId x;
     socketConnections := socketConnections x; socketIds := socketIds x;
     currentChatId := Some chatId; chatIds := chatIds x ++ [chatId] |}.

(** The [for] loop of [createChat]; the result is [_chat.users]. *)
Fixpoint createChat_users (chatId : string) (users : list UserRef)
    (chat_users : list string) : M (list string) :=
  match users with
  | [] => mret chat_users
  | None :: _ => throw TypeError
  | Some u :: rest =>
      e ← read (fun w => email (deref w u));
      lid ← read (fun w => loginId (deref w u));
      user ← ActiveUser_create e lid chatId;
      modify (update_user u (joined_chat chatId (au_id user)));;
      sockets ← read (fun w => socketConnections (deref w u));
      join_all sockets chatId;;
      modify (addActiveUser u);;
      createChat_users chatId rest (chat_users ++ [au_id user])
  end.

(** [users.map((user) => user.emailOrLoginId)] *)
Fixpoint member_ids (users : list UserRef) : M (list string) :=
  match users with
  | [] => mret []
  | None :: _ => throw TypeError
  | Some u :: rest =>
      k ← read (fun w => emailOrLoginId (deref w u));
      ks ← member_ids rest;
      mret (k :: ks)
  end.

Definition createChat (users : list UserRef) : M Chat :=
  _id ← new_ObjectId;
  let chatId := _id in
  chat_users ← createChat_users chatId users [];
  chat ← Chat_create _id chat_users [];
  members ← member_ids users;
  let optimizedChat := Chat_optimizedVersion chat members [] in
  modify (fun w => set_chats (JsObj.set chatId optimizedChat (chats w)) w);;
  mret optimizedChat.

(** [user.chatIds.forEach((id, i) => { if (id == chatId)
    user.chatIds.splice(i, 1) })]: [forEach] visits the indices below the
    initial length that are still present. *)
Fixpoint forEach_splice (chatId : string) (turns i : nat) (ids : list string)
    : list string :=
  match turns with
  | 0 => ids
  | S turns' =>
      match ids !! i with
      | Some x =>
          if String.eqb x chatId
          then forEach_splice chatId turns' (S i) (delete i ids)
          else forEach_splice chatId turns' (S i) ids
      | None => forEach_splice chatId turns' (S i) ids
      end
  end.

Definition splice_chat (chatId : string) (ids : list string) : list string :=
  forEach_splice chatId (length ids) 0 ids.

Definition left_chat (chatId : string) (x : User) : User :=
  {| user_id := user_id x; email := email x; loginId := loginId x;
     socketConnections := socketConnections x; socketIds := socketIds x;
     currentChatId := currentChatId x;
     chatIds := splice_chat chatId (chatIds x) |}.

(** [user.currentChatId = null] *)
Definition no_current_chat (x : User) : User :=
  {| user_id := user_id x; email := email x; loginId := loginId x;
     socketConnections := socketConnections x; socketIds := socketIds x;
     currentChatId := None; chatIds := chatIds x |}.

(** The [for (const userId of chat.userIds)] loop of [closeChat]. *)
Fixpoint closeChat_members (chatId : string) (members : list string)
    (inactiveList : list string) : M (list string) :=
  match members with
  | [] => mret inactiveList
  | userId :: rest =>
      found ← read (getActiveUser (SearchString userId));
      match found with
      | None => closeChat_members chatId rest inactiveList
      | Some user =>
          modify (update_user user (left_chat chatId));;
          Chat_deleteOne chatId;;
          n ← getChatsCount userId;
          if Nat.eqb n 0 then
            modify (update_user user no_current_chat);;
            delActiveUser user;;
            key ← read (fun w => emailOrLoginId (deref w user));
            closeChat_members chatId rest
              (if includes key inactiveList then inactiveList
               else inactiveList ++ [key])
          else closeChat_members chatId rest inactiveList
      end
  end.

(** For a [chat] inherited from [Object.prototype], [chat.messages] is
    [undefined] and [Object.keys] of it is a [TypeError]. *)
Definition closeChat (chatId : string) : M (option (list string)) :=
  Chat_deleteOne chatId;;
  found ← read (getChat chatId);
  match found with
  | None => mret None
  | Some JsObj.Builtin => throw TypeError
  | Some (JsObj.Own chat) =>
      Message_deleteMany (JsObj.keys (messages chat));;
      inactiveList ← closeChat_members chatId (userIds chat) [];
      modify (fun w => set_chats (JsObj.del chatId (chats w)) w);;
      mret (Some inactiveList)
  end.

(** ** Message lifecycle *)

Record MessagePayload := {
  p_message : string;
  p_time : N;
  p_senderId : string;
  p_type : option MessageType
}.

Record MessageEdit := {
  e_id : string;
  e_message : string
}.

Definition with_messages (c : Chat) (msgs : JsObj.t Message) : Chat :=
  {| chat_id := chat_id c; userIds := userIds c; messages := msgs;
     createdAt := createdAt c |}.

(** A write through [chats[chatId].messages].  Reading a property of an
    absent chat is a [TypeError]; so is the write when [chats[chatId]] is a
    member of [Object.prototype], whose [messages] is [undefined]. *)
Definition update_messages (chatId : string)
    (f : JsObj.t Message -> M (JsObj.t Message)) : M unit :=
  found ← read (getChat chatId);
  match found with
  | Some (JsObj.Own c) =>
      msgs ← f (messages c);
      modify (fun w =>
        set_chats (JsObj.set chatId (with_messages c msgs) (chats w)) w)
  | _ => throw TypeError
  end.

Definition addMessage (chatId : string) (p : MessagePayload)
    : M (option Message) :=
  sender ← read (getActiveUser (SearchString (p_senderId p)));
  match sender with
  | None => mret None
  | Some sender =>
      found ← read (getChat chatId);
      match found with
      | None => mret None
      | Some _ =>
          sid ← read (fun w => user_id (deref w sender));
          sender_oid ← ObjectId_of sid;
          doc ← Message_create (p_message p) sender_oid
                  (match p_type p with Some ty => ty | None => message_type end)
                  (p_time p);
          let optimizedMessage :=
            Message_optimizedVersion doc (p_senderId p) in
          Chat_push_message chatId (msg_id optimizedMessage);;
          update_messages chatId (fun msgs =>
            mret (JsObj.set (msg_id optimizedMessage) optimizedMessage msgs));;
          mret (Some optimizedMessage)
      end
  end.

Definition removeMessage (chatId messageId : string) : M bool :=
  found ← read (getChat chatId);
  match found with
  | None => mret false
  | Some _ =>
      deleted ← try_catch (Message_deleteOne messageId;; mret true)
                          (mret false);
      if deleted : bool then
        update_messages chatId (fun msgs => mret (JsObj.del messageId msgs));;
        mret true
      else mret false
  end.

(** Both guards stand before the [try].  For a [chats[chatId]] inherited
    from [Object.prototype] the second guard reads [id] of an [undefined]
    [messages]; for a [messages[id]] inherited from it the guard passes and
    the text is written on the built-in object, not in the cache. *)
Definition editMessage (chatId : string) (e : MessageEdit) : M bool :=
  found ← read (getChat chatId);
  match found with
  | None => mret false
  | Some JsObj.Builtin => throw TypeError
  | Some (JsObj.Own c) =>
      match JsObj.read (e_id e) (messages c) with
      | None => mret false
      | Some _ =>
          try_catch
            (Message_updateOne (e_id e) (e_message e);;
             update_messages chatId (fun msgs =>
               match JsObj.read (e_id e) msgs with
               | None => throw TypeError
               | Some (JsObj.Own m) =>
                   mret (JsObj.set (e_id e)
                     {| msg_id := msg_id m; message := e_message e;
                        senderId := senderId m; time := time m;
                        type := type m |} msgs)
               | Some JsObj.Builtin => mret msgs
               end);;
             mret true)
            (mret false)
      end
  end.

(** ** Bootstrap *)

(** The inner [for (const message of chat.messages)] loop; [None] when the
    [return] statement is reached. *)
Fixpoint init_messages (ms : list PopulatedMessage) (msgs : JsObj.t Message)
    : option (JsObj.t Message) :=
  match ms with
  | [] => Some msgs
  | m :: rest =>
      match pm_sender m with
      | None => None
      | Some sender =>
          init_messages rest
            (JsObj.set (md_id (pm_doc m))
               (Message_optimizedVersion (pm_doc m) (doc_emailOrLoginId sender))
               msgs)
      end
  end.

(** The [for await (const chat of _chats)] loop; the result tells whether
    [init] goes on ([true]) or has returned ([false]). *)
Fixpoint init_chats (cs : list PopulatedChat) : M bool :=
  match cs with
  | [] => mret true
  | chat :: rest =>
      let ids := map doc_emailOrLoginId (pc_users chat) in
      match init_messages (pc_messages chat) [] with
      | None => mret false
      | Some msgs =>
          modify (fun w =>
            set_chats
              (JsObj.set (cd_id (pc_doc chat))
                 (Chat_optimizedVersion (pc_doc chat) ids msgs) (chats w)) w);;
          init_chats rest
      end
  end.

(** The [for await (const activeUser of ActiveUser.find())] loop. *)
Fixpoint init_users (us : list ActiveUserDoc) : M unit :=
  match us with
  | [] => mret tt
  | activeUser :: rest =>
      found ← Chat_find_by_user (au_id activeUser);
      user ← alloc (ActiveUser_optimizedVersion activeUser (map cd_id found));
      modify (fun w =>
        set_active_users
          (JsObj.set (doc_emailOrLoginId activeUser) user (active_users w)) w);;
      init_users rest
  end.

Definition init : M unit :=
  _chats ← Chat_find_populated;
  continue ← init_chats _chats;
  if continue : bool then
    us ← ActiveUser_find;
    init_users us
  else mret tt.

(** ** Well-formedness of the cache *)

(** The object [l] is the value of some key of [o]. *)
Definition refers (o : JsObj.t loc) (l : loc) : Prop := l ∈ JsObj.values o.

(** Every waiting entry is an allocated object, indexed by its derived id,
    that has not joined any chat yet. *)
Record waiting_ok (w : World) : Prop := {
  waiting_wf : JsObj.wf (waiting_users w);
  waiting_alloc : forall k l,
    JsObj.get k (waiting_users w) = Some l -> l < length (heap w);
  waiting_key : forall k l,
    JsObj.get k (waiting_users w) = Some l -> emailOrLoginId (deref w l) = k;
  waiting_fresh : forall k l,
    JsObj.get k (waiting_users w) = Some l -> chatIds (deref w l) = []
}.

Record active_ok (w : World) : Prop := {
  active_wf : JsObj.wf (active_users w);
  active_alloc : forall k l,
    JsObj.get k (active_users w) = Some l -> l < length (heap w);
  active_key : forall k l,
    JsObj.get k (active_users w) = Some l -> emailOrLoginId (deref w l) = k
}.

(** No user object is in both maps. *)
Definition exclusive (w : World) : Prop :=
  forall l, refers (waiting_users w) l -> refers (active_users w) l -> False.

(** The first store calls of an operation succeed. *)
Fixpoint store_ok (calls : nat) (fs : list bool) : Prop :=
  match calls, fs with
  | 0, _ => True
  | S _, [] => True
  | S n, f :: fs' => f = false /\ store_ok n fs'
  end.

(** ** Runs of the core

    A caller works on user objects through references.  It gets them from
    [getRandomPairFromWaitingList] and [getActiveUser]; the objects made by
    [addToWaitingList] stay inside the module until they are paired. *)

Inductive Op :=
| OpAddToWaitingList (lid : string) (e : option string) (socket : Socket)
| OpGetRandomPairFromWaitingList (r1 r2 : Rand)
| OpGetActiveUser (s : Search)
| OpCreateChat (users : list UserRef)
| OpAddActiveUser (user : loc)
| OpCloseChat (chatId : string)
| OpDelActiveUser (user : loc)
| OpDelWaitingUser (id : string).

Definition run_op (op : Op) (w : World) : World :=
  match op with
  | OpAddToWaitingList lid e socket => snd (addToWaitingList lid e socket w)
  | OpGetRandomPairFromWaitingList r1 r2 =>
      snd (getRandomPairFromWaitingList r1 r2 w)
  | OpGetActiveUser _ => w
  | OpCreateChat users => snd (createChat users w)
  | OpAddActiveUser user => addActiveUser user w
  | OpCloseChat chatId => snd (closeChat chatId w)
  | OpDelActiveUser user => snd (delActiveUser user w)
  | OpDelWaitingUser id => delWaitingUser id w
  end.

Fixpoint defined_refs (rs : list UserRef) : list loc :=
  match rs with
  | [] => []
  | Some l :: rest => l :: defined_refs rest
  | None :: rest => defined_refs rest
  end.

(** The references an operation hands to its caller. *)
Definition returned_refs (op : Op) (w : World) : list loc :=
  match op with
  | OpGetRandomPairFromWaitingList r1 r2 =>
      defined_refs (fst (getRandomPairFromWaitingList r1 r2 w))
  | OpGetActiveUser s => defined_refs [getActiveUser s w]
  | _ => []
  end.

(** The references an operation receives are references the caller holds. *)
Definition may_call (held : list loc) (op : Op) : Prop :=
  match op with
  | OpCreateChat users => forall l, Some l ∈ users -> l ∈ held
  | OpAddActiveUser user => user ∈ held
  | OpDelActiveUser user => user ∈ held
  | _ => True
  end.

Definition initial (w : World) : Prop :=
  heap w = [] /\ waiting_users w = [] /\ active_users w = [] /\ chats w = [].

Inductive reachable : list loc -> World -> Prop :=
| reach_initial w : initial w -> reachable [] w
| reach_step held w op :
    reachable held w -> may_call held op ->
    reachable (held ++ returned_refs op w) (run_op op w).

(** The operations that put a user into the active map. *)
Definition promotes (op : Op) : bool :=
  match op with
  | OpCreateChat _ | OpAddActiveUser _ => true
  | _ => false
  end.

(** ** Sample runs *)

Definition exec {A} (m : M A) (w : World) : World := snd (m w).

Definition sock (s : string) : Socket := {| socket_id := s |}.

(** [Math.random()] returning 0. *)
Definition rand0 : Rand := {| num := 0; den := 1 |}.

(** Two users wait: one signed in with an email, one anonymous. *)
Definition world_two_waiting : World :=
  Eval vm_compute in
  exec (addToWaitingList "L2" None (sock "s2"))
    (exec (addToWaitingList "L1" (Some "a@x") (sock "s1")) empty_world).

(** The two waiting users are paired and get a chat. *)
Definition world_chat : World :=
  Eval vm_compute in
  let '(users, w) := getRandomPairFromWaitingList rand0 rand0 world_two_waiting in
  exec (createChat users) w.

Definition chat0 : string := Eval vm_compute in ObjectId_toString 0.

Definition hello (sender : string) : MessagePayload :=
  {| p_message := "hi"; p_time := 5; p_senderId := sender; p_type := None |}.

(** One message has been sent in the chat. *)
Definition world_message : World :=
  Eval vm_compute in exec (addMessage chat0 (hello "a@x")) world_chat.

Definition message0 : string := Eval vm_compute in ObjectId_toString 3.

(** The same cache in front of a store whose next call fails. *)
Definition world_store_down : World := set_faults [true] world_message.

(** ** The specification's wording of the claims that the code does not
    meet, kept for comparison with the code's behaviour *)

(** "[addToWaitingList] ... error if already present." *)
Definition spec_addToWaitingList_rejects_present : Prop :=
  forall (w : World) (lid : string) (e : option string) (socket : Socket),
    JsObj.get (match e with Some e' => e' | None => lid end) (waiting_users w)
      <> None ->
    exists exn w', addToWaitingList lid e socket w = (Throw exn, w').

(** *** Bootstrap, as a description of what ends up in the cache *)

Definition sender_resolved (m : PopulatedMessage) : Prop := pm_sender m <> None.

Definition cached_message (m : PopulatedMessage) : Message :=
  Message_optimizedVersion (pm_doc m)
    (match pm_sender m with
     | Some sender => doc_emailOrLoginId sender
     | None => EmptyString
     end).

Definition cached_messages (ms : list PopulatedMessage) (msgs : JsObj.t Message)
    : JsObj.t Message :=
  fold_left (fun o m => JsObj.set (md_id (pm_doc m)) (cached_message m) o) ms msgs.

Definition cached_chat (c : PopulatedChat) : Chat :=
  Chat_optimizedVersion (pc_doc c) (map doc_emailOrLoginId (pc_users c))
    (cached_messages (pc_messages c) []).

Definition load_chats (cs : list PopulatedChat) (o : JsObj.t Chat)
    : JsObj.t Chat :=
  fold_left (fun o c => JsObj.set (cd_id (pc_doc c)) (cached_chat c) o) cs o.

Definition populated_chats (w : World) : list PopulatedChat :=
  map (populate_chat (store w)) (Chats (store w)).

(** "... the reference behavior aborts loading further messages for that
    chat": the other chats are loaded and the active users are populated. *)
Definition spec_init_aborts_only_that_chat : Prop :=
  forall (w w' : World),
    faults w = [] ->
    init w = (Ok tt, w') ->
    (exists bad, bad ∈ populated_chats w /\
                 ~ Forall sender_resolved (pc_messages bad)) ->
    (forall c, c ∈ populated_chats w ->
       Forall sender_resolved (pc_messages c) ->
       chatExists (cd_id (pc_doc c)) w' = true) /\
    (forall u, u ∈ ActiveUsers (store w) ->
       isUserActive (doc_emailOrLoginId u) w' = true).

(** A store in which the only message of the first chat has lost its
    sender; the second chat is sound. *)
Definition store_orphan : Store :=
  {| ActiveUsers :=
       [{| au_id := "u1"; au_email := None; au_loginId := "L1";
           au_currentChat := Some "c2" |}];
     Chats :=
       [{| cd_id := "c1"; cd_users := ["u1"]; cd_messages := ["m1"];
           cd_createdAt := 1 |};
        {| cd_id := "c2"; cd_users := ["u1"]; cd_messages := [];
           cd_createdAt := 2 |}];
     Messages :=
       [{| md_id := "m1"; md_message := "hi"; md_sender := "u0";
           md_type := message_type; md_createdAt := 1 |}] |}.

Definition world_orphan : World := set_store store_orphan empty_world.

(** The same two chats in the other order. *)
Definition world_orphan_last : World :=
  set_store
    {| ActiveUsers := ActiveUsers store_orphan;
       Chats := rev (Chats store_orphan);
       Messages := Messages store_orphan |} empty_world.

(** *** Closing a chat, as the specification reads it *)

(** The chat [chatId] is the only chat of the user. *)
Definition only_chat (chatId : string) (u : User) : bool :=
  forallb (String.eqb chatId) (chatIds u).

(** The members, each looked up under its own derived id, for whom the chat
    is the only one: the users the specification expects [closeChat] to
    deactivate and to return. *)
Definition inactive_of (chatId : string) (members : list string) (w : World)
    : list string :=
  List.filter
    (fun m =>
       match JsObj.get m (active_users w) with
       | Some user => only_chat chatId (deref w user)
       | None => false
       end)
    members.

Definition spec_inactive_members (chatId : string) (w : World) : list string :=
  match JsObj.get chatId (chats w) with
  | Some chat => inactive_of chatId (userIds chat) w
  | None => []
  end.

(** Two chats.  The first pairs a user signed in with an email (login id
    "L1") with an anonymous user; the second pairs an anonymous user whose
    login id is also "L1" with a fourth user. *)
Definition world_shared_login : World :=
  Eval vm_compute in
  let w := exec (addToWaitingList "L3" None (sock "s4"))
             (exec (addToWaitingList "L1" None (sock "s3")) world_chat) in
  let '(users, w) := getRandomPairFromWaitingList rand0 rand0 w in
  exec (createChat users) w.

Definition chat1 : string := Eval vm_compute in ObjectId_toString 3.

(** ** Effects of an operation on the cache, whatever its outcome *)

(** An update of a user object that leaves alone what [getActiveUser] and
    the derived id look at. *)
Definition keeps_identity (f : User -> User) : Prop :=
  forall x, socketIds (f x) = socketIds x /\ email (f x) = email x /\
            loginId (f x) = loginId x.

(** The active map only loses entries, and only active users are written. *)
Record shrinks (w w' : World) : Prop := {
  shrinks_waiting : waiting_users w' = waiting_users w;
  shrinks_heap : length (heap w') = length (heap w);
  shrinks_deref : forall l,
    ~ refers (active_users w) l -> deref w' l = deref w l;
  shrinks_refers : forall l,
    refers (active_users w') l -> refers (active_users w) l;
  shrinks_get : forall k l,
    JsObj.get k (active_users w') = Some l ->
    JsObj.get k (active_users w) = Some l;
  shrinks_wf : JsObj.wf (active_users w) -> JsObj.wf (active_users w');
  shrinks_key : forall l,
    emailOrLoginId (deref w' l) = emailOrLoginId (deref w l)
}.

(** The active map gains at most the given users, and only they are
    written. *)
Record grows_by (users : list UserRef) (w w' : World) : Prop := {
  grows_waiting : waiting_users w' = waiting_users w;
  grows_heap : length (heap w') = length (heap w);
  grows_deref : forall l, Some l ∉ users -> deref w' l = deref w l;
  grows_refers : forall l,
    refers (active_users w') l -> refers (active_users w) l \/ Some l ∈ users;
  grows_get : forall k l,
    JsObj.get k (active_users w') = Some l ->
    JsObj.get k (active_users w) = Some l \/
    emailOrLoginId (deref w l) = k;
  grows_wf : JsObj.wf (active_users w) -> JsObj.wf (active_users w');
  grows_key : forall l,
    emailOrLoginId (deref w' l) = emailOrLoginId (deref w l)
}.

(** What holds of every world a run of the core can reach, for the
    references [held] by its callers. *)
Record invariant (held : list loc) (w : World) : Prop := {
  inv_waiting : waiting_ok w;
  inv_active_alloc : forall l, refers (active_users w) l -> l < length (heap w);
  inv_active_wf : JsObj.wf (active_users w);
  inv_active_key : forall k l,
    JsObj.get k (active_users w) = Some l -> emailOrLoginId (deref w l) = k;
  inv_exclusive : exclusive w;
  inv_held : forall l, l ∈ held ->
    l < length (heap w) /\ ~ refers (waiting_users w) l
}.

(** "Invariant: a user exists in exactly one of {waiting, active} at any
    time", a user being known to the maps by its derived id. *)
Definition spec_exactly_one : Prop :=
  forall (held : list loc) (w : World),
    reachable held w ->
    forall l, l < length (heap w) ->
      let k := emailOrLoginId (deref w l) in
      (JsObj.get k (waiting_users w) <> None /\
       JsObj.get k (active_users w) = None) \/
      (JsObj.get k (waiting_users w) = None /\
       JsObj.get k (active_users w) <> None).

(** The two waiting users have been popped and not yet given a chat. *)
Definition world_popped : World :=
  Eval vm_compute in
  snd (getRandomPairFromWaitingList rand0 rand0 world_two_waiting).

(** A user in a chat is put on the waiting list again. *)
Definition world_waiting_again : World :=
  Eval vm_compute in
  exec (addToWaitingList "L1" (Some "a@x") (sock "s5")) world_chat.

(** The string [m] names, among the active users, only the user stored
    under [m]: no other active user has it as login id, email or socket
    id. *)
Definition unambiguous (m : string) (w : World) : Prop :=
  Forall (fun entry : string * loc =>
            user_matches (SearchString m) (deref w (snd entry)) = true ->
            fst entry = m)
         (active_users w).

(** Removing a chat id from a list. *)
Definition without (chatId : string) (ids : list string) : list string :=
  List.filter (fun x => negb (String.eqb x chatId)) ids.

(** What [closeChat] is expected to leave of the member stored under [m]. *)
Definition member_closed (chatId m : string) (w w' : World) : Prop :=
  forall user, JsObj.get m (active_users w) = Some user ->
    if only_chat chatId (deref w user) then
      JsObj.get m (active_users w') = None /\
      currentChatId (deref w' user) = None /\
      chatIds (deref w' user) = []
    else
      JsObj.get m (active_users w') = Some user /\
      currentChatId (deref w' user) = currentChatId (deref w user) /\
      chatIds (deref w' user) = without chatId (chatIds (deref w user)) /\
      chatIds (deref w' user) <> [].

(** The state in which the loop of [closeChat] meets the members. *)
Record members_ok (members : list string) (w : World) : Prop := {
  members_active : active_ok w;
  members_nodup : NoDup members;
  members_unambiguous : forall m, m ∈ members -> unambiguous m w;
  members_chatIds : forall m user, m ∈ members ->
    JsObj.get m (active_users w) = Some user -> NoDup (chatIds (deref w user));
  members_store : faults w = []
}.

(** What the loop of [closeChat] does to the world. *)
Record members_closed (chatId : string) (members : list string)
    (w w' : World) : Prop := {
  closed_members : forall m, m ∈ members -> member_closed chatId m w w';
  closed_others : forall k, k ∉ members ->
    JsObj.get k (active_users w') = JsObj.get k (active_users w);
  closed_deref : forall l,
    (forall m, m ∈ members -> JsObj.get m (active_users w) <> Some l) ->
    deref w' l = deref w l;
  closed_heap : length (heap w') = length (heap w);
  closed_chats : chats w' = chats w;
  closed_waiting : waiting_users w' = waiting_users w;
  closed_faults : faults w' = []
}.

(** One turn of the loop of [closeChat] for the member [m] stored as
    [user]. *)
Record member_step (chatId m : string) (user : loc) (w w' : World) : Prop := {
  step_active :
    active_users w' =
      if only_chat chatId (deref w user)
      then JsObj.del m (active_users w) else active_users w;
  step_user :
    deref w' user =
      if only_chat chatId (deref w user)
      then no_current_chat (left_chat chatId (deref w user))
      else left_chat chatId (deref w user);
  step_other : forall l, l <> user -> deref w' l = deref w l;
  step_heap : length (heap w') = length (heap w);
  step_chats : chats w' = chats w;
  step_waiting : waiting_users w' = waiting_users w;
  step_faults : faults w' = []
}.

(** ** Further sample worlds *)

(** One user waits. *)
Definition world_one_waiting : World :=
  Eval vm_compute in
  exec (addToWaitingList "L1" None (sock "s1")) empty_world.

(** The two popped users in front of a store that answers the first call
    and fails the second. *)
Definition world_second_call_fails : World := set_faults [false; true] world_popped.




(** [Message.updateOne]'s [$set] of the text on one document. *)
Definition retexted (id text : string) (d : MessageDoc) : MessageDoc :=
  if String.eqb (md_id d) id then
    {| md_id := md_id d; md_message := text; md_sender := md_sender d;
       md_type := md_type d; md_createdAt := md_createdAt d |}
  else d.

(** The cached message after [messages[id].message = text]. *)
Definition with_text (m : Message) (text : string) : Message :=
  {| msg_id := msg_id m; message := text; senderId := senderId m;
     time := time m; type := type m |}.

(** The world after one successful turn of the loop of [createChat] for the
    user [u]. *)
Definition promote (chatId : string) (u : loc) (w : World) : World :=
  let uid := ObjectId_toString (next_oid w) in
  let doc := {| au_id := uid; au_email := email (deref w u);
                au_loginId := loginId (deref w u);
                au_currentChat := Some chatId |} in
  let w1 :=
    set_store
      {| ActiveUsers := ActiveUsers (store w) ++ [doc];
         Chats := Chats (store w); Messages := Messages (store w) |}
      (set_next_oid (N.succ (next_oid w))
         (set_faults (tail (faults w)) w)) in
  let w2 := update_user u (joined_chat chatId uid) w1 in
  addActiveUser u
    (set_joined
       (joined w2 ++
          map (fun s => (socket_id s, chatId)) (socketConnections (deref w2 u)))
       w2).

(** The world after a successful [addMessage] that stored the record [d]
    and cached the message [m] in the chat [c]. *)
Definition message_added (chatId : string) (c : Chat) (m : Message)
    (d : MessageDoc) (w : World) : World :=
  set_chats
    (JsObj.set chatId (with_messages c (JsObj.set (msg_id m) m (messages c)))
       (chats w))
    (set_store
       {| ActiveUsers := ActiveUsers (store w);
          Chats := map (pushed chatId (msg_id m)) (Chats (store w));
          Messages := Messages (store w) ++ [d] |}
       (set_next_oid (N.succ (next_oid w))
          (set_faults (tail (tail (faults w))) w))).

(** The world after a successful [removeMessage] on the cached chat [c]. *)
Definition message_removed (chatId : string) (c : Chat) (messageId : string)
    (w : World) : World :=
  set_chats
    (JsObj.set chatId (with_messages c (JsObj.del messageId (messages c)))
       (chats w))
    (set_store
       {| ActiveUsers := ActiveUsers (store w);
          Chats := Chats (store w);
          Messages :=
            List.filter
              (fun d => negb (existsb (String.eqb (md_id d)) [messageId]))
              (Messages (store w)) |}
       (set_faults (tail (faults w)) w)).



(** * Properties *)

(** ** Facts about objects used as maps *)

Module JsObjFacts.
Import JsObj.

Section Facts.
Context {V : Type}.
Implicit Types (o : t V) (k : string) (v : V).

Lemma get_del_eq k o : get k (del k o) = None.
Proof.
  induction o as [|[k' v'] o IH]; simpl; [reflexivity|].
  destruct (String.eqb_spec k' k) as [->|Hne]; [exact IH|].
  simpl. apply String.eqb_neq in Hne. rewrite Hne. exact IH.
Qed.

Lemma get_del_ne k k' o : k <> k' -> get k' (del k o) = get k' o.
Proof.
  intros Hne.
  induction o as [|[k0 v0] o IH]; simpl; [reflexivity|].
  destruct (String.eqb_spec k0 k) as [->|Hk].
  - apply String.eqb_neq in Hne. rewrite Hne. exact IH.
  - simpl. rewrite IH. reflexivity.
Qed.

Lemma get_del_Some k k' o v : get k' (del k o) = Some v -> get k' o = Some v.
Proof.
  destruct (String.eqb_spec k k') as [->|Hne].
  - rewrite get_del_eq. discriminate.
  - rewrite get_del_ne by assumption. trivial.
Qed.

Lemma get_elem_keys k o v : get k o = Some v -> k ∈ keys o.
Proof.
  induction o as [|[k' v'] o IH]; simpl; [discriminate|].
  destruct (String.eqb_spec k' k) as [->|Hne]; intros H.
  - apply elem_of_cons. auto.
  - apply elem_of_cons. auto.
Qed.

Lemma elem_keys_get k o : k ∈ keys o -> exists v, get k o = Some v.
Proof.
  induction o as [|[k' v'] o IH]; simpl.
  - intros H. apply elem_of_nil in H. tauto.
  - intros H. apply elem_of_cons in H as [->|Hin].
    + rewrite String.eqb_refl. eauto.
    + destruct (String.eqb k' k); eauto.
Qed.

Lemma get_None_keys k o : get k o = None -> k ∉ keys o.
Proof.
  intros Hget Hin. apply elem_keys_get in Hin as [v Hv]. congruence.
Qed.

Lemma elem_keys_del k k' o : k' ∈ keys (del k o) <-> k' ∈ keys o /\ k <> k'.
Proof.
  induction o as [|[k0 v0] o IH]; simpl.
  - rewrite elem_of_nil. tauto.
  - destruct (String.eqb_spec k0 k) as [->|Hk]; simpl;
      rewrite ?elem_of_cons, IH.
    + split; [tauto|]. intros [[->|?] ?]; tauto.
    + split; [|tauto]. intros [->|?]; [|tauto]. split; [tauto|congruence].
Qed.

Lemma wf_del k o : wf o -> wf (del k o).
Proof.
  unfold wf.
  induction o as [|[k0 v0] o IH]; simpl; [trivial|].
  intros Hnd. apply NoDup_cons in Hnd as [Hnin Hnd].
  destruct (String.eqb k0 k); simpl; [auto|].
  apply NoDup_cons. split; [|auto].
  intros Hin. apply elem_keys_del in Hin. tauto.
Qed.

Lemma del_absent k o : k ∉ keys o -> del k o = o.
Proof.
  induction o as [|[k0 v0] o IH]; simpl; [trivial|].
  rewrite elem_of_cons.
  intros Hnin. destruct (String.eqb_spec k0 k) as [->|Hk]; [tauto|].
  rewrite IH by tauto. reflexivity.
Qed.

Lemma length_del k o :
  wf o -> k ∈ keys o -> S (length (del k o)) = length o.
Proof.
  unfold wf.
  induction o as [|[k0 v0] o IH]; simpl.
  - intros _ H. apply elem_of_nil in H. tauto.
  - intros Hnd Hin. apply NoDup_cons in Hnd as [Hnin Hnd].
    apply elem_of_cons in Hin.
    destruct (String.eqb_spec k0 k) as [->|Hk].
    + rewrite del_absent by assumption. reflexivity.
    + simpl. rewrite IH; [reflexivity|assumption|].
      destruct Hin; [congruence|assumption].
Qed.

Lemma get_replace_eq k v o :
  k ∈ keys o -> get k (replace k v o) = Some v.
Proof.
  induction o as [|[k0 v0] o IH]; simpl.
  - intros H. apply elem_of_nil in H. tauto.
  - intros Hin. apply elem_of_cons in Hin.
    destruct (String.eqb_spec k0 k) as [->|Hk]; simpl.
    + rewrite String.eqb_refl. reflexivity.
    + destruct Hin as [->|Hin]; [congruence|].
      apply String.eqb_neq in Hk. rewrite Hk. apply IH. assumption.
Qed.

Lemma get_replace_ne k k' v o : k <> k' -> get k' (replace k v o) = get k' o.
Proof.
  intros Hne.
  induction o as [|[k0 v0] o IH]; simpl; [reflexivity|].
  destruct (String.eqb_spec k0 k) as [->|Hk]; simpl.
  - apply String.eqb_neq in Hne. rewrite Hne. reflexivity.
  - rewrite IH. reflexivity.
Qed.

Lemma keys_replace k v o : keys (replace k v o) = keys o.
Proof.
  induction o as [|[k0 v0] o IH]; simpl; [reflexivity|].
  destruct (String.eqb k0 k); simpl; [reflexivity|]. rewrite IH. reflexivity.
Qed.

Lemma get_put_index_eq n k v o :
  get k o = None -> get k (put_index n k v o) = Some v.
Proof.
  induction o as [|[k0 v0] o IH]; simpl.
  - rewrite String.eqb_refl. reflexivity.
  - destruct (String.eqb_spec k0 k) as [->|Hk]; [discriminate|].
    intros Hget. apply String.eqb_neq in Hk.
    destruct (array_index k0) as [m|]; [destruct (m <? n)%N|]; simpl;
      rewrite ?Hk, ?String.eqb_refl; auto.
Qed.

Lemma get_put_index_ne n k k' v o :
  k <> k' -> get k' (put_index n k v o) = get k' o.
Proof.
  intros Hne. apply String.eqb_neq in Hne.
  induction o as [|[k0 v0] o IH]; simpl.
  - rewrite Hne. reflexivity.
  - destruct (array_index k0) as [m|]; [destruct (m <? n)%N|]; simpl;
      rewrite ?Hne, ?IH; reflexivity.
Qed.

Lemma elem_keys_put_index n k k' v o :
  k' ∈ keys (put_index n k v o) <-> k' = k \/ k' ∈ keys o.
Proof.
  induction o as [|[k0 v0] o IH]; simpl.
  - rewrite elem_of_cons. tauto.
  - destruct (array_index k0) as [m|]; [destruct (m <? n)%N|]; simpl;
      rewrite !elem_of_cons, ?IH; tauto.
Qed.

Lemma wf_put_index n k v o :
  k ∉ keys o -> wf o -> wf (put_index n k v o).
Proof.
  unfold wf.
  induction o as [|[k0 v0] o IH]; simpl.
  - intros _ _. apply NoDup_singleton.
  - intros Hnin Hnd.
    assert (Hall : NoDup (k :: k0 :: keys o)).
    { apply NoDup_cons. split; assumption. }
    apply NoDup_cons in Hnd as [Hk0 Hnd].
    rewrite elem_of_cons in Hnin.
    destruct (array_index k0) as [m|]; [destruct (m <? n)%N|]; simpl;
      try exact Hall.
    apply NoDup_cons. split; [|apply IH; tauto].
    intros Hin. apply elem_keys_put_index in Hin.
    destruct Hin as [->|Hin]; tauto.
Qed.

Lemma get_app_last k v o : get k o = None -> get k (o ++ [(k, v)]) = Some v.
Proof.
  induction o as [|[k0 v0] o IH]; simpl.
  - rewrite String.eqb_refl. reflexivity.
  - destruct (String.eqb k0 k); [discriminate|auto].
Qed.

Lemma get_app_last_ne k k' v o : k <> k' -> get k' (o ++ [(k, v)]) = get k' o.
Proof.
  intros Hne. apply String.eqb_neq in Hne.
  induction o as [|[k0 v0] o IH]; simpl.
  - rewrite Hne. reflexivity.
  - rewrite IH. reflexivity.
Qed.

Lemma get_set_eq k v o : get k (set k v o) = Some v.
Proof.
  unfold set. destruct (get k o) as [v0|] eqn:Hget.
  - apply get_replace_eq. eapply get_elem_keys; eassumption.
  - destruct (array_index k).
    + apply get_put_index_eq; assumption.
    + apply get_app_last; assumption.
Qed.

Lemma get_set_ne k k' v o : k <> k' -> get k' (set k v o) = get k' o.
Proof.
  intros Hne. unfold set. destruct (get k o) as [v0|].
  - apply get_replace_ne; assumption.
  - destruct (array_index k).
    + apply get_put_index_ne; assumption.
    + apply get_app_last_ne; assumption.
Qed.

Lemma get_set_Some k k' v v' o :
  get k' (set k v o) = Some v' -> (k' = k /\ v' = v) \/ get k' o = Some v'.
Proof.
  destruct (String.eqb_spec k k') as [->|Hne].
  - rewrite get_set_eq. intros [= ->]. auto.
  - rewrite get_set_ne by assumption. auto.
Qed.

Lemma wf_set k v o : wf o -> wf (set k v o).
Proof.
  intros Hwf. unfold set. destruct (get k o) as [v0|] eqn:Hget.
  - unfold wf. rewrite keys_replace. exact Hwf.
  - apply get_None_keys in Hget. destruct (array_index k).
    + apply wf_put_index; assumption.
    + unfold wf, keys. rewrite List.map_app. simpl.
      apply NoDup_app. repeat split.
      * exact Hwf.
      * intros x Hx Hx'. apply list_elem_of_singleton in Hx'. subst x.
        exact (Hget Hx).
      * apply NoDup_singleton.
Qed.

Lemma length_set_new k v o :
  get k o = None -> length (set k v o) = S (length o).
Proof.
  intros Hget. unfold set. rewrite Hget.
  destruct (array_index k) as [n|].
  - clear Hget. induction o as [|[k0 v0] o IH]; simpl; [reflexivity|].
    destruct (array_index k0) as [m|]; [destruct (m <? n)%N|]; simpl;
      rewrite ?IH; reflexivity.
  - rewrite List.length_app. simpl. lia.
Qed.

Lemma get_Forall (P : string -> V -> Prop) o :
  Forall (fun p => P (fst p) (snd p)) o ->
  forall k v, get k o = Some v -> P k v.
Proof.
  induction 1 as [|[k0 v0] o Hp _ IH]; simpl; intros k v; [discriminate|].
  destruct (String.eqb_spec k0 k) as [->|Hne]; [|apply IH].
  intros [= <-]. exact Hp.
Qed.

Lemma get_elem_values k o v : get k o = Some v -> v ∈ values o.
Proof.
  induction o as [|[k0 v0] o IH]; simpl; [discriminate|].
  destruct (String.eqb k0 k).
  - intros [= ->]. apply elem_of_cons. auto.
  - intros H. apply elem_of_cons. auto.
Qed.

Lemma elem_values_del k o x : x ∈ values (del k o) -> x ∈ values o.
Proof.
  induction o as [|[k0 v0] o IH]; simpl; [trivial|].
  destruct (String.eqb k0 k); simpl; rewrite ?elem_of_cons; intuition.
Qed.

Lemma elem_values_replace k v o x :
  x ∈ values (replace k v o) -> x = v \/ x ∈ values o.
Proof.
  induction o as [|[k0 v0] o IH]; simpl; [auto|].
  destruct (String.eqb k0 k); simpl; rewrite !elem_of_cons; intuition.
Qed.

Lemma elem_values_put_index n k v o x :
  x ∈ values (put_index n k v o) -> x = v \/ x ∈ values o.
Proof.
  induction o as [|[k0 v0] o IH]; simpl.
  - rewrite elem_of_cons. tauto.
  - destruct (array_index k0) as [m|]; [destruct (m <? n)%N|]; simpl;
      rewrite !elem_of_cons; intuition.
Qed.

Lemma elem_values_set k v o x : x ∈ values (set k v o) -> x = v \/ x ∈ values o.
Proof.
  unfold set. destruct (get k o).
  - apply elem_values_replace.
  - destruct (array_index k).
    + apply elem_values_put_index.
    + unfold values. rewrite List.map_app, elem_of_app. simpl.
      rewrite list_elem_of_singleton. tauto.
Qed.

Lemma elem_values_get o x : wf o -> x ∈ values o -> exists k, get k o = Some x.
Proof.
  unfold wf.
  induction o as [|[k0 v0] o IH]; simpl.
  - intros _ H. apply elem_of_nil in H. tauto.
  - intros Hnd Hx. apply NoDup_cons in Hnd as [Hk0 Hnd].
    apply elem_of_cons in Hx as [->|Hx].
    + exists k0. rewrite String.eqb_refl. reflexivity.
    + destruct (IH Hnd Hx) as [k Hk]. exists k.
      destruct (String.eqb_spec k0 k) as [->|Hne]; [|exact Hk].
      exfalso. apply Hk0. eapply get_elem_keys. eassumption.
Qed.

Lemma length_set_old k v v0 o :
  get k o = Some v0 -> length (set k v o) = length o.
Proof.
  intros Hget. unfold set. rewrite Hget.
  rewrite <- (List.length_map fst (replace k v o)).
  fold (keys (replace k v o)). rewrite keys_replace.
  unfold keys. apply List.length_map.
Qed.

Lemma assign_set k v o : k <> "__proto__" -> assign k v o = set k v o.
Proof.
  intros Hk. unfold assign. destruct (get k o); [reflexivity|].
  apply String.eqb_neq in Hk. rewrite Hk. reflexivity.
Qed.

Lemma assign_old k v v0 o : get k o = Some v0 -> assign k v o = set k v o.
Proof. intros Hget. unfold assign. rewrite Hget. reflexivity. Qed.

Lemma assign_proto v o :
  get "__proto__" o = None -> assign "__proto__" v o = o.
Proof. intros Hget. unfold assign. rewrite Hget. reflexivity. Qed.

Lemma assign_cases k v o : assign k v o = set k v o \/ assign k v o = o.
Proof.
  unfold assign. destruct (get k o); [auto|].
  destruct (String.eqb k "__proto__"); auto.
Qed.

Lemma wf_assign k v o : wf o -> wf (assign k v o).
Proof.
  intros Hwf. destruct (assign_cases k v o) as [-> | ->]; [|exact Hwf].
  apply wf_set, Hwf.
Qed.

Lemma get_assign_Some k k' v v' o :
  get k' (assign k v o) = Some v' -> (k' = k /\ v' = v) \/ get k' o = Some v'.
Proof.
  destruct (assign_cases k v o) as [-> | ->]; [apply get_set_Some|auto].
Qed.

Lemma elem_values_assign k v o x :
  x ∈ values (assign k v o) -> x = v \/ x ∈ values o.
Proof.
  destruct (assign_cases k v o) as [-> | ->]; [apply elem_values_set|auto].
Qed.

Lemma read_Own k o v : read k o = Some (Own v) <-> get k o = Some v.
Proof.
  unfold read. destruct (get k o) as [v'|].
  - split; intros [= ->]; reflexivity.
  - destruct (inherited k); split; discriminate.
Qed.

Lemma read_None k o :
  read k o = None <-> get k o = None /\ inherited k = false.
Proof.
  unfold read. destruct (get k o) as [v'|].
  - split; [discriminate|intros [? _]; discriminate].
  - destruct (inherited k); split; try discriminate; auto.
    intros [_ ?]. discriminate.
Qed.

Lemma read_Builtin k o :
  read k o = Some Builtin <-> get k o = None /\ inherited k = true.
Proof.
  unfold read. destruct (get k o) as [v'|].
  - split; [discriminate|intros [? _]; discriminate].
  - destruct (inherited k); split; try discriminate; auto.
    intros [_ ?]. discriminate.
Qed.

Lemma read_ext k o o' : get k o' = get k o -> read k o' = read k o.
Proof. intros H. unfold read. rewrite H. reflexivity. Qed.
End Facts.

End JsObjFacts.

(** ** Lookups through the prototype chain *)

Lemma getChat_Own (chatId : string) (w : World) (c : Chat) :
  getChat chatId w = Some (JsObj.Own c) <-> JsObj.get chatId (chats w) = Some c.
Proof. apply JsObjFacts.read_Own. Qed.

Lemma getChat_None (chatId : string) (w : World) :
  getChat chatId w = None <->
  JsObj.get chatId (chats w) = None /\ JsObj.inherited chatId = false.
Proof. apply JsObjFacts.read_None. Qed.

Lemma getChat_Builtin (chatId : string) (w : World) :
  getChat chatId w = Some JsObj.Builtin <->
  JsObj.get chatId (chats w) = None /\ JsObj.inherited chatId = true.
Proof. apply JsObjFacts.read_Builtin. Qed.

Lemma getChat_ext (chatId : string) (w w' : World) :
  JsObj.get chatId (chats w') = JsObj.get chatId (chats w) ->
  getChat chatId w' = getChat chatId w.
Proof. apply JsObjFacts.read_ext. Qed.

(** ** Running computations *)

Ltac run_M :=
  unfold mbind, M_bind, mret, M_ret, read, modify, throw, modify_store in *;
  simpl in *.

Lemma deref_set_waiting_users o w l : deref (set_waiting_users o w) l = deref w l.
Proof. reflexivity. Qed.

Lemma deref_set_active_users o w l : deref (set_active_users o w) l = deref w l.
Proof. reflexivity. Qed.

Lemma deref_set_chats o w l : deref (set_chats o w) l = deref w l.
Proof. reflexivity. Qed.

Lemma deref_set_store s w l : deref (set_store s w) l = deref w l.
Proof. reflexivity. Qed.

Lemma deref_set_faults fs w l : deref (set_faults fs w) l = deref w l.
Proof. reflexivity. Qed.

Lemma deref_set_next_oid n w l : deref (set_next_oid n w) l = deref w l.
Proof. reflexivity. Qed.

Lemma deref_set_joined j w l : deref (set_joined j w) l = deref w l.
Proof. reflexivity. Qed.

Lemma deref_addActiveUser u w l : deref (addActiveUser u w) l = deref w l.
Proof. reflexivity. Qed.

Lemma deref_delWaitingUser k w l : deref (delWaitingUser k w) l = deref w l.
Proof. reflexivity. Qed.

Create Rewrite HintDb world.

#[global] Hint Rewrite deref_set_waiting_users deref_set_active_users
  deref_set_chats deref_set_store deref_set_faults deref_set_next_oid
  deref_set_joined deref_addActiveUser deref_delWaitingUser : world.

Arguments deref : simpl never.

(** ** Pairing engine *)

Lemma floor_mul_lt (r : Rand) (n : nat) :
  in_unit_interval r -> 0 < n -> floor_mul r n < n.
Proof.
  unfold in_unit_interval, floor_mul. intros Hr Hn.
  apply Nat.Div0.div_lt_upper_bound. nia.
Qed.

Lemma NoDup_lookup_delete (ids : list string) (i : nat) (k : string) :
  NoDup ids -> ids !! i = Some k -> (k ∉ delete i ids) /\ NoDup (delete i ids).
Proof.
  intros Hnd Hi.
  pose proof (delete_Permutation ids i k Hi) as Hp.
  rewrite Hp in Hnd. apply NoDup_cons in Hnd. exact Hnd.
Qed.

Lemma pick_spec (r : Rand) (ids : list string) (acc : list UserRef) (w : World) :
  in_unit_interval r -> 0 < length ids ->
  (forall k, k ∈ ids -> k ∈ JsObj.keys (waiting_users w)) ->
  exists i k u,
    ids !! i = Some k /\
    JsObj.get k (waiting_users w) = Some u /\
    pick r (ids, acc) w = ((delete i ids, acc ++ [Some u]), delWaitingUser k w).
Proof.
  intros Hr Hlen Hkeys.
  pose proof (floor_mul_lt r (length ids) Hr Hlen) as Hlt.
  destruct (lookup_lt_is_Some_2 ids _ Hlt) as [k Hk].
  assert (Hin : k ∈ ids) by (eapply list_elem_of_lookup_2; eassumption).
  destruct (JsObjFacts.elem_keys_get k _ (Hkeys k Hin)) as [u Hu].
  exists (floor_mul r (length ids)), k, u. repeat split; try assumption.
  unfold pick. rewrite Hk. simpl. rewrite Hu. reflexivity.
Qed.

Lemma pick_two (w : World) (r1 r2 : Rand) :
  JsObj.wf (waiting_users w) ->
  2 <= getWaitingUserLen w ->
  in_unit_interval r1 -> in_unit_interval r2 ->
  exists k1 k2 u1 u2,
    getRandomPairFromWaitingList r1 r2 w
      = ([Some u1; Some u2], delWaitingUser k2 (delWaitingUser k1 w)) /\
    JsObj.get k1 (waiting_users w) = Some u1 /\
    JsObj.get k2 (waiting_users w) = Some u2 /\
    k1 <> k2.
Proof.
  intros Hwf Hlen Hr1 Hr2.
  unfold getWaitingUserLen in Hlen.
  set (ids := JsObj.keys (waiting_users w)) in *.
  destruct (pick_spec r1 ids [] w Hr1) as (i1 & k1 & u1 & Hi1 & Hu1 & Hp1);
    [lia|trivial|].
  change ([] ++ [Some u1]) with [Some u1] in Hp1.
  destruct (NoDup_lookup_delete ids i1 k1 Hwf Hi1) as [Hk1 Hnd1].
  assert (Hlen1 : S (length (delete i1 ids)) = length ids).
  { rewrite length_delete by eauto. lia. }
  destruct (pick_spec r2 (delete i1 ids) [Some u1] (delWaitingUser k1 w) Hr2)
    as (i2 & k2 & u2 & Hi2 & Hu2 & Hp2); [lia| |].
  { intros k Hk. simpl. apply JsObjFacts.elem_keys_del. split.
    - eapply list_elem_of_delete_inv; eassumption.
    - intros ->. exact (Hk1 Hk). }
  assert (Hk2 : k2 ∈ delete i1 ids) by (eapply list_elem_of_lookup_2; eassumption).
  assert (Hne : k1 <> k2) by (intros ->; exact (Hk1 Hk2)).
  simpl in Hu2. rewrite JsObjFacts.get_del_ne in Hu2 by assumption.
  exists k1, k2, u1, u2. repeat split; try assumption.
  unfold getRandomPairFromWaitingList. fold ids. rewrite Hp1, Hp2.
  reflexivity.
Qed.

(** C1. With at least two waiting users, [getRandomPairFromWaitingList]
    returns two distinct users (distinct objects with distinct derived
    ids), both of them are gone from the waiting map afterwards, and the
    size of the waiting map has gone down by exactly 2; nothing else in the
    cache changes. *)
Theorem getRandomPairFromWaitingList_two_distinct (w : World) (r1 r2 : Rand) :
  JsObj.wf (waiting_users w) ->
  (forall k l, JsObj.get k (waiting_users w) = Some l ->
               emailOrLoginId (deref w l) = k) ->
  2 <= getWaitingUserLen w ->
  in_unit_interval r1 -> in_unit_interval r2 ->
  exists k1 k2 u1 u2 w',
    getRandomPairFromWaitingList r1 r2 w = ([Some u1; Some u2], w') /\
    JsObj.get k1 (waiting_users w) = Some u1 /\
    JsObj.get k2 (waiting_users w) = Some u2 /\
    u1 <> u2 /\
    emailOrLoginId (deref w u1) <> emailOrLoginId (deref w u2) /\
    JsObj.get k1 (waiting_users w') = None /\
    JsObj.get k2 (waiting_users w') = None /\
    getWaitingUserLen w' + 2 = getWaitingUserLen w /\
    waiting_users w' = JsObj.del k2 (JsObj.del k1 (waiting_users w)) /\
    heap w' = heap w /\ active_users w' = active_users w /\
    chats w' = chats w /\ store w' = store w.
Proof.
  intros Hwf Hkey Hlen Hr1 Hr2.
  destruct (pick_two w r1 r2 Hwf Hlen Hr1 Hr2)
    as (k1 & k2 & u1 & u2 & Hrun & Hu1 & Hu2 & Hne).
  assert (Hid : emailOrLoginId (deref w u1) <> emailOrLoginId (deref w u2)).
  { rewrite (Hkey _ _ Hu1), (Hkey _ _ Hu2). exact Hne. }
  exists k1, k2, u1, u2, (delWaitingUser k2 (delWaitingUser k1 w)).
  repeat split; try assumption; try reflexivity.
  - intros ->. apply Hid. reflexivity.
  - simpl. rewrite JsObjFacts.get_del_ne by congruence.
    apply JsObjFacts.get_del_eq.
  - simpl. apply JsObjFacts.get_del_eq.
  - unfold getWaitingUserLen, JsObj.keys. simpl. rewrite !List.length_map.
    pose proof (JsObjFacts.length_del k1 (waiting_users w) Hwf) as H1.
    pose proof (JsObjFacts.length_del k2 (JsObj.del k1 (waiting_users w))
                  (JsObjFacts.wf_del k1 _ Hwf)) as H2.
    rewrite <- H1 by (eapply JsObjFacts.get_elem_keys; eassumption).
    rewrite <- H2; [lia|].
    apply JsObjFacts.elem_keys_del. split; [|assumption].
    eapply JsObjFacts.get_elem_keys; eassumption.
Qed.

Lemma getRandomPairFromWaitingList_two_distinct_witness :
  exists k1 k2 u1 u2 w',
    getRandomPairFromWaitingList rand0 rand0 world_two_waiting
      = ([Some u1; Some u2], w') /\
    JsObj.get k1 (waiting_users world_two_waiting) = Some u1 /\
    JsObj.get k2 (waiting_users world_two_waiting) = Some u2 /\
    u1 <> u2 /\
    emailOrLoginId (deref world_two_waiting u1)
      <> emailOrLoginId (deref world_two_waiting u2) /\
    JsObj.get k1 (waiting_users w') = None /\
    JsObj.get k2 (waiting_users w') = None /\
    getWaitingUserLen w' + 2 = getWaitingUserLen world_two_waiting /\
    waiting_users w'
      = JsObj.del k2 (JsObj.del k1 (waiting_users world_two_waiting)) /\
    heap w' = heap world_two_waiting /\
    active_users w' = active_users world_two_waiting /\
    chats w' = chats world_two_waiting /\ store w' = store world_two_waiting.
Proof.
  apply (getRandomPairFromWaitingList_two_distinct world_two_waiting rand0 rand0).
  - vm_compute. repeat constructor; rewrite ?elem_of_cons, ?elem_of_nil;
      intuition discriminate.
  - apply JsObjFacts.get_Forall. repeat constructor.
  - vm_compute. lia.
  - vm_compute. lia.
  - vm_compute. lia.
Defined.

(** ** Session registry *)

Lemma deref_alloc (w : World) (u : User) :
  deref (set_heap (heap w ++ [u]) w) (length (heap w)) = u.
Proof. unfold deref. simpl. apply List.nth_middle. Qed.

Lemma deref_alloc_old (w : World) (u : User) (l : loc) :
  l < length (heap w) -> deref (set_heap (heap w ++ [u]) w) l = deref w l.
Proof. intros Hl. unfold deref. simpl. apply List.app_nth1. exact Hl. Qed.

(** C7 (as the code has it). For a derived id (the email if there is one,
    else the login id) other than [__proto__], [addToWaitingList] always
    returns normally: it stores a new waiting-user record under the derived
    id, replacing whatever record was stored under that id; the other
    entries and the rest of the cache are left alone. *)
Theorem addToWaitingList_inserts_or_replaces
    (w : World) (lid : string) (e : option string) (socket : Socket) :
  let key := match e with Some e' => e' | None => lid end in
  let user := length (heap w) in
  key <> "__proto__" ->
  exists w',
    addToWaitingList lid e socket w = (Ok tt, w') /\
    JsObj.get key (waiting_users w') = Some user /\
    deref w' user =
      {| user_id := None; email := e; loginId := lid;
         socketConnections := [socket]; socketIds := [socket_id socket];
         currentChatId := None; chatIds := [] |} /\
    emailOrLoginId (deref w' user) = key /\
    (forall k, k <> key ->
       JsObj.get k (waiting_users w') = JsObj.get k (waiting_users w)) /\
    (forall l, l < length (heap w) -> deref w' l = deref w l) /\
    active_users w' = active_users w /\ chats w' = chats w /\
    store w' = store w.
Proof.
  intros key user Hkey. eexists. split; [reflexivity|]. simpl. fold key.
  rewrite (JsObjFacts.assign_set key _ _ Hkey).
  repeat split.
  - apply JsObjFacts.get_set_eq.
  - rewrite deref_set_waiting_users. apply deref_alloc.
  - rewrite deref_set_waiting_users, deref_alloc. unfold emailOrLoginId. simpl.
    subst key. destruct e; reflexivity.
  - intros k Hk. apply JsObjFacts.get_set_ne. intros Heq. apply Hk.
    symmetry. exact Heq.
  - intros l Hl. rewrite deref_set_waiting_users. apply deref_alloc_old, Hl.
Qed.

Lemma addToWaitingList_inserts_or_replaces_witness :
  exists w',
    addToWaitingList "L2" None (sock "s9") world_two_waiting = (Ok tt, w') /\
    JsObj.get "L2" (waiting_users w') = Some 2 /\
    JsObj.keys (waiting_users w') = ["a@x"; "L2"].
Proof.
  destruct (addToWaitingList_inserts_or_replaces world_two_waiting "L2" None
              (sock "s9")) as (w' & Hrun & Hget & _); [discriminate|].
  exists w'. split; [exact Hrun|]. split; [exact Hget|].
  remember (addToWaitingList "L2" None (sock "s9") world_two_waiting) as R
    eqn:E.
  vm_compute in E. subst R. injection Hrun as <-. reflexivity.
Defined.

(** Counterexample to C7 as stated: adding a user whose derived id is
    already in the waiting map returns normally. *)
Lemma addToWaitingList_present_no_error :
  ~ spec_addToWaitingList_rejects_present.
Proof.
  intros Hspec.
  destruct (Hspec world_two_waiting "L2" None (sock "s9")) as (exn & w' & H).
  - vm_compute. discriminate.
  - vm_compute in H. discriminate.
Qed.

(** C10. [getChatsCount] returns the length of the chat-id list of the
    active user its argument resolves to, and faults with a [TypeError]
    (a property read on [null]) when the argument resolves to no active
    user; it never changes the world. *)
Theorem getChatsCount_total_only_on_active (w : World) (id : string) :
  (forall user, getActiveUser (SearchString id) w = Some user ->
     getChatsCount id w = (Ok (length (chatIds (deref w user))), w)) /\
  (getActiveUser (SearchString id) w = None ->
     getChatsCount id w = (Throw TypeError, w)).
Proof.
  unfold getChatsCount. split.
  - intros user ->. reflexivity.
  - intros ->. reflexivity.
Qed.

Lemma getChatsCount_total_only_on_active_witness :
  getChatsCount "a@x" world_chat = (Ok 1, world_chat) /\
  getChatsCount "nobody" world_chat = (Throw TypeError, world_chat).
Proof.
  split.
  - apply (proj1 (getChatsCount_total_only_on_active world_chat "a@x") 0).
    reflexivity.
  - apply (proj2 (getChatsCount_total_only_on_active world_chat "nobody")).
    reflexivity.
Defined.

(** ** Message lifecycle *)

(** X20. When the sender id resolves to no active user, or [chats[chatId]]
    is [undefined] - the chat id is no key of the chats map and no property
    name of [Object.prototype] - [addMessage] returns [null] and leaves the
    whole world (store and cache) as it was. *)
Theorem addMessage_not_found (w : World) (chatId : string) (p : MessagePayload) :
  getActiveUser (SearchString (p_senderId p)) w = None \/ getChat chatId w = None ->
  addMessage chatId p w = (Ok None, w).
Proof.
  intros H. unfold addMessage. run_M.
  destruct (getActiveUser (SearchString (p_senderId p)) w) as [sender|];
    [|reflexivity].
  destruct H as [H|H]; [discriminate|]. rewrite H. reflexivity.
Qed.

Lemma addMessage_not_found_witness :
  (getActiveUser (SearchString (p_senderId (hello "nobody"))) world_chat = None \/
   getChat chat0 world_chat = None) /\
  addMessage chat0 (hello "nobody") world_chat = (Ok None, world_chat) /\
  (getActiveUser (SearchString (p_senderId (hello "a@x"))) world_chat = None \/
   getChat "no such chat" world_chat = None) /\
  addMessage "no such chat" (hello "a@x") world_chat = (Ok None, world_chat).
Proof.
  assert (H1 : getActiveUser (SearchString (p_senderId (hello "nobody")))
                 world_chat = None \/ getChat chat0 world_chat = None)
    by (left; reflexivity).
  assert (H2 : getActiveUser (SearchString (p_senderId (hello "a@x")))
                 world_chat = None \/ getChat "no such chat" world_chat = None)
    by (right; reflexivity).
  split; [exact H1|].
  split; [exact (addMessage_not_found world_chat chat0 (hello "nobody") H1)|].
  split; [exact H2|].
  exact (addMessage_not_found world_chat "no such chat" (hello "a@x") H2).
Defined.

(** C4 (what the code does). The guard [!chats[chatId]] reads the chats map
    through its prototype.  For the chat id ["constructor"], which is no key
    of the chats map, and an active sender, [addMessage] does not return
    [null]: it creates the message record in the store and then throws,
    with the cache as before. *)
Theorem addMessage_inherited_chat_id :
  JsObj.get "constructor" (chats world_chat) = None /\
  getActiveUser (SearchString "a@x") world_chat = Some 0 /\
  exists exn w',
    addMessage "constructor" (hello "a@x") world_chat = (Throw exn, w') /\
    length (Messages (store w')) = S (length (Messages (store world_chat))) /\
    cache w' = cache world_chat.
Proof.
  split; [reflexivity|]. split; [reflexivity|].
  exists TypeError. eexists. split; [vm_compute; reflexivity|].
  split; reflexivity.
Qed.

(** X21. [editMessage] returns [false] and changes nothing when
    [chats[chatId]] is [undefined], and when the chat is cached and
    [messages[id]] is [undefined] (the id is no key of the message map and
    no property name of [Object.prototype]); when the chat and the message
    are cached and the store update fails it returns [false] and the cache
    (hence the cached message's text) and the store are as before. *)
Theorem editMessage_failures (w : World) (chatId : string) (e : MessageEdit) :
  (getChat chatId w = None -> editMessage chatId e w = (Ok false, w)) /\
  (forall c, getChat chatId w = Some (JsObj.Own c) ->
     JsObj.read (e_id e) (messages c) = None ->
     editMessage chatId e w = (Ok false, w)) /\
  (forall c m fs, getChat chatId w = Some (JsObj.Own c) ->
     JsObj.get (e_id e) (messages c) = Some m ->
     faults w = true :: fs ->
     exists w', editMessage chatId e w = (Ok false, w') /\
                cache w' = cache w /\ store w' = store w /\
                (exists c', getChat chatId w' = Some (JsObj.Own c') /\
                   JsObj.get (e_id e) (messages c') = Some m)).
Proof.
  unfold editMessage. run_M. repeat split.
  - intros ->. reflexivity.
  - intros c -> ->. reflexivity.
  - intros c m fs Hc Hm Hf. rewrite Hc.
    rewrite (proj2 (JsObjFacts.read_Own _ _ _) Hm).
    unfold try_catch, Message_updateOne, store_call. run_M. rewrite Hf.
    eexists. split; [reflexivity|]. repeat split.
    exists c. split; assumption.
Qed.

Lemma editMessage_failures_witness :
  editMessage "no such chat" {| e_id := message0; e_message := "bye" |}
    world_message = (Ok false, world_message) /\
  editMessage chat0 {| e_id := "no such message"; e_message := "bye" |}
    world_message = (Ok false, world_message) /\
  exists w', editMessage chat0 {| e_id := message0; e_message := "bye" |}
               world_store_down = (Ok false, w') /\
             cache w' = cache world_store_down.
Proof.
  pose proof (editMessage_failures world_message "no such chat"
                {| e_id := message0; e_message := "bye" |}) as (H1 & _ & _).
  pose proof (editMessage_failures world_message chat0
                {| e_id := "no such message"; e_message := "bye" |})
    as (_ & H2 & _).
  pose proof (editMessage_failures world_store_down chat0
                {| e_id := message0; e_message := "bye" |}) as (_ & _ & H3).
  split; [apply H1; reflexivity|].
  split; [eapply H2; reflexivity|].
  edestruct H3 as (w' & Hw & Hc & _); [reflexivity..|].
  exists w'. split; assumption.
Defined.

(** C6 (what the code does). The guards of [editMessage] read through the
    prototype and stand before the [try].  For the chat id ["constructor"],
    which is no key of the chats map, [editMessage] does not return
    [false]: reading [messages[id]] of the inherited member throws a
    [TypeError]. *)
Theorem editMessage_inherited_chat_id :
  JsObj.get "constructor" (chats world_message) = None /\
  editMessage "constructor" {| e_id := message0; e_message := "bye" |}
    world_message = (Throw TypeError, world_message).
Proof. split; reflexivity. Qed.

Lemma store_call_ok (n : nat) (w : World) :
  store_ok (S n) (faults w) ->
  store_call w = (Ok tt, set_faults (tail (faults w)) w) /\
  store_ok n (tail (faults w)).
Proof.
  unfold store_call. destruct (faults w) as [|[] fs]; simpl.
  - intros _. split; [reflexivity|]. destruct n; exact I.
  - intros [? _]. discriminate.
  - intros [_ H]. split; [reflexivity|exact H].
Qed.

(** X22. A successful [addMessage] - sender resolved, chat cached, both
    store calls successful - creates the message record with the caller's
    time and, as its sender, the sender's persisted identity (a new
    [ObjectId] when the sender has none), appends the new message id to the
    chat's store record, and puts the message into the chat's cached message
    map under the new id; the cached message, which is also the result,
    carries the [senderId] the caller passed. *)
Theorem addMessage_success (w : World) (chatId : string) (p : MessagePayload)
    (sender : loc) (c : Chat) :
  getActiveUser (SearchString (p_senderId p)) w = Some sender ->
  getChat chatId w = Some (JsObj.Own c) ->
  store_ok 2 (faults w) ->
  let sender_oid :=
    match user_id (deref w sender) with
    | Some pid => pid
    | None => ObjectId_toString (next_oid w)
    end in
  let mid :=
    ObjectId_toString
      (match user_id (deref w sender) with
       | Some _ => next_oid w
       | None => N.succ (next_oid w)
       end) in
  let ty := match p_type p with Some ty => ty | None => message_type end in
  let m := {| msg_id := mid; message := p_message p; senderId := p_senderId p;
              time := p_time p; type := ty |} in
  exists w',
    addMessage chatId p w = (Ok (Some m), w') /\
    Messages (store w') =
      Messages (store w) ++
        [{| md_id := mid; md_message := p_message p; md_sender := sender_oid;
            md_type := ty; md_createdAt := p_time p |}] /\
    Chats (store w') = map (pushed chatId mid) (Chats (store w)) /\
    ActiveUsers (store w') = ActiveUsers (store w) /\
    getChat chatId w' =
      Some (JsObj.Own (with_messages c (JsObj.set mid m (messages c)))) /\
    (forall k, k <> chatId -> getChat k w' = getChat k w) /\
    heap w' = heap w /\ waiting_users w' = waiting_users w /\
    active_users w' = active_users w.
Proof.
  intros Hsender Hchat Hok.
  pose proof (proj1 (getChat_Own _ _ _) Hchat) as Hget.
  destruct (user_id (deref w sender)) as [pid|] eqn:Hpid;
    intros sender_oid mid ty m; cbv iota in sender_oid, mid;
    subst sender_oid.
  - destruct (store_call_ok 1 w Hok) as [Hc1 Hok1].
    set (w1 := set_faults (tail (faults w)) w) in *.
    set (w2 := set_store
                 {| ActiveUsers := ActiveUsers (store w);
                    Chats := Chats (store w);
                    Messages := Messages (store w) ++
                      [{| md_id := mid; md_message := p_message p;
                          md_sender := pid; md_type := ty;
                          md_createdAt := p_time p |}] |}
                 (set_next_oid (N.succ (next_oid w)) w1)).
    destruct (store_call_ok 0 w2 Hok1) as [Hc2 _].
    eexists. split.
    + unfold addMessage, Message_create, Chat_push_message, update_messages.
      run_M. rewrite Hsender, Hchat, Hpid. simpl. rewrite Hc1. simpl.
      fold mid ty. fold w2. rewrite Hc2. simpl.
      unfold getChat, JsObj.read. simpl. rewrite Hget. simpl. reflexivity.
    + simpl. repeat split.
      * apply getChat_Own. simpl. apply JsObjFacts.get_set_eq.
      * intros k Hk. apply getChat_ext. simpl. apply JsObjFacts.get_set_ne.
        congruence.
  - set (w0 := set_next_oid (N.succ (next_oid w)) w).
    destruct (store_call_ok 1 w0 Hok) as [Hc1 Hok1].
    set (w1 := set_faults (tail (faults w0)) w0) in *.
    set (w2 := set_store
                 {| ActiveUsers := ActiveUsers (store w);
                    Chats := Chats (store w);
                    Messages := Messages (store w) ++
                      [{| md_id := mid; md_message := p_message p;
                          md_sender := ObjectId_toString (next_oid w);
                          md_type := ty; md_createdAt := p_time p |}] |}
                 (set_next_oid (N.succ (N.succ (next_oid w))) w1)).
    destruct (store_call_ok 0 w2 Hok1) as [Hc2 _].
    eexists. split.
    + unfold addMessage, Message_create, Chat_push_message, update_messages,
        ObjectId_of, new_ObjectId.
      run_M. rewrite Hsender, Hchat, Hpid. simpl. fold w0. rewrite Hc1. simpl.
      fold mid ty. fold w2. rewrite Hc2. simpl.
      unfold getChat, JsObj.read. simpl. rewrite Hget. simpl. reflexivity.
    + simpl. repeat split.
      * apply getChat_Own. simpl. apply JsObjFacts.get_set_eq.
      * intros k Hk. apply getChat_ext. simpl. apply JsObjFacts.get_set_ne.
        congruence.
Qed.

Lemma addMessage_success_witness :
  exists w',
    addMessage chat0 (hello "L1") world_chat =
      (Ok (Some {| msg_id := message0; message := "hi"; senderId := "L1";
                   time := 5; type := message_type |}), w') /\
    map md_sender (Messages (store w')) = ["000000000000000000000001"] /\
    map cd_messages (Chats (store w')) = [[message0]].
Proof.
  destruct (addMessage_success world_chat chat0 (hello "L1") 0
              {| chat_id := chat0; userIds := ["a@x"; "L2"]; messages := [];
                 createdAt := 0 |})
    as (w' & Hrun & Hmsgs & Hchats & _); [reflexivity..|exact I|].
  exists w'. split; [exact Hrun|]. rewrite Hmsgs, Hchats. split; reflexivity.
Defined.

(** C5 (what the code does). [addMessage] spreads the caller's [senderId]
    into the cached message.  The active user with email ["a@x"] and login
    id ["L1"] is found by ["L1"]; its message is cached, and returned, with
    the sender id ["L1"], not with its derived id ["a@x"].  [init] annotates
    the same message, loaded back from the store, with ["a@x"]. *)
Theorem addMessage_annotates_with_the_callers_id :
  getActiveUser (SearchString "L1") world_chat = Some 0 /\
  emailOrLoginId (deref world_chat 0) = "a@x" /\
  exists m w',
    addMessage chat0 (hello "L1") world_chat = (Ok (Some m), w') /\
    senderId m = "L1" /\
    (exists c, getChat chat0 w' = Some (JsObj.Own c) /\
               JsObj.get (msg_id m) (messages c) = Some m) /\
    exists w'' c',
      init (set_store (store w') empty_world) = (Ok tt, w'') /\
      getChat chat0 w'' = Some (JsObj.Own c') /\
      map senderId (JsObj.values (messages c')) = ["a@x"].
Proof.
  split; [reflexivity|]. split; [reflexivity|].
  eexists. eexists. split; [vm_compute; reflexivity|].
  split; [reflexivity|]. split.
  - eexists. split; [vm_compute; reflexivity|]. reflexivity.
  - eexists. eexists. split; [vm_compute; reflexivity|].
    split; [vm_compute; reflexivity|]. reflexivity.
Qed.

(** ** Bootstrap *)

Lemma init_messages_resolved (ms : list PopulatedMessage) (msgs : JsObj.t Message) :
  Forall sender_resolved ms ->
  init_messages ms msgs = Some (cached_messages ms msgs).
Proof.
  intros H. revert msgs.
  induction H as [|m ms Hm _ IH]; intros msgs; simpl; [reflexivity|].
  unfold sender_resolved in Hm. unfold cached_messages. simpl.
  unfold cached_message at 2.
  destruct (pm_sender m) as [sender|]; [|congruence]. apply IH.
Qed.

Lemma init_messages_unresolved (ms : list PopulatedMessage) (msgs : JsObj.t Message) :
  ~ Forall sender_resolved ms -> init_messages ms msgs = None.
Proof.
  revert msgs. induction ms as [|m ms IH]; intros msgs Hn; simpl.
  - exfalso. apply Hn. constructor.
  - destruct (pm_sender m) as [sender|] eqn:Hs; [|reflexivity].
    apply IH. intros Hall. apply Hn. constructor; [|exact Hall].
    unfold sender_resolved. congruence.
Qed.

Lemma init_chats_stops (pre post : list PopulatedChat) (bad : PopulatedChat)
    (w : World) :
  Forall (fun c => Forall sender_resolved (pc_messages c)) pre ->
  ~ Forall sender_resolved (pc_messages bad) ->
  init_chats (pre ++ bad :: post) w
    = (Ok false, set_chats (load_chats pre (chats w)) w).
Proof.
  intros Hpre Hbad. revert w.
  induction Hpre as [|c pre Hc _ IH]; intros w; simpl.
  - rewrite (init_messages_unresolved _ _ Hbad). destruct w; reflexivity.
  - rewrite (init_messages_resolved _ _ Hc). run_M. rewrite IH. reflexivity.
Qed.

(** C8 (as the code has it). When a message of some persisted chat has an
    unresolved sender, [init] returns at that chat: the chats that precede
    it in the store's order are in the chats map, nothing is loaded for the
    chat itself or for the chats after it, and the active-users map is not
    populated. *)
Theorem init_returns_at_unresolved_sender (w : World)
    (pre post : list PopulatedChat) (bad : PopulatedChat) :
  store_ok 1 (faults w) ->
  populated_chats w = pre ++ bad :: post ->
  Forall (fun c => Forall sender_resolved (pc_messages c)) pre ->
  ~ Forall sender_resolved (pc_messages bad) ->
  exists w',
    init w = (Ok tt, w') /\
    chats w' = load_chats pre (chats w) /\
    active_users w' = active_users w /\
    heap w' = heap w /\
    waiting_users w' = waiting_users w /\
    store w' = store w.
Proof.
  intros Hok Hpop Hpre Hbad.
  destruct (store_call_ok 0 w Hok) as [Hcall _].
  unfold populated_chats in Hpop.
  eexists. split.
  - unfold init, Chat_find_populated. run_M. rewrite Hcall. simpl.
    rewrite Hpop, (init_chats_stops pre post bad _ Hpre Hbad). reflexivity.
  - repeat split.
Qed.

Lemma init_returns_at_unresolved_sender_witness :
  exists w',
    init world_orphan_last = (Ok tt, w') /\
    JsObj.keys (chats w') = ["c2"] /\
    active_users w' = [].
Proof.
  destruct (init_returns_at_unresolved_sender world_orphan_last
              [populate_chat (store world_orphan_last)
                 {| cd_id := "c2"; cd_users := ["u1"]; cd_messages := [];
                    cd_createdAt := 2 |}]
              []
              (populate_chat (store world_orphan_last)
                 {| cd_id := "c1"; cd_users := ["u1"]; cd_messages := ["m1"];
                    cd_createdAt := 1 |}))
    as (w' & Hrun & Hchats & Hactive & _).
  - exact I.
  - reflexivity.
  - repeat constructor.
  - intros H. apply Forall_cons in H as [H _]. apply H. reflexivity.
  - exists w'. split; [exact Hrun|]. rewrite Hchats, Hactive.
    split; reflexivity.
Defined.

(** Counterexample to C8 as stated: with the unresolved sender in the first
    chat, the sound second chat is not loaded and no active user is
    populated. *)
Lemma init_unresolved_sender_skips_the_rest :
  ~ spec_init_aborts_only_that_chat.
Proof.
  intros Hspec.
  destruct (Hspec world_orphan (exec init world_orphan) eq_refl eq_refl)
    as [_ Husers].
  - exists (populate_chat store_orphan
              {| cd_id := "c1"; cd_users := ["u1"]; cd_messages := ["m1"];
                 cd_createdAt := 1 |}).
    split.
    + apply elem_of_cons. left. reflexivity.
    + intros H. apply Forall_cons in H as [H _]. apply H. reflexivity.
  - specialize (Husers {| au_id := "u1"; au_email := None; au_loginId := "L1";
                          au_currentChat := Some "c2" |}).
    vm_compute in Husers.
    assert (Hin : {| au_id := "u1"; au_email := None; au_loginId := "L1";
                     au_currentChat := Some "c2" |} ∈ ActiveUsers store_orphan).
    { apply elem_of_cons. left. reflexivity. }
    specialize (Husers Hin). discriminate.
Qed.

(** ** Chat lifecycle *)

(** C3, evaluated where the code departs from it.  The chat [chat1] has the
    members "L1" and "L3" and is the only chat of both, so both are expected
    to be deactivated and returned.  [closeChat] looks the member "L1" up
    with [getActiveUser], which stops at the first active user whose login
    id is "L1" - a user of the other chat.  The member's own record is
    neither returned nor removed from the active map, and keeps the closed
    chat as its current chat. *)
Theorem closeChat_misses_member_with_shared_login :
  getChat chat1 world_shared_login =
    Some (JsObj.Own {| chat_id := chat1; userIds := ["L1"; "L3"];
                       messages := []; createdAt := 0 |}) /\
  JsObj.get "L1" (active_users world_shared_login) = Some 2 /\
  chatIds (deref world_shared_login 2) = [chat1] /\
  getActiveUser (SearchString "L1") world_shared_login = Some 0 /\
  spec_inactive_members chat1 world_shared_login = ["L1"; "L3"] /\
  exists w',
    closeChat chat1 world_shared_login = (Ok (Some ["L3"]), w') /\
    getChat chat1 w' = None /\
    JsObj.get "L1" (active_users w') = Some 2 /\
    chatIds (deref w' 2) = [chat1] /\
    currentChatId (deref w' 2) = Some chat1.
Proof.
  repeat split.
  eexists. split; [vm_compute; reflexivity|]. repeat split.
Qed.

(** *** User objects under update *)

Lemma deref_lookup (w : World) (l : loc) (u : User) :
  heap w !! l = Some u -> deref w l = u.
Proof. intros H. unfold deref. rewrite nth_lookup, H. reflexivity. Qed.

Lemma deref_insert_eq (w w' : World) (l : loc) (u : User) :
  heap w' = <[l := u]> (heap w) -> l < length (heap w) -> deref w' l = u.
Proof.
  intros Hh Hl. apply deref_lookup. rewrite Hh.
  apply list_lookup_insert_eq. exact Hl.
Qed.

Lemma deref_insert_ne (w w' : World) (l l' : loc) (u : User) :
  heap w' = <[l := u]> (heap w) -> l <> l' -> deref w' l' = deref w l'.
Proof.
  intros Hh Hne. unfold deref. rewrite !nth_lookup, Hh.
  rewrite list_lookup_insert_ne by exact Hne. reflexivity.
Qed.

Lemma deref_heap (w w' : World) (l : loc) :
  heap w' = heap w -> deref w' l = deref w l.
Proof. intros Hh. unfold deref. rewrite Hh. reflexivity. Qed.

(** An update that keeps [email] and [loginId] keeps every derived id. *)
Lemma emailOrLoginId_update (f : User -> User) (w w' : World) (l l' : loc) :
  (forall x, email (f x) = email x /\ loginId (f x) = loginId x) ->
  heap w' = <[l := f (deref w l)]> (heap w) ->
  emailOrLoginId (deref w' l') = emailOrLoginId (deref w l').
Proof.
  intros Hf Hh.
  destruct (decide (l = l')) as [<-|Hne].
  - destruct (decide (l < length (heap w))) as [Hl|Hl].
    + rewrite (deref_insert_eq w w' l _ Hh Hl). unfold emailOrLoginId.
      destruct (Hf (deref w l)) as [-> ->]. reflexivity.
    + rewrite list_insert_ge in Hh by lia.
      rewrite (deref_heap w w' l Hh). reflexivity.
  - rewrite (deref_insert_ne w w' l l' _ Hh Hne). reflexivity.
Qed.

Lemma joined_chat_keeps_key (chatId id : string) (x : User) :
  email (joined_chat chatId id x) = email x /\
  loginId (joined_chat chatId id x) = loginId x.
Proof. split; reflexivity. Qed.

(** One successful turn of the loop of [createChat]. *)
Lemma createChat_users_cons (n : nat) (chatId : string) (u : loc)
    (rest : list UserRef) (acc : list string) (w : World) :
  store_ok (S n) (faults w) ->
  exists w',
    createChat_users chatId (Some u :: rest) acc w
      = createChat_users chatId rest
          (acc ++ [ObjectId_toString (next_oid w)]) w' /\
    store_ok n (faults w') /\
    heap w' = <[u := joined_chat chatId (ObjectId_toString (next_oid w))
                        (deref w u)]> (heap w) /\
    active_users w' = JsObj.set (emailOrLoginId (deref w u)) u (active_users w) /\
    waiting_users w' = waiting_users w /\
    chats w' = chats w /\
    next_oid w' = N.succ (next_oid w) /\
    clock w' = clock w.
Proof.
  intros Hok. destruct (store_call_ok n w Hok) as [Hcall Hok'].
  eexists. split.
  - simpl. unfold ActiveUser_create, join_all. run_M. rewrite Hcall. simpl.
    reflexivity.
  - simpl. repeat split; try assumption.
    unfold addActiveUser. simpl. f_equal.
    eapply (emailOrLoginId_update
              (joined_chat chatId (ObjectId_toString (next_oid w))) w _ u u).
    + apply joined_chat_keeps_key.
    + reflexivity.
Qed.

(** C2. Two users popped from the waiting pool and handed to [createChat]
    (the three store calls succeeding) are both in the active map
    afterwards, each with a chat-id list of length 1 that holds the new
    chat's id, both with that id as current chat; the chats map has an entry
    under that id whose members are the two users' derived ids, in order. *)
Theorem createChat_pair_from_waiting (w : World) (r1 r2 : Rand) :
  waiting_ok w ->
  2 <= getWaitingUserLen w ->
  in_unit_interval r1 -> in_unit_interval r2 ->
  store_ok 3 (faults w) ->
  exists u1 u2 w1 chat w2,
    getRandomPairFromWaitingList r1 r2 w = ([Some u1; Some u2], w1) /\
    createChat [Some u1; Some u2] w1 = (Ok chat, w2) /\
    u1 <> u2 /\
    JsObj.get (emailOrLoginId (deref w2 u1)) (active_users w2) = Some u1 /\
    JsObj.get (emailOrLoginId (deref w2 u2)) (active_users w2) = Some u2 /\
    chatIds (deref w2 u1) = [chat_id chat] /\
    chatIds (deref w2 u2) = [chat_id chat] /\
    length (chatIds (deref w2 u1)) = 1 /\
    length (chatIds (deref w2 u2)) = 1 /\
    currentChatId (deref w2 u1) = Some (chat_id chat) /\
    currentChatId (deref w2 u2) = Some (chat_id chat) /\
    chat_id chat = ObjectId_toString (next_oid w) /\
    JsObj.get (chat_id chat) (chats w2) = Some chat /\
    userIds chat = [emailOrLoginId (deref w2 u1); emailOrLoginId (deref w2 u2)].
Proof.
  intros [Hwf Halloc Hkey Hfresh] Hlen Hr1 Hr2 Hok.
  destruct (pick_two w r1 r2 Hwf Hlen Hr1 Hr2)
    as (k1 & k2 & u1 & u2 & Hrun & Hu1 & Hu2 & Hne).
  assert (Hu : u1 <> u2).
  { intros ->. apply Hne. rewrite <- (Hkey _ _ Hu1), <- (Hkey _ _ Hu2).
    reflexivity. }
  set (w1 := delWaitingUser k2 (delWaitingUser k1 w)) in *.
  set (chatId := ObjectId_toString (next_oid w)).
  set (wa := set_next_oid (N.succ (next_oid w1)) w1).
  destruct (createChat_users_cons 2 chatId u1 [Some u2] [] wa Hok)
    as (wb & Hb & Hokb & Hheapb & Hactb & _ & Hchatsb & _ & _).
  destruct (createChat_users_cons 1 chatId u2 []
              ([] ++ [ObjectId_toString (next_oid wa)]) wb Hokb)
    as (wc & Hc & Hokc & Hheapc & Hactc & _ & Hchatsc & _ & _).
  destruct (store_call_ok 0 wc Hokc) as [Hcall _].
  assert (Hd1 : deref wc u1 = joined_chat chatId (ObjectId_toString (next_oid wa))
                                (deref w u1)).
  { rewrite (deref_insert_ne wb wc u2 u1 _ Hheapc) by congruence.
    apply (deref_insert_eq wa wb u1 _ Hheapb). simpl. eapply Halloc, Hu1. }
  assert (Hd2 : deref wc u2 = joined_chat chatId (ObjectId_toString (next_oid wb))
                                (deref w u2)).
  { rewrite (deref_insert_eq wb wc u2 _ Hheapc).
    - f_equal. apply (deref_insert_ne wa wb u1 u2 _ Hheapb Hu).
    - rewrite Hheapb, length_insert. simpl. eapply Halloc, Hu2. }
  assert (Hk1 : emailOrLoginId (deref wc u1) = k1).
  { rewrite Hd1. rewrite <- (Hkey _ _ Hu1). reflexivity. }
  assert (Hk2 : emailOrLoginId (deref wc u2) = k2).
  { rewrite Hd2. rewrite <- (Hkey _ _ Hu2). reflexivity. }
  assert (Hk2b : emailOrLoginId (deref wb u2) = k2).
  { rewrite (deref_insert_ne wa wb u1 u2 _ Hheapb Hu). apply (Hkey _ _ Hu2). }
  eexists u1, u2, w1, _, _. split; [exact Hrun|]. split.
  { unfold createChat, new_ObjectId at 1. run_M. fold wa. fold chatId.
    rewrite Hb, Hc. simpl. unfold Chat_create. run_M. rewrite Hcall. simpl.
    reflexivity. }
  simpl. autorewrite with world.
  rewrite Hk1, Hk2, Hd1, Hd2. simpl.
  rewrite (Hfresh _ _ Hu1), (Hfresh _ _ Hu2). simpl.
  repeat split; try assumption; try reflexivity.
  - rewrite Hactc, Hk2b. rewrite JsObjFacts.get_set_ne by congruence.
    rewrite Hactb. change (deref wa u1) with (deref w u1).
    rewrite (Hkey _ _ Hu1). apply JsObjFacts.get_set_eq.
  - rewrite Hactc, Hk2b. apply JsObjFacts.get_set_eq.
  - apply JsObjFacts.get_set_eq.
Qed.

Lemma createChat_pair_from_waiting_witness :
  exists u1 u2 w1 chat w2,
    getRandomPairFromWaitingList rand0 rand0 world_two_waiting
      = ([Some u1; Some u2], w1) /\
    createChat [Some u1; Some u2] w1 = (Ok chat, w2) /\
    length (chatIds (deref w2 u1)) = 1 /\
    length (chatIds (deref w2 u2)) = 1 /\
    currentChatId (deref w2 u1) = Some (chat_id chat) /\
    currentChatId (deref w2 u2) = Some (chat_id chat) /\
    JsObj.get (chat_id chat) (chats w2) = Some chat.
Proof.
  destruct (createChat_pair_from_waiting world_two_waiting rand0 rand0)
    as (u1 & u2 & w1 & chat & w2 & H1 & H2 & _ & _ & _ & _ & _ & H3 & H4
        & H5 & H6 & _ & H7 & _).
  - split.
    + vm_compute. repeat constructor; rewrite ?elem_of_cons, ?elem_of_nil;
        intuition discriminate.
    + apply JsObjFacts.get_Forall. repeat constructor.
    + apply JsObjFacts.get_Forall. repeat constructor.
    + apply JsObjFacts.get_Forall. repeat constructor.
  - vm_compute. lia.
  - vm_compute. lia.
  - vm_compute. lia.
  - exact I.
  - exists u1, u2, w1, chat, w2. repeat split; assumption.
Defined.

(** ** Effects of the operations on the two user maps *)

Lemma get_refers (o : JsObj.t loc) (k : string) (l : loc) :
  JsObj.get k o = Some l -> refers o l.
Proof. apply JsObjFacts.get_elem_values. Qed.

Lemma refers_nil (l : loc) : ~ refers [] l.
Proof. unfold refers. simpl. apply not_elem_of_nil. Qed.

Lemma scan_active_refers (w : World) (s : Search) (entries : JsObj.t loc) (l : loc) :
  scan_active w s entries = Some l -> refers entries l.
Proof.
  unfold refers.
  induction entries as [|[k u] entries IH]; simpl; [discriminate|].
  destruct (user_matches s (deref w u)).
  - intros [= ->]. apply elem_of_cons. auto.
  - intros H. apply elem_of_cons. auto.
Qed.

Lemma getActiveUser_refers (w : World) (s : Search) (l : loc) :
  getActiveUser s w = Some l -> refers (active_users w) l.
Proof. apply scan_active_refers. Qed.

Lemma deref_update_user_ne (w : World) (u l : loc) (f : User -> User) :
  u <> l -> deref (update_user u f w) l = deref w l.
Proof. intros Hne. eapply deref_insert_ne; [reflexivity|exact Hne]. Qed.

Lemma shrinks_refl (w : World) : shrinks w w.
Proof. split; auto. Qed.

Lemma shrinks_trans (w1 w2 w3 : World) :
  shrinks w1 w2 -> shrinks w2 w3 -> shrinks w1 w3.
Proof.
  intros [Hw1 Hh1 Hd1 Hr1 Hg1 Hf1 Hk1] [Hw2 Hh2 Hd2 Hr2 Hg2 Hf2 Hk2]. split.
  - congruence.
  - congruence.
  - intros l Hl. rewrite Hd2, Hd1; auto.
  - auto.
  - auto.
  - auto.
  - intros l. rewrite Hk2. apply Hk1.
Qed.

Lemma shrinks_same (w w' : World) :
  heap w' = heap w -> waiting_users w' = waiting_users w ->
  active_users w' = active_users w -> shrinks w w'.
Proof.
  intros Hh Hw Ha. split.
  - exact Hw.
  - rewrite Hh. reflexivity.
  - intros l _. apply deref_heap. exact Hh.
  - rewrite Ha. trivial.
  - rewrite Ha. trivial.
  - rewrite Ha. trivial.
  - intros l. rewrite (deref_heap w w' l Hh). reflexivity.
Qed.

Lemma keeps_identity_key (f : User -> User) (u l : loc) (w : World) :
  keeps_identity f ->
  emailOrLoginId (deref (update_user u f w) l) = emailOrLoginId (deref w l).
Proof.
  intros Hf. apply (emailOrLoginId_update f w _ u l); [|reflexivity].
  intros x. destruct (Hf x) as (_ & He & Hl). auto.
Qed.

Lemma joined_chat_keeps (chatId id : string) : keeps_identity (joined_chat chatId id).
Proof. intros x. repeat split. Qed.

Lemma left_chat_keeps (chatId : string) : keeps_identity (left_chat chatId).
Proof. intros x. repeat split. Qed.

Lemma no_current_chat_keeps : keeps_identity no_current_chat.
Proof. intros x. repeat split. Qed.

Lemma shrinks_update (u : loc) (f : User -> User) (w : World) :
  keeps_identity f ->
  refers (active_users w) u -> shrinks w (update_user u f w).
Proof.
  intros Hf Hu. split; simpl; auto.
  - apply length_insert.
  - intros l Hl. apply deref_update_user_ne. intros ->. exact (Hl Hu).
  - intros l. apply keeps_identity_key, Hf.
Qed.

Lemma shrinks_del (k : string) (w : World) :
  shrinks w (set_active_users (JsObj.del k (active_users w)) w).
Proof.
  split; simpl; auto.
  - intros l. apply JsObjFacts.elem_values_del.
  - intros k' l. apply JsObjFacts.get_del_Some.
  - apply JsObjFacts.wf_del.
Qed.

Ltac store_cases :=
  unfold store_call; simpl;
  match goal with
  | |- context [match faults ?w with _ => _ end] =>
      destruct (faults w) as [|[] ?]; simpl
  end.

Lemma shrinks_delActiveUser (user : loc) (w : World) :
  shrinks w (snd (delActiveUser user w)).
Proof.
  unfold delActiveUser, ActiveUser_deleteOne. run_M.
  store_cases;
    (eapply shrinks_trans; [apply shrinks_del|apply shrinks_same; reflexivity]).
Qed.

Lemma shrinks_closeChat_members (chatId : string) (members inactiveList : list string)
    (w : World) :
  shrinks w (snd (closeChat_members chatId members inactiveList w)).
Proof.
  revert inactiveList w.
  induction members as [|userId rest IH]; intros inactiveList w; simpl.
  - apply shrinks_refl.
  - run_M.
    destruct (getActiveUser (SearchString userId) w) as [user|] eqn:Huser;
      [|apply IH].
    apply getActiveUser_refers in Huser.
    pose proof (shrinks_update user (left_chat chatId) w
                  (left_chat_keeps chatId) Huser) as H1.
    unfold Chat_deleteOne. run_M. unfold store_call. simpl.
    destruct (faults w) as [|[] fs]; simpl;
      [| eapply shrinks_trans; [exact H1|apply shrinks_same; reflexivity] |].
    all: match goal with
         | |- shrinks _ (let (_, _) := getChatsCount _ ?w2 in _).2 =>
             set (w2' := w2);
             assert (H2 : shrinks w w2')
               by (eapply shrinks_trans;
                   [exact H1|apply shrinks_same; reflexivity]);
             assert (Hu2 : refers (active_users w2') user) by exact Huser
         end.
    all: unfold getChatsCount;
      destruct (getActiveUser (SearchString userId) w2') as [user'|]; simpl;
      [|exact H2].
    all: destruct (Nat.eqb _ 0);
      [|eapply shrinks_trans; [exact H2|apply IH]].
    all: pose proof (shrinks_update user no_current_chat w2'
                       no_current_chat_keeps Hu2) as H3.
    all: pose proof (shrinks_delActiveUser user
                       (update_user user no_current_chat w2')) as H4.
    all: destruct (delActiveUser user (update_user user no_current_chat w2'))
           as [[[]|e] w4]; simpl in H4 |- *.
    all: repeat (eapply shrinks_trans; [eassumption|]);
      first [apply IH | apply shrinks_refl].
Qed.

Lemma shrinks_closeChat (chatId : string) (w : World) :
  shrinks w (snd (closeChat chatId w)).
Proof.
  unfold closeChat, Chat_deleteOne, Message_deleteMany. run_M.
  unfold store_call. simpl.
  destruct (faults w) as [|[] fs]; simpl;
    [| apply shrinks_same; reflexivity |].
  all: match goal with
       | |- context [getChat ?c ?w1] =>
           destruct (getChat c w1) as [[chat|]|]; simpl;
           [|apply shrinks_same; reflexivity..]
       end.
  2: destruct fs as [|[] fs]; simpl; [| apply shrinks_same; reflexivity |].
  all: match goal with
       | |- context [closeChat_members ?c ?ms ?acc ?w2] =>
           pose proof (shrinks_closeChat_members c ms acc w2) as H;
           destruct (closeChat_members c ms acc w2) as [[l|e] w3];
           simpl in H |- *
       end.
  all: match type of H with
       | shrinks ?wa ?wb =>
           apply (shrinks_trans _ wa); [apply shrinks_same; reflexivity|];
           apply (shrinks_trans _ wb); [exact H|apply shrinks_same; reflexivity]
       end.
Qed.

Lemma grows_refl (users : list UserRef) (w : World) : grows_by users w w.
Proof. split; auto. Qed.

Lemma grows_trans (users : list UserRef) (w1 w2 w3 : World) :
  grows_by users w1 w2 -> grows_by users w2 w3 -> grows_by users w1 w3.
Proof.
  intros [Hw1 Hh1 Hd1 Hr1 Hg1 Hf1 Hk1] [Hw2 Hh2 Hd2 Hr2 Hg2 Hf2 Hk2]. split.
  - congruence.
  - congruence.
  - intros l Hl. rewrite Hd2, Hd1; auto.
  - intros l Hl. destruct (Hr2 l Hl); auto.
  - intros k l Hl. destruct (Hg2 k l Hl) as [H|H]; [auto|].
    right. rewrite <- Hk1. exact H.
  - auto.
  - intros l. rewrite Hk2. apply Hk1.
Qed.

Lemma grows_same (users : list UserRef) (w w' : World) :
  heap w' = heap w -> waiting_users w' = waiting_users w ->
  active_users w' = active_users w -> grows_by users w w'.
Proof.
  intros Hh Hw Ha. split.
  - exact Hw.
  - rewrite Hh. reflexivity.
  - intros l _. apply deref_heap. exact Hh.
  - rewrite Ha. auto.
  - rewrite Ha. auto.
  - rewrite Ha. trivial.
  - intros l. rewrite (deref_heap w w' l Hh). reflexivity.
Qed.

Lemma grows_update (users : list UserRef) (u : loc) (f : User -> User) (w : World) :
  keeps_identity f ->
  Some u ∈ users -> grows_by users w (update_user u f w).
Proof.
  intros Hf Hu. split; simpl; auto.
  - apply length_insert.
  - intros l Hl. apply deref_update_user_ne. intros ->. exact (Hl Hu).
  - intros l. apply keeps_identity_key, Hf.
Qed.

Lemma grows_addActiveUser (users : list UserRef) (u : loc) (w : World) :
  Some u ∈ users -> grows_by users w (addActiveUser u w).
Proof.
  intros Hu. split; simpl; auto.
  - intros l Hl. apply JsObjFacts.elem_values_set in Hl as [->|Hl]; auto.
  - intros k l Hl. apply JsObjFacts.get_set_Some in Hl as [[-> ->]|Hl]; auto.
  - apply JsObjFacts.wf_set.
Qed.

Lemma grows_createChat_users (all : list UserRef) (chatId : string)
    (users : list UserRef) (acc : list string) (w : World) :
  (forall x, x ∈ users -> x ∈ all) ->
  grows_by all w (snd (createChat_users chatId users acc w)).
Proof.
  revert acc w.
  induction users as [|[u|] rest IH]; intros acc w Hall; simpl.
  - apply grows_refl.
  - unfold ActiveUser_create, join_all. run_M. unfold store_call. simpl.
    assert (Hu : Some u ∈ all) by (apply Hall, elem_of_cons; auto).
    assert (Hrest : forall x, x ∈ rest -> x ∈ all)
      by (intros x Hx; apply Hall, elem_of_cons; auto).
    destruct (faults w) as [|[] fs]; simpl;
      [| apply grows_same; reflexivity |].
    all: match goal with
         | |- grows_by _ _ (createChat_users _ _ ?acc' ?w').2 =>
             eapply grows_trans; [|apply (IH acc' w' Hrest)]
         end.
    all: match goal with
         | |- grows_by _ _ (addActiveUser _ ?w') =>
             eapply grows_trans; [|apply grows_addActiveUser; exact Hu]
         end.
    all: match goal with
         | |- grows_by ?a _ (set_joined _ (update_user ?x ?f ?w')) =>
             eapply grows_trans;
             [|eapply grows_trans;
               [apply (grows_update a x f w' (joined_chat_keeps _ _) Hu)
               |apply grows_same; reflexivity]]
         end.
    all: apply grows_same; reflexivity.
  - apply grows_refl.
Qed.

Lemma member_ids_world (users : list UserRef) (w : World) :
  snd (member_ids users w) = w.
Proof.
  induction users as [|[u|] rest IH]; simpl; try reflexivity.
  run_M. destruct (member_ids rest w) as [[ks|e] w']; simpl in *; exact IH.
Qed.

Lemma grows_createChat (users : list UserRef) (w : World) :
  grows_by users w (snd (createChat users w)).
Proof.
  unfold createChat, new_ObjectId, Chat_create. run_M.
  match goal with
  | |- context [createChat_users ?c users [] ?w1] =>
      pose proof (grows_createChat_users users c users [] w1 (fun x H => H)) as H;
      destruct (createChat_users c users [] w1) as [[ids|e] w2]; simpl in H |- *
  end.
  2: { eapply grows_trans; [|exact H]. apply grows_same; reflexivity. }
  unfold store_call. simpl.
  destruct (faults w2) as [|[] fs]; simpl.
  2: { eapply grows_trans; [|eapply grows_trans; [exact H|]];
       apply grows_same; reflexivity. }
  all: match goal with
       | |- context [member_ids ?us ?w3] =>
           pose proof (member_ids_world us w3) as Hm;
           destruct (member_ids us w3) as [[ks|e] w4]; simpl in Hm |- *;
           subst w4
       end.
  all: eapply grows_trans; [|eapply grows_trans; [exact H|]];
    apply grows_same; reflexivity.
Qed.

(** ** The invariant of the two user maps *)

Lemma invariant_shrinks (held : list loc) (w w' : World) :
  invariant held w -> shrinks w w' -> invariant held w'.
Proof.
  intros [[Hwf Halloc Hkey Hfresh] Hact Hawf Hakey Hex Hheld]
         [Hw Hh Hd Hr Hg Hsw Hsk].
  assert (Hsame : forall k l, JsObj.get k (waiting_users w) = Some l ->
                              deref w' l = deref w l).
  { intros k l Hl. apply Hd. intros Ha. apply (Hex l); [|exact Ha].
    eapply get_refers, Hl. }
  split; [split|..]; rewrite ?Hw, ?Hh.
  - exact Hwf.
  - exact Halloc.
  - intros k l Hl. rewrite (Hsame k l Hl). auto.
  - intros k l Hl. rewrite (Hsame k l Hl). eauto.
  - intros l Hl. auto.
  - auto.
  - intros k l Hl. rewrite Hsk. auto.
  - intros l Hl Ha. rewrite Hw in Hl. eauto.
  - intros l Hl. auto.
Qed.

Lemma invariant_grows (held : list loc) (users : list UserRef) (w w' : World) :
  invariant held w ->
  (forall l, Some l ∈ users -> l ∈ held) ->
  grows_by users w w' ->
  invariant held w'.
Proof.
  intros [[Hwf Halloc Hkey Hfresh] Hact Hawf Hakey Hex Hheld] Hcall
         [Hw Hh Hd Hr Hg Hgw Hgk].
  assert (Hsame : forall k l, JsObj.get k (waiting_users w) = Some l ->
                              deref w' l = deref w l).
  { intros k l Hl. apply Hd. intros Hu.
    destruct (Hheld l (Hcall l Hu)) as [_ Hn]. apply Hn.
    eapply get_refers, Hl. }
  split; [split|..]; rewrite ?Hw, ?Hh.
  - exact Hwf.
  - exact Halloc.
  - intros k l Hl. rewrite (Hsame k l Hl). auto.
  - intros k l Hl. rewrite (Hsame k l Hl). eauto.
  - intros l Hl. destruct (Hr l Hl) as [Ha|Hu]; [auto|].
    apply Hheld, Hcall, Hu.
  - auto.
  - intros k l Hl. rewrite Hgk. destruct (Hg k l Hl); auto.
  - intros l Hl Ha. rewrite Hw in Hl. destruct (Hr l Ha) as [Ha'|Hu].
    + eauto.
    + destruct (Hheld l (Hcall l Hu)) as [_ Hn]. exact (Hn Hl).
  - intros l Hl. auto.
Qed.

Lemma invariant_addToWaitingList (held : list loc) (lid : string)
    (e : option string) (socket : Socket) (w : World) :
  invariant held w -> invariant held (snd (addToWaitingList lid e socket w)).
Proof.
  intros [[Hwf Halloc Hkey Hfresh] Hact Hawf Hakey Hex Hheld].
  unfold addToWaitingList, alloc. run_M.
  set (key := match e with Some e' => e' | None => lid end).
  set (u := {| user_id := None; email := e; loginId := lid;
               socketConnections := [socket];
               socketIds := [socket_id socket];
               currentChatId := None; chatIds := [] |}).
  assert (Hnew : forall k l,
            JsObj.get k (JsObj.assign key (length (heap w)) (waiting_users w))
              = Some l ->
            (k = key /\ l = length (heap w)) \/
            (JsObj.get k (waiting_users w) = Some l /\ l < length (heap w))).
  { intros k l Hl. apply JsObjFacts.get_assign_Some in Hl as [Hl|Hl]; eauto. }
  assert (Hrefs : forall l,
            refers (JsObj.assign key (length (heap w)) (waiting_users w)) l ->
            l = length (heap w) \/ refers (waiting_users w) l).
  { intros l. apply JsObjFacts.elem_values_assign. }
  split; [split|..]; simpl; autorewrite with world.
  - apply JsObjFacts.wf_assign, Hwf.
  - intros k l Hl. rewrite List.length_app. simpl.
    destruct (Hnew k l Hl) as [[_ ->]|[_ Hlt]]; lia.
  - intros k l Hl. rewrite deref_set_waiting_users.
    destruct (Hnew k l Hl) as [[-> ->]|[Hold Hlt]].
    + rewrite deref_alloc. unfold emailOrLoginId, key. simpl.
      destruct e; reflexivity.
    + rewrite deref_alloc_old by exact Hlt. eauto.
  - intros k l Hl. rewrite deref_set_waiting_users.
    destruct (Hnew k l Hl) as [[-> ->]|[Hold Hlt]].
    + rewrite deref_alloc. reflexivity.
    + rewrite deref_alloc_old by exact Hlt. eauto.
  - intros l Hl. rewrite List.length_app. simpl. apply Hact in Hl. lia.
  - exact Hawf.
  - intros k l Hl. rewrite deref_set_waiting_users.
    rewrite deref_alloc_old by (eapply Hact, get_refers, Hl). auto.
  - intros l Hl Ha. destruct (Hrefs l Hl) as [->|Hl'].
    + apply Hact in Ha. lia.
    + eauto.
  - intros l Hl. destruct (Hheld l Hl) as [Hlt Hn]. rewrite List.length_app.
    split; [lia|]. intros Hr. destruct (Hrefs l Hr) as [->|Hl']; [lia|auto].
Qed.

Lemma invariant_delWaitingUser (held : list loc) (id : string) (w : World) :
  invariant held w -> invariant held (delWaitingUser id w).
Proof.
  intros [[Hwf Halloc Hkey Hfresh] Hact Hawf Hakey Hex Hheld].
  assert (Hrefs : forall l, refers (JsObj.del id (waiting_users w)) l ->
                            refers (waiting_users w) l).
  { intros l. apply JsObjFacts.elem_values_del. }
  split; [split|..]; simpl; autorewrite with world.
  - apply JsObjFacts.wf_del, Hwf.
  - intros k l Hl. apply JsObjFacts.get_del_Some in Hl. eauto.
  - intros k l Hl. apply JsObjFacts.get_del_Some in Hl. eauto.
  - intros k l Hl. apply JsObjFacts.get_del_Some in Hl. eauto.
  - exact Hact.
  - exact Hawf.
  - exact Hakey.
  - intros l Hl Ha. eauto.
  - intros l Hl. destruct (Hheld l Hl). split; auto.
Qed.

Lemma invariant_more_held (held extra : list loc) (w : World) :
  invariant held w ->
  (forall l, l ∈ extra -> l < length (heap w) /\ ~ refers (waiting_users w) l) ->
  invariant (held ++ extra) w.
Proof.
  intros [Hwait Hact Hawf Hakey Hex Hheld] Hextra. split; try assumption.
  intros l Hl. apply elem_of_app in Hl as [Hl|Hl]; auto.
Qed.

Lemma getRandomPairFromWaitingList_shape (r1 r2 : Rand) (w : World) :
  exists ka kb,
    getRandomPairFromWaitingList r1 r2 w =
      ([JsObj.get ka (waiting_users w);
        JsObj.get kb (JsObj.del ka (waiting_users w))],
       delWaitingUser kb (delWaitingUser ka w)).
Proof.
  unfold getRandomPairFromWaitingList, pick. simpl. eexists _, _. reflexivity.
Qed.

(** A user taken out of the waiting map under its key is not left in it
    under another key. *)
Lemma popped_not_waiting (w : World) (k : string) (l : loc) (o : JsObj.t loc) :
  waiting_ok w ->
  JsObj.get k (waiting_users w) = Some l ->
  JsObj.wf o ->
  (forall k' v, JsObj.get k' o = Some v -> JsObj.get k' (waiting_users w) = Some v) ->
  JsObj.get k o = None ->
  ~ refers o l.
Proof.
  intros [Hwf Halloc Hkey Hfresh] Hl Hwfo Hsub Hnone Hr.
  apply (JsObjFacts.elem_values_get o l Hwfo) in Hr as [k' Hk'].
  assert (k' = k).
  { rewrite <- (Hkey k' l (Hsub k' l Hk')). apply Hkey. exact Hl. }
  subst k'. congruence.
Qed.

Lemma invariant_getRandomPairFromWaitingList (held : list loc) (r1 r2 : Rand)
    (w : World) :
  invariant held w ->
  invariant
    (held ++ defined_refs (fst (getRandomPairFromWaitingList r1 r2 w)))
    (snd (getRandomPairFromWaitingList r1 r2 w)).
Proof.
  intros Hinv.
  destruct (getRandomPairFromWaitingList_shape r1 r2 w) as (ka & kb & ->).
  simpl. apply invariant_more_held.
  - apply invariant_delWaitingUser, invariant_delWaitingUser, Hinv.
  - destruct Hinv as [Hwait Hact Hawf Hakey Hex Hheld].
    pose proof Hwait as [Hwf Halloc Hkey Hfresh].
    assert (Hwf' : JsObj.wf (JsObj.del kb (JsObj.del ka (waiting_users w))))
      by apply JsObjFacts.wf_del, JsObjFacts.wf_del, Hwf.
    assert (Hsub : forall k' v,
              JsObj.get k' (JsObj.del kb (JsObj.del ka (waiting_users w))) = Some v ->
              JsObj.get k' (waiting_users w) = Some v).
    { intros k' v H. eapply JsObjFacts.get_del_Some, JsObjFacts.get_del_Some, H. }
    intros l Hl. simpl.
    destruct (JsObj.get ka (waiting_users w)) as [la|] eqn:Ha;
      destruct (JsObj.get kb (JsObj.del ka (waiting_users w))) as [lb|] eqn:Hb;
      simpl in Hl; rewrite ?elem_of_cons, ?elem_of_nil in Hl.
    all: repeat match goal with H : _ \/ _ |- _ => destruct H end;
      try tauto; subst l.
    all: try (split; [eapply Halloc, Ha|];
              apply (popped_not_waiting w ka la _ Hwait Ha Hwf' Hsub);
              destruct (String.eqb_spec kb ka) as [->|Hne];
              [apply JsObjFacts.get_del_eq
              |rewrite JsObjFacts.get_del_ne by exact Hne;
               apply JsObjFacts.get_del_eq]).
    all: apply JsObjFacts.get_del_Some in Hb;
      (split; [eapply Halloc, Hb|]);
      apply (popped_not_waiting w kb lb _ Hwait Hb Hwf' Hsub);
      apply JsObjFacts.get_del_eq.
Qed.

Lemma reachable_invariant (held : list loc) (w : World) :
  reachable held w -> invariant held w.
Proof.
  induction 1 as [w (Hh & Hw & Ha & _)|held w op Hreach IH Hcall].
  - split; [split|..]; rewrite ?Hw, ?Ha, ?Hh; simpl.
    + constructor.
    + discriminate.
    + discriminate.
    + discriminate.
    + intros l Hl. destruct (refers_nil l Hl).
    + constructor.
    + discriminate.
    + intros l Hl. rewrite Hw in Hl. destruct (refers_nil l Hl).
    + intros l Hl. apply elem_of_nil in Hl. tauto.
  - destruct op as [lid e socket|r1 r2|s|users|user|chatId|user|id];
      simpl in *; rewrite ?app_nil_r.
    + apply invariant_addToWaitingList, IH.
    + apply invariant_getRandomPairFromWaitingList, IH.
    + apply invariant_more_held; [exact IH|].
      intros l Hl. destruct (getActiveUser s w) as [l'|] eqn:Hs; simpl in Hl;
        rewrite ?elem_of_cons, ?elem_of_nil in Hl; [|tauto].
      destruct Hl as [->|[]]. apply getActiveUser_refers in Hs.
      destruct IH as [_ Hact _ _ Hex _]. split; [auto|]. intros Hr. eauto.
    + eapply invariant_grows; [exact IH|exact Hcall|apply grows_createChat].
    + apply (invariant_grows held [Some user] w); [exact IH| |].
      * intros l Hl. apply list_elem_of_singleton in Hl. congruence.
      * apply grows_addActiveUser, list_elem_of_singleton. reflexivity.
    + eapply invariant_shrinks; [exact IH|apply shrinks_closeChat].
    + eapply invariant_shrinks; [exact IH|apply shrinks_delActiveUser].
    + apply invariant_delWaitingUser, IH.
Qed.

(** X14. The maps of every world reached by a run of the core are well
    formed: no key occurs twice, every entry is an allocated user object
    stored under its own derived id, and a waiting user has not joined any
    chat.  These are the assumptions of the theorems on pairing, chat
    creation and chat closing. *)
Lemma reachable_cache_ok (held : list loc) (w : World) :
  reachable held w -> waiting_ok w /\ active_ok w.
Proof.
  intros Hreach.
  apply reachable_invariant in Hreach as [Hwait Hact Hawf Hakey _ _].
  split; [exact Hwait|]. split; [exact Hawf| |exact Hakey].
  intros k l Hl. eapply Hact, get_refers, Hl.
Qed.

Lemma only_promoting_ops_add (op : Op) (w : World) (k : string) (l : loc) :
  promotes op = false ->
  JsObj.get k (active_users (run_op op w)) = Some l ->
  JsObj.get k (active_users w) = Some l.
Proof.
  destruct op as [lid e socket|r1 r2|s|users|user|chatId|user|id]; simpl;
    try discriminate; intros _; try trivial.
  - apply shrinks_closeChat.
  - apply shrinks_delActiveUser.
Qed.

(** *** Sample runs are runs *)

Lemma reachable_two_waiting : reachable [] world_two_waiting.
Proof.
  assert (H0 : reachable [] empty_world)
    by (apply reach_initial; repeat split).
  pose proof (reach_step _ _ (OpAddToWaitingList "L1" (Some "a@x") (sock "s1"))
                H0 I) as H1.
  pose proof (reach_step _ _ (OpAddToWaitingList "L2" None (sock "s2")) H1 I)
    as H2.
  exact H2.
Qed.

Lemma reachable_popped : reachable [0; 1] world_popped.
Proof.
  exact (reach_step _ _ (OpGetRandomPairFromWaitingList rand0 rand0)
           reachable_two_waiting I).
Qed.

Lemma reachable_chat : reachable [0; 1] world_chat.
Proof.
  refine (reach_step _ _ (OpCreateChat [Some 0; Some 1]) reachable_popped _).
  simpl. intros l Hl. rewrite !elem_of_cons, elem_of_nil in Hl.
  rewrite !elem_of_cons.
  destruct Hl as [[= <-]|[[= <-]|[]]]; auto.
Qed.

Lemma reachable_waiting_again : reachable [0; 1] world_waiting_again.
Proof.
  exact (reach_step _ _ (OpAddToWaitingList "L1" (Some "a@x") (sock "s5"))
           reachable_chat I).
Qed.

(** The world in which [closeChat] misses a member is the outcome of a run
    of the core. *)
Lemma reachable_shared_login : reachable [0; 1; 2; 3] world_shared_login.
Proof.
  pose proof (reach_step _ _ (OpAddToWaitingList "L1" None (sock "s3"))
                reachable_chat I) as H1.
  pose proof (reach_step _ _ (OpAddToWaitingList "L3" None (sock "s4")) H1 I)
    as H2.
  pose proof (reach_step _ _ (OpGetRandomPairFromWaitingList rand0 rand0) H2 I)
    as H3.
  refine (reach_step _ _ (OpCreateChat [Some 2; Some 3]) H3 _).
  simpl. intros l Hl. rewrite !elem_of_cons, elem_of_nil in Hl.
  change (l ∈ [0; 1; 2; 3]). rewrite !elem_of_cons.
  destruct Hl as [[= <-]|[[= <-]|[]]]; auto.
Qed.

(** C9 (as the code has it). In every state that the operations of the core
    reach, no user object is in both the waiting map and the active map,
    and the users popped by [getRandomPairFromWaitingList] (like every
    object a caller holds) are out of the waiting map; an operation adds an
    entry to the active map only for a user that is passed to that call of
    [createChat] or [addActiveUser]. *)
Theorem reachable_at_most_one_map (held : list loc) (w : World) :
  reachable held w ->
  exclusive w /\
  (forall l, l ∈ held -> ~ refers (waiting_users w) l) /\
  (forall op k l,
     JsObj.get k (active_users (run_op op w)) = Some l ->
     JsObj.get k (active_users w) = Some l \/
     match op with
     | OpCreateChat users => Some l ∈ users
     | OpAddActiveUser user => l = user
     | _ => False
     end).
Proof.
  intros Hreach.
  apply reachable_invariant in Hreach as [_ _ Hwf Hkey Hex Hheld].
  split; [exact Hex|]. split.
  - intros l Hl. apply (Hheld l Hl).
  - intros op k l Hl.
    destruct op as [lid e socket|r1 r2|s|users|user|chatId|user|id];
      try (left; eapply only_promoting_ops_add; [|exact Hl]; reflexivity).
    + simpl in Hl. destruct (grows_createChat users w) as [_ _ _ Hr Hg _ _].
      destruct (Hg k l Hl) as [Hold|Hk]; [auto|].
      destruct (Hr l (get_refers _ _ _ Hl)) as [Hin|Hin]; [|auto].
      left. apply (JsObjFacts.elem_values_get _ _ Hwf) in Hin as [k' Hk'].
      rewrite <- Hk, (Hkey k' l Hk'). exact Hk'.
    + simpl in Hl. unfold addActiveUser in Hl. simpl in Hl.
      apply JsObjFacts.get_set_Some in Hl as [[_ ->]|Hl]; auto.
Qed.

Lemma reachable_at_most_one_map_witness :
  exclusive world_waiting_again /\
  (forall l, l ∈ [0; 1] -> ~ refers (waiting_users world_waiting_again) l).
Proof.
  destruct (reachable_at_most_one_map [0; 1] world_waiting_again
              reachable_waiting_again) as (H1 & H2 & _).
  split; assumption.
Defined.

(** Counterexample to C9 as stated, in its three parts: the users popped
    from the waiting map are in neither map until [createChat] or
    [addActiveUser] is called for them; a user in a chat who is put on the
    waiting list again has its derived id in both maps; and
    [addActiveUser], which is exported, promotes a popped user without any
    chat being created. *)
Lemma exactly_one_map_fails :
  ~ spec_exactly_one /\
  (exists held, reachable held world_waiting_again) /\
  JsObj.get "a@x" (waiting_users world_waiting_again) = Some 2 /\
  JsObj.get "a@x" (active_users world_waiting_again) = Some 0 /\
  (exists held, reachable held (run_op (OpAddActiveUser 0) world_popped)) /\
  JsObj.get "a@x" (active_users (run_op (OpAddActiveUser 0) world_popped))
    = Some 0 /\
  chats (run_op (OpAddActiveUser 0) world_popped) = [].
Proof.
  split; [|split; [exists [0; 1]; exact reachable_waiting_again|]].
  - intros Hspec.
    specialize (Hspec [0; 1] world_popped reachable_popped 0).
    vm_compute in Hspec.
    destruct Hspec as [[H _]|[_ H]]; [lia|..]; apply H; reflexivity.
  - split; [reflexivity|]. split; [reflexivity|]. split; [|split; reflexivity].
    exists ([0; 1] ++ []).
    refine (reach_step _ _ (OpAddActiveUser 0) reachable_popped _).
    simpl. apply elem_of_cons. auto.
Qed.

(** ** Closing a chat when every member id names one active user *)

Lemma without_absent (chatId : string) (ids : list string) :
  chatId ∉ ids -> without chatId ids = ids.
Proof.
  induction ids as [|x ids IH]; simpl; [reflexivity|].
  rewrite not_elem_of_cons. intros [Hx Hids].
  destruct (String.eqb_spec x chatId) as [->|_]; [congruence|].
  simpl. rewrite IH by assumption. reflexivity.
Qed.

Lemma forEach_splice_spec (chatId : string) (turns i : nat) (ids : list string) :
  chatId ∉ take i ids -> NoDup (drop i ids) -> length (drop i ids) <= turns ->
  forEach_splice chatId turns i ids = take i ids ++ without chatId (drop i ids).
Proof.
  revert i ids.
  induction turns as [|turns IH]; intros i ids Hpre Hnd Hlen.
  - destruct (drop i ids) eqn:Hd; [|simpl in Hlen; lia].
    simpl. rewrite app_nil_r. rewrite <- (take_drop i ids) at 1.
    rewrite Hd, app_nil_r. reflexivity.
  - simpl. destruct (ids !! i) as [x|] eqn:Hx.
    + pose proof (drop_S ids x i Hx) as Hdrop.
      pose proof (take_S_r ids i x Hx) as Htake.
      rewrite Hdrop in Hnd, Hlen |- *. apply NoDup_cons in Hnd as [Hxn Hnd].
      simpl in Hlen. simpl.
      destruct (String.eqb_spec x chatId) as [->|Hne]; simpl.
      * assert (Hi : length (take i ids) = i).
        { apply length_take_le. apply lookup_lt_Some in Hx. lia. }
        rewrite delete_take_drop.
        set (A := take i ids) in *. set (B := drop (S i) ids) in *.
        replace (S i) with (length A + 1) by lia.
        rewrite IH.
        -- rewrite take_app_add, drop_app_add.
           rewrite (without_absent chatId B Hxn).
           rewrite (without_absent chatId (drop 1 B)).
           ++ rewrite <- app_assoc, take_drop. reflexivity.
           ++ intros Hin. apply Hxn. exact (subseteq_drop 1 B _ Hin).
        -- rewrite take_app_add.
           rewrite elem_of_app. intros [Hin|Hin]; [auto|].
           apply Hxn. exact (subseteq_take 1 B _ Hin).
        -- rewrite drop_app_add.
           clear -Hnd. destruct B; [constructor|].
           apply NoDup_cons in Hnd as [_ Hnd]. exact Hnd.
        -- rewrite drop_app_add, length_drop. lia.
      * rewrite IH.
        -- rewrite Htake, <- app_assoc. reflexivity.
        -- rewrite Htake, elem_of_app, list_elem_of_singleton.
           intros [Hin|Heq]; [auto|congruence].
        -- exact Hnd.
        -- lia.
    + assert (Hge : length ids <= i) by (apply lookup_ge_None; exact Hx).
      rewrite (drop_ge ids i Hge) in *. rewrite (take_ge ids i Hge) in *.
      rewrite IH.
      * rewrite take_ge, drop_ge by lia. reflexivity.
      * rewrite take_ge by lia. exact Hpre.
      * rewrite drop_ge by lia. constructor.
      * rewrite drop_ge by lia. simpl. lia.
Qed.

Lemma splice_chat_spec (chatId : string) (ids : list string) :
  NoDup ids -> splice_chat chatId ids = without chatId ids.
Proof.
  intros Hnd. unfold splice_chat.
  rewrite forEach_splice_spec; simpl; rewrite ?drop_0; auto.
  apply not_elem_of_nil.
Qed.

Lemma user_matches_ext (s : Search) (u u' : User) :
  socketIds u' = socketIds u -> email u' = email u -> loginId u' = loginId u ->
  user_matches s u' = user_matches s u.
Proof. intros H1 H2 H3. unfold user_matches. rewrite H1, H2, H3. reflexivity. Qed.

Lemma derived_id_matches (u : User) :
  user_matches (SearchString (emailOrLoginId u)) u = true.
Proof.
  unfold user_matches, emailOrLoginId, loose_eq.
  destruct (email u) as [e|]; rewrite String.eqb_refl;
    rewrite ?orb_true_r; reflexivity.
Qed.

Lemma scan_active_ext (w w' : World) (s : Search) (entries : JsObj.t loc) :
  (forall l, user_matches s (deref w' l) = user_matches s (deref w l)) ->
  scan_active w' s entries = scan_active w s entries.
Proof.
  intros Hext. induction entries as [|[k u] entries IH]; simpl; [reflexivity|].
  rewrite Hext, IH. reflexivity.
Qed.

Lemma scan_active_found (w : World) (s : Search) (entries : JsObj.t loc) (l : loc) :
  scan_active w s entries = Some l ->
  exists k, (k, l) ∈ entries /\ user_matches s (deref w l) = true.
Proof.
  induction entries as [|[k u] entries IH]; simpl; [discriminate|].
  destruct (user_matches s (deref w u)) eqn:Hm.
  - intros [= <-]. exists k. split; [apply elem_of_cons; auto|exact Hm].
  - intros H. destruct (IH H) as (k' & Hin & Hk'). exists k'.
    split; [apply elem_of_cons; auto|exact Hk'].
Qed.

Lemma scan_active_none (w : World) (s : Search) (entries : JsObj.t loc)
    (k : string) (l : loc) :
  scan_active w s entries = None -> (k, l) ∈ entries ->
  user_matches s (deref w l) = false.
Proof.
  induction entries as [|[k' u] entries IH]; simpl.
  - intros _ H. apply elem_of_nil in H. tauto.
  - destruct (user_matches s (deref w u)) eqn:Hm; [discriminate|].
    intros Hs Hin. apply elem_of_cons in Hin as [[= -> ->]|Hin]; auto.
Qed.

Lemma get_elem_of {V} (o : JsObj.t V) (k : string) (v : V) :
  JsObj.get k o = Some v -> (k, v) ∈ o.
Proof.
  induction o as [|[k0 v0] o IH]; simpl; [discriminate|].
  destruct (String.eqb_spec k0 k) as [->|Hne].
  - intros [= ->]. apply elem_of_cons. auto.
  - intros H. apply elem_of_cons. auto.
Qed.

Lemma elem_of_get {V} (o : JsObj.t V) (k : string) (v : V) :
  JsObj.wf o -> (k, v) ∈ o -> JsObj.get k o = Some v.
Proof.
  unfold JsObj.wf.
  induction o as [|[k0 v0] o IH]; simpl.
  - intros _ H. apply elem_of_nil in H. tauto.
  - intros Hnd Hin. apply NoDup_cons in Hnd as [Hk0 Hnd].
    apply elem_of_cons in Hin as [[= -> ->]|Hin].
    + rewrite String.eqb_refl. reflexivity.
    + destruct (String.eqb_spec k0 k) as [->|Hne]; [|auto].
      exfalso. apply Hk0. apply (list_elem_of_fmap_2 fst) in Hin. exact Hin.
Qed.

(** Where a member id names one active user only, [getActiveUser] is the
    lookup in the active map. *)
Lemma getActiveUser_member (m : string) (w : World) :
  active_ok w -> unambiguous m w ->
  getActiveUser (SearchString m) w = JsObj.get m (active_users w).
Proof.
  intros [Hwf Halloc Hkey] Hun. unfold getActiveUser, unambiguous in *.
  rewrite Forall_forall in Hun.
  destruct (scan_active w (SearchString m) (active_users w)) as [l|] eqn:Hs.
  - apply scan_active_found in Hs as (k & Hin & Hm).
    specialize (Hun (k, l) Hin Hm). simpl in Hun. subst k.
    symmetry. apply elem_of_get; assumption.
  - destruct (JsObj.get m (active_users w)) as [l|] eqn:Hget; [|reflexivity].
    pose proof (scan_active_none w _ _ m l Hs (get_elem_of _ _ _ Hget)) as Hno.
    rewrite <- (Hkey m l Hget), derived_id_matches in Hno. discriminate.
Qed.

Lemma only_chat_without (chatId : string) (u : User) :
  only_chat chatId u = true <-> without chatId (chatIds u) = [].
Proof.
  unfold only_chat, without.
  induction (chatIds u) as [|x ids IH]; simpl; [tauto|].
  rewrite (String.eqb_sym chatId x).
  destruct (String.eqb x chatId); simpl; [exact IH|].
  split; discriminate.
Qed.

Lemma deref_update_user_eq (w : World) (u : loc) (f : User -> User) :
  u < length (heap w) -> deref (update_user u f w) u = f (deref w u).
Proof. intros Hu. eapply deref_insert_eq; [reflexivity|exact Hu]. Qed.

Lemma user_matches_update (s : Search) (f : User -> User) (w : World) (u l : loc) :
  (forall x, socketIds (f x) = socketIds x /\ email (f x) = email x /\
             loginId (f x) = loginId x) ->
  user_matches s (deref (update_user u f w) l) = user_matches s (deref w l).
Proof.
  intros Hf. destruct (decide (u = l)) as [<-|Hne].
  - destruct (decide (u < length (heap w))) as [Hu|Hu].
    + rewrite deref_update_user_eq by exact Hu.
      destruct (Hf (deref w u)) as (H1 & H2 & H3).
      apply user_matches_ext; assumption.
    + unfold update_user. rewrite list_insert_ge by lia.
      reflexivity.
  - rewrite deref_update_user_ne by exact Hne. reflexivity.
Qed.

Lemma closeChat_members_cons (chatId m : string) (rest acc : list string)
    (user : loc) (w : World) :
  members_ok (m :: rest) w ->
  JsObj.get m (active_users w) = Some user ->
  m ∉ acc ->
  exists w',
    closeChat_members chatId (m :: rest) acc w =
      closeChat_members chatId rest
        (if only_chat chatId (deref w user) then acc ++ [m] else acc) w' /\
    member_step chatId m user w w'.
Proof.
  intros [Hact Hnd Hun Hids Hf] Hget Hacc.
  pose proof Hact as [Hwf Halloc Hkey].
  assert (Hm : m ∈ m :: rest) by (apply elem_of_cons; auto).
  pose proof (Halloc m user Hget) as Hlt.
  pose proof (Hkey m user Hget) as Hk.
  pose proof (Hids m user Hm Hget) as Hnodup.
  simpl. run_M. rewrite (getActiveUser_member m w Hact (Hun m Hm)), Hget.
  unfold Chat_deleteOne. run_M. unfold store_call. simpl. rewrite Hf. simpl.
  match goal with
  | |- context [getChatsCount m ?w0] => set (w2 := w0)
  end.
  assert (Hd2 : deref w2 user = left_chat chatId (deref w user)).
  { subst w2. autorewrite with world. apply deref_update_user_eq, Hlt. }
  assert (Hother2 : forall l, l <> user -> deref w2 l = deref w l).
  { intros l Hl. subst w2. autorewrite with world.
    apply deref_update_user_ne. congruence. }
  assert (Hlen2 : length (heap w2) = length (heap w)).
  { subst w2. simpl. apply length_insert. }
  assert (Hcount : getChatsCount m w2 =
            (Ok (length (without chatId (chatIds (deref w user)))), w2)).
  { unfold getChatsCount.
    assert (Hg : getActiveUser (SearchString m) w2 = Some user).
    { unfold getActiveUser. change (active_users w2) with (active_users w).
      rewrite (scan_active_ext w w2).
      - fold (getActiveUser (SearchString m) w).
        rewrite (getActiveUser_member m w Hact (Hun m Hm)). exact Hget.
      - intros l. subst w2. autorewrite with world.
        apply user_matches_update. intros x. repeat split. }
    rewrite Hg, Hd2. simpl. rewrite splice_chat_spec by exact Hnodup.
    reflexivity. }
  rewrite Hcount.
  destruct (only_chat chatId (deref w user)) eqn:Honly.
  - assert (Hnone : without chatId (chatIds (deref w user)) = [])
      by (apply only_chat_without; exact Honly).
    rewrite Hnone. simpl.
    set (w3 := update_user user no_current_chat w2).
    assert (Hd3 : deref w3 user = no_current_chat (left_chat chatId (deref w user))).
    { subst w3. rewrite deref_update_user_eq by lia. rewrite Hd2. reflexivity. }
    assert (Hk3 : emailOrLoginId (deref w3 user) = m).
    { rewrite Hd3. exact Hk. }
    unfold delActiveUser, ActiveUser_deleteOne. run_M.
    unfold store_call. simpl. autorewrite with world. rewrite !Hk3.
    replace (includes m acc) with false.
    2: { symmetry. apply not_true_is_false. intros Hin. apply Hacc.
         unfold includes in Hin. apply existsb_exists in Hin as (x & Hx & Heq).
         apply String.eqb_eq in Heq. subst x. apply list_elem_of_In. exact Hx. }
    eexists. split; [reflexivity|].
    split; simpl; autorewrite with world; rewrite ?Honly; auto.
    + intros l Hl. autorewrite with world. subst w3.
      rewrite deref_update_user_ne by congruence. auto.
    + rewrite !length_insert. reflexivity.
  - assert (Hsome : without chatId (chatIds (deref w user)) <> []).
    { intros H. apply only_chat_without in H. congruence. }
    destruct (without chatId (chatIds (deref w user))) eqn:Hw; [congruence|].
    simpl. exists w2. split; [reflexivity|].
    split; simpl; autorewrite with world; rewrite ?Honly; auto.
Qed.

Lemma unambiguous_del (m k : string) (w w' : World) :
  (forall l, user_matches (SearchString m) (deref w' l)
             = user_matches (SearchString m) (deref w l)) ->
  (active_users w' = JsObj.del k (active_users w) \/
   active_users w' = active_users w) ->
  unambiguous m w -> unambiguous m w'.
Proof.
  unfold unambiguous. intros Hext Hact Hun.
  assert (Hsame : Forall (fun entry : string * loc =>
                     user_matches (SearchString m) (deref w' (snd entry)) = true ->
                     fst entry = m) (active_users w)).
  { eapply Forall_impl; [exact Hun|]. intros [k0 l] H. simpl in *.
    rewrite Hext. exact H. }
  destruct Hact as [-> | ->]; [|exact Hsame].
  clear -Hsame. induction Hsame as [|[k0 l] o Hx _ IH]; simpl; [constructor|].
  destruct (String.eqb k0 k); [exact IH|]. constructor; assumption.
Qed.

Lemma member_step_get (chatId m : string) (user : loc) (w w' : World)
    (k : string) (l : loc) :
  member_step chatId m user w w' ->
  JsObj.get k (active_users w') = Some l ->
  JsObj.get k (active_users w) = Some l.
Proof.
  intros [Ha _ _ _ _ _ _]. rewrite Ha.
  destruct (only_chat chatId (deref w user)); [|trivial].
  apply JsObjFacts.get_del_Some.
Qed.

Lemma member_step_get_ne (chatId m : string) (user : loc) (w w' : World)
    (k : string) :
  member_step chatId m user w w' -> k <> m ->
  JsObj.get k (active_users w') = JsObj.get k (active_users w).
Proof.
  intros [Ha _ _ _ _ _ _] Hne. rewrite Ha.
  destruct (only_chat chatId (deref w user)); [|trivial].
  apply JsObjFacts.get_del_ne. congruence.
Qed.

Lemma member_step_matches (chatId m : string) (user : loc) (w w' : World)
    (s : Search) (l : loc) :
  member_step chatId m user w w' ->
  user_matches s (deref w' l) = user_matches s (deref w l).
Proof.
  intros [_ Hu Ho _ _ _ _]. destruct (decide (l = user)) as [->|Hne].
  - rewrite Hu. destruct (only_chat chatId (deref w user));
      apply user_matches_ext; reflexivity.
  - rewrite Ho by exact Hne. reflexivity.
Qed.

Lemma member_step_key (chatId m : string) (user : loc) (w w' : World) (l : loc) :
  member_step chatId m user w w' ->
  emailOrLoginId (deref w' l) = emailOrLoginId (deref w l).
Proof.
  intros [_ Hu Ho _ _ _ _]. destruct (decide (l = user)) as [->|Hne].
  - rewrite Hu. destruct (only_chat chatId (deref w user)); reflexivity.
  - rewrite Ho by exact Hne. reflexivity.
Qed.

Lemma members_ok_tail (m : string) (rest : list string) (w : World) :
  members_ok (m :: rest) w -> members_ok rest w.
Proof.
  intros [Hact Hnd Hun Hids Hf]. apply NoDup_cons in Hnd as [_ Hnd].
  split; try assumption.
  - intros m' Hm'. apply Hun, elem_of_cons. auto.
  - intros m' u Hm'. apply Hids, elem_of_cons. auto.
Qed.

(** Another member is another object. *)
Lemma other_member_other_user (m m' : string) (user user' : loc) (w : World) :
  active_ok w ->
  JsObj.get m (active_users w) = Some user ->
  JsObj.get m' (active_users w) = Some user' ->
  m' <> m -> user' <> user.
Proof.
  intros [_ _ Hkey] H1 H2 Hne ->. apply Hne.
  rewrite <- (Hkey _ _ H1), <- (Hkey _ _ H2). reflexivity.
Qed.

Lemma members_ok_step (chatId m : string) (rest : list string) (user : loc)
    (w w' : World) :
  members_ok (m :: rest) w ->
  JsObj.get m (active_users w) = Some user ->
  member_step chatId m user w w' ->
  members_ok rest w'.
Proof.
  intros Hok Hget Hstep.
  pose proof (members_ok_tail m rest w Hok) as [Hact Hnd Hun Hids Hf].
  destruct Hok as [_ Hnd0 _ _ _]. apply NoDup_cons in Hnd0 as [Hm _].
  pose proof Hact as [Hwf Halloc Hkey].
  pose proof Hstep as [Ha Hu Ho Hh Hc Hw Hfs].
  split; [split|..].
  - rewrite Ha. destruct (only_chat chatId (deref w user)); [|exact Hwf].
    apply JsObjFacts.wf_del, Hwf.
  - intros k l Hl. rewrite Hh. eapply Halloc, member_step_get; eassumption.
  - intros k l Hl. rewrite (member_step_key chatId m user w w' l Hstep).
    eapply Hkey, member_step_get; eassumption.
  - exact Hnd.
  - intros m' Hm'. apply (unambiguous_del m' m w w').
    + intros l. apply (member_step_matches chatId m user w w' _ l Hstep).
    + rewrite Ha. destruct (only_chat chatId (deref w user)); auto.
    + apply Hun, Hm'.
  - intros m' u Hm' Hget'.
    apply (member_step_get chatId m user w w' m' u Hstep) in Hget'.
    rewrite Ho; [eapply Hids; eassumption|].
    apply (other_member_other_user m m' user u w Hact Hget Hget').
    intros ->. exact (Hm Hm').
  - exact Hfs.
Qed.

Lemma inactive_of_step (chatId m : string) (rest : list string) (user : loc)
    (w w' : World) :
  members_ok (m :: rest) w ->
  JsObj.get m (active_users w) = Some user ->
  member_step chatId m user w w' ->
  inactive_of chatId rest w' = inactive_of chatId rest w.
Proof.
  intros [Hact Hnd _ _ _] Hget Hstep. apply NoDup_cons in Hnd as [Hm _].
  unfold inactive_of. apply List.filter_ext_in. intros m' Hin.
  apply list_elem_of_In in Hin.
  assert (Hne : m' <> m) by (intros ->; exact (Hm Hin)).
  rewrite (member_step_get_ne chatId m user w w' m' Hstep Hne).
  destruct (JsObj.get m' (active_users w)) as [u|] eqn:Hu; [|reflexivity].
  destruct Hstep as [_ _ Ho _ _ _ _]. rewrite Ho; [reflexivity|].
  apply (other_member_other_user m m' user u w Hact Hget Hu Hne).
Qed.

Lemma includes_elem_of (x : string) (l : list string) :
  includes x l = true <-> x ∈ l.
Proof.
  unfold includes. rewrite existsb_exists, list_elem_of_In. split.
  - intros (y & Hy & Heq). apply String.eqb_eq in Heq. subst y. exact Hy.
  - intros H. exists x. split; [exact H|apply String.eqb_refl].
Qed.

Lemma closeChat_members_spec (chatId : string) (members acc : list string)
    (w : World) :
  members_ok members w ->
  (forall m, m ∈ members -> m ∉ acc) ->
  exists w',
    closeChat_members chatId members acc w
      = (Ok (acc ++ inactive_of chatId members w), w') /\
    members_closed chatId members w w'.
Proof.
  revert acc w.
  induction members as [|m rest IH]; intros acc w Hok Hacc.
  - exists w. split; [simpl; rewrite app_nil_r; reflexivity|].
    split; auto.
    + intros m Hm. apply elem_of_nil in Hm. tauto.
    + apply Hok.
  - assert (Hm : m ∈ m :: rest) by (apply elem_of_cons; auto).
    pose proof Hok as [Hact Hnd Hun Hids Hf].
    pose proof Hnd as Hnd'. apply NoDup_cons in Hnd' as [Hmrest _].
    destruct (JsObj.get m (active_users w)) as [user|] eqn:Hget.
    + destruct (closeChat_members_cons chatId m rest acc user w Hok Hget
                  (Hacc m Hm)) as (ws & Hrun & Hstep).
      pose proof (members_ok_step chatId m rest user w ws Hok Hget Hstep) as Hoks.
      destruct (IH (if only_chat chatId (deref w user) then acc ++ [m] else acc)
                  ws Hoks) as (w' & Hrest & Hclosed).
      { intros m' Hm' Hin.
        assert (Hin' : m' ∈ acc ++ [m])
          by (destruct (only_chat chatId (deref w user));
              [exact Hin|apply elem_of_app; auto]).
        apply elem_of_app in Hin' as [Hin'|Hin'].
        - apply (Hacc m'); [apply elem_of_cons; auto|exact Hin'].
        - apply list_elem_of_singleton in Hin'. subst m'. exact (Hmrest Hm'). }
      exists w'. split.
      { rewrite Hrun, Hrest.
        rewrite (inactive_of_step chatId m rest user w ws Hok Hget Hstep).
        unfold inactive_of at 2. simpl. rewrite Hget.
        fold (inactive_of chatId rest w).
        destruct (only_chat chatId (deref w user));
          rewrite <- ?app_assoc; reflexivity. }
      destruct Hclosed as [Cm Co Cd Ch Cc Cw Cf].
      pose proof Hstep as [Sa Su So Sh Sc Sw Sf].
      assert (Hsub : forall m' l, m' ∈ rest ->
                JsObj.get m' (active_users ws) = Some l -> l <> user).
      { intros m' l Hm' Hl.
        apply (member_step_get chatId m user w ws m' l Hstep) in Hl.
        apply (other_member_other_user m m' user l w Hact Hget Hl).
        intros ->. exact (Hmrest Hm'). }
      assert (Hduser : deref w' user = deref ws user).
      { apply Cd. intros m' Hm' Hl. exact (Hsub m' user Hm' Hl eq_refl). }
      split.
      * intros m0 Hm0. apply elem_of_cons in Hm0 as [->|Hm0].
        -- intros user0 Hget0. rewrite Hget in Hget0.
           injection Hget0 as <-.
           rewrite (Co m Hmrest), Sa, Hduser, Su.
           pose proof (only_chat_without chatId (deref w user)) as Honly.
           pose proof (splice_chat_spec chatId (chatIds (deref w user))
                         (Hids m user Hm Hget)) as Hsplice.
           destruct (only_chat chatId (deref w user)); simpl; rewrite Hsplice.
           ++ split; [apply JsObjFacts.get_del_eq|].
              split; [reflexivity|]. apply Honly. reflexivity.
           ++ split; [exact Hget|]. split; [reflexivity|].
              split; [reflexivity|]. intros H. apply Honly in H. discriminate.
        -- assert (Hne : m0 <> m) by (intros ->; exact (Hmrest Hm0)).
           intros user0 Hget0.
           assert (Hgets : JsObj.get m0 (active_users ws) = Some user0).
           { rewrite (member_step_get_ne chatId m user w ws m0 Hstep Hne).
             exact Hget0. }
           pose proof (Cm m0 Hm0 user0 Hgets) as Hc.
           rewrite (So user0 (Hsub m0 user0 Hm0 Hgets)) in Hc. exact Hc.
      * intros k Hk. apply not_elem_of_cons in Hk as [Hkm Hkr].
        rewrite (Co k Hkr).
        apply (member_step_get_ne chatId m user w ws k Hstep Hkm).
      * intros l Hl.
        assert (Hlu : l <> user) by (intros ->; exact (Hl m Hm Hget)).
        rewrite Cd, (So l Hlu); [reflexivity|].
        intros m' Hm' Hgets.
        apply (member_step_get chatId m user w ws m' l Hstep) in Hgets.
        apply (Hl m'); [apply elem_of_cons; auto|exact Hgets].
      * congruence.
      * congruence.
      * congruence.
      * exact Cf.
    + destruct (IH acc w (members_ok_tail m rest w Hok)) as (w' & Hrest & Hclosed).
      { intros m' Hm'. apply Hacc, elem_of_cons. auto. }
      exists w'. split.
      { simpl. run_M.
        rewrite (getActiveUser_member m w Hact (Hun m Hm)), Hget.
        rewrite Hrest. unfold inactive_of. simpl. rewrite ?Hget. reflexivity. }
      destruct Hclosed as [Cm Co Cd Ch Cc Cw Cf].
      split; try assumption.
      * intros m0 Hm0. apply elem_of_cons in Hm0 as [->|Hm0]; [|auto].
        intros user0 Hget0. congruence.
      * intros k Hk. apply not_elem_of_cons in Hk as [_ Hkr]. auto.
      * intros l Hl. apply Cd. intros m' Hm'. apply Hl, elem_of_cons. auto.
Qed.

(** X11. Where member ids are unambiguous the code closes a chat as the
    specification says.  For a cached chat with distinct members,
    each member id naming one active user only, chat-id lists without
    repetition and a store that answers, [closeChat] returns exactly the
    members whose only chat this was, in member order; each of them is out
    of the active map with no current chat and an empty chat-id list; every
    other member stays active, keeps its current chat and its other chat
    ids; the chat is out of the chats map. *)
Lemma closeChat_deactivates_members (chatId : string) (chat : Chat) (w : World) :
  getChat chatId w = Some (JsObj.Own chat) ->
  members_ok (userIds chat) w ->
  exists w',
    closeChat chatId w = (Ok (Some (spec_inactive_members chatId w)), w') /\
    JsObj.get chatId (chats w') = None /\
    (forall k, k <> chatId -> getChat k w' = getChat k w) /\
    (forall m, m ∈ userIds chat -> member_closed chatId m w w') /\
    (forall k, k ∉ userIds chat ->
       JsObj.get k (active_users w') = JsObj.get k (active_users w)) /\
    waiting_users w' = waiting_users w.
Proof.
  intros Hchat Hok. pose proof Hok as [Hact Hnd Hun Hids Hf].
  pose proof (proj1 (getChat_Own _ _ _) Hchat) as Hget.
  unfold closeChat, Chat_deleteOne, Message_deleteMany. run_M.
  unfold store_call. simpl. rewrite Hf. simpl.
  unfold getChat, JsObj.read in *. simpl. rewrite Hget. simpl.
  match goal with
  | |- context [closeChat_members chatId (userIds chat) [] ?w0] =>
      set (w2 := w0)
  end.
  assert (Hok2 : members_ok (userIds chat) w2).
  { split; [split|..]; try assumption; try reflexivity.
    - apply Hact.
    - apply Hact.
    - apply Hact. }
  destruct (closeChat_members_spec chatId (userIds chat) [] w2 Hok2)
    as (w' & Hrun & [Cm Co Cd Ch Cc Cw Cf]).
  { intros m _. apply not_elem_of_nil. }
  rewrite Hrun. simpl. eexists. split; [|split; [|split; [|split; [|split]]]].
  - unfold spec_inactive_members. rewrite Hget. reflexivity.
  - simpl. apply JsObjFacts.get_del_eq.
  - intros k Hk. simpl. rewrite JsObjFacts.get_del_ne by congruence.
    rewrite Cc. reflexivity.
  - intros m Hm. exact (Cm m Hm).
  - intros k Hk. simpl. exact (Co k Hk).
  - simpl. exact Cw.
Qed.

(** The chat of [world_chat] is closed as expected: both members, for whom
    it is the only chat, are returned and leave the active map. *)
Lemma closeChat_deactivates_members_witness :
  exists w',
    closeChat chat0 world_chat = (Ok (Some ["a@x"; "L2"]), w') /\
    getChat chat0 w' = None /\
    isUserActive "a@x" w' = false /\ isUserActive "L2" w' = false.
Proof.
  destruct (closeChat_deactivates_members chat0
              {| chat_id := chat0; userIds := ["a@x"; "L2"]; messages := [];
                 createdAt := 0 |} world_chat)
    as (w' & Hrun & Hchat & _ & Hm & _).
  - reflexivity.
  - split; [split|..].
    + vm_compute. repeat constructor; rewrite ?elem_of_cons, ?elem_of_nil;
        intuition discriminate.
    + apply JsObjFacts.get_Forall. repeat constructor.
    + apply JsObjFacts.get_Forall. repeat constructor.
    + simpl. repeat constructor; rewrite ?elem_of_cons, ?elem_of_nil;
        intuition discriminate.
    + intros m Hm. simpl in Hm. rewrite !elem_of_cons, elem_of_nil in Hm.
      destruct Hm as [->|[->|[]]]; repeat constructor; vm_compute;
        first [discriminate|reflexivity].
    + intros m user _. revert m user. apply JsObjFacts.get_Forall.
      repeat constructor; rewrite ?elem_of_cons, ?elem_of_nil; tauto.
    + reflexivity.
  - exists w'. split; [exact Hrun|].
    split; [apply getChat_None; split; [exact Hchat|reflexivity]|].
    assert (H1 : "a@x" ∈ ["a@x"; "L2"]) by (apply elem_of_cons; auto).
    assert (H2 : "L2" ∈ ["a@x"; "L2"])
      by (apply elem_of_cons; right; apply elem_of_cons; auto).
    destruct (Hm _ H1 0 eq_refl) as [Ha _].
    destruct (Hm _ H2 1 eq_refl) as [Hb _].
    unfold isUserActive, JsObj.read. rewrite Ha, Hb. split; reflexivity.
Defined.

(** ** The order of keys *)

Example keys_in_insertion_order :
  JsObj.keys (JsObj.set "b" 2 (JsObj.set "a@x" 1 (JsObj.set "c" 0 [])))
  = ["c"; "a@x"; "b"].
Proof. reflexivity. Qed.

Example array_indices_come_first :
  JsObj.keys
    (JsObj.set "7" 4 (JsObj.set "010" 3 (JsObj.set "10" 2
       (JsObj.set "b" 1 (JsObj.set "9" 0 [])))))
  = ["7"; "9"; "10"; "b"; "010"].
Proof. reflexivity. Qed.

Example set_keeps_the_place_of_a_key :
  JsObj.set "c" 7 [("c", 0); ("a@x", 1)] = [("c", 7); ("a@x", 1)].
Proof. reflexivity. Qed.

Example forEach_splice_skips_after_a_removal :
  splice_chat "c" ["c"; "c"; "d"] = ["c"; "d"].
Proof. reflexivity. Qed.

(** * Further properties of the operations *)

(** ** More facts about objects used as maps *)

Lemma JsObj_del_app {V} (k : string) (o1 o2 : JsObj.t V) :
  JsObj.del k (o1 ++ o2) = JsObj.del k o1 ++ JsObj.del k o2.
Proof.
  induction o1 as [|[k0 v0] o1 IH]; simpl; [reflexivity|].
  destruct (String.eqb k0 k); simpl; rewrite IH; reflexivity.
Qed.

Lemma JsObj_del_set_new {V} (k : string) (v : V) (o : JsObj.t V) :
  JsObj.get k o = None -> JsObj.del k (JsObj.set k v o) = o.
Proof.
  intros Hget. pose proof (JsObjFacts.get_None_keys k o Hget) as Hnin.
  unfold JsObj.set. rewrite Hget. destruct (JsObj.array_index k) as [n|].
  - clear Hget. induction o as [|[k0 v0] o IH]; simpl.
    + rewrite String.eqb_refl. reflexivity.
    + simpl in Hnin. rewrite not_elem_of_cons in Hnin. destruct Hnin as [Hne Hnin].
      assert (Hk0 : String.eqb k0 k = false) by (apply String.eqb_neq; congruence).
      assert (Hall : JsObj.del k ((k, v) :: (k0, v0) :: o) = (k0, v0) :: o).
      { simpl. rewrite String.eqb_refl, Hk0.
        rewrite (JsObjFacts.del_absent k o Hnin). reflexivity. }
      destruct (JsObj.array_index k0) as [m|]; [destruct (m <? n)%N|];
        try exact Hall.
      simpl. rewrite Hk0, (IH Hnin). reflexivity.
  - rewrite JsObj_del_app, (JsObjFacts.del_absent k o Hnin). simpl.
    rewrite String.eqb_refl. apply app_nil_r.
Qed.

Lemma JsObj_del_assign_new {V} (k : string) (v : V) (o : JsObj.t V) :
  JsObj.get k o = None -> JsObj.del k (JsObj.assign k v o) = o.
Proof.
  intros Hget. destruct (JsObjFacts.assign_cases k v o) as [-> | ->].
  - apply JsObj_del_set_new, Hget.
  - apply JsObjFacts.del_absent, JsObjFacts.get_None_keys, Hget.
Qed.

Lemma JsObj_keys_set_old {V} (k : string) (v v0 : V) (o : JsObj.t V) :
  JsObj.get k o = Some v0 -> JsObj.keys (JsObj.set k v o) = JsObj.keys o.
Proof.
  intros Hget. unfold JsObj.set. rewrite Hget. apply JsObjFacts.keys_replace.
Qed.

(** ** Waiting list *)

(** X1. [addToWaitingList] makes the waiting list one longer when the
    derived id is new and is not [__proto__], and leaves its length alone
    when the id is already waiting; for the new derived id [__proto__] it
    adds no entry at all.  [delWaitingUser] makes the list one shorter when
    the id is waiting and changes nothing when it is not. *)
Theorem getWaitingUserLen_add_del (w : World) (lid : string)
    (e : option string) (socket : Socket) (id : string) :
  let key := match e with Some e' => e' | None => lid end in
  let added := snd (addToWaitingList lid e socket w) in
  (key <> "__proto__" -> JsObj.get key (waiting_users w) = None ->
     getWaitingUserLen added = S (getWaitingUserLen w)) /\
  (key = "__proto__" -> JsObj.get key (waiting_users w) = None ->
     waiting_users added = waiting_users w) /\
  (JsObj.get key (waiting_users w) <> None ->
     getWaitingUserLen added = getWaitingUserLen w) /\
  (JsObj.wf (waiting_users w) ->
     JsObj.get id (waiting_users w) <> None ->
     S (getWaitingUserLen (delWaitingUser id w)) = getWaitingUserLen w) /\
  (JsObj.get id (waiting_users w) = None ->
     waiting_users (delWaitingUser id w) = waiting_users w).
Proof.
  intros key added. unfold getWaitingUserLen, JsObj.keys.
  rewrite !List.length_map. subst added. simpl. fold key.
  split; [|split; [|split; [|split]]].
  - intros Hkey Hnew. rewrite JsObjFacts.assign_set by exact Hkey.
    apply JsObjFacts.length_set_new, Hnew.
  - intros Hkey Hnew. rewrite Hkey in *. apply JsObjFacts.assign_proto, Hnew.
  - destruct (JsObj.get key (waiting_users w)) as [l|] eqn:Hl; [|congruence].
    intros _. rewrite (JsObjFacts.assign_old _ _ _ _ Hl).
    eapply JsObjFacts.length_set_old. exact Hl.
  - intros Hwf Hid. apply JsObjFacts.length_del; [exact Hwf|].
    destruct (JsObj.get id (waiting_users w)) as [l|] eqn:Hl; [|congruence].
    eapply JsObjFacts.get_elem_keys. exact Hl.
  - intros Hid. apply JsObjFacts.del_absent, JsObjFacts.get_None_keys, Hid.
Qed.

Lemma getWaitingUserLen_add_del_witness :
  getWaitingUserLen (snd (addToWaitingList "L3" None (sock "s3") world_two_waiting)) = 3 /\
  waiting_users
    (snd (addToWaitingList "__proto__" None (sock "s3") world_two_waiting))
    = waiting_users world_two_waiting /\
  getWaitingUserLen (snd (addToWaitingList "L2" None (sock "s3") world_two_waiting)) = 2 /\
  S (getWaitingUserLen (delWaitingUser "L2" world_two_waiting)) = 2 /\
  waiting_users (delWaitingUser "L9" world_two_waiting)
    = waiting_users world_two_waiting.
Proof.
  pose proof (getWaitingUserLen_add_del world_two_waiting "L3" None (sock "s3") "L2")
    as (H1 & _ & _ & H3 & _).
  pose proof (getWaitingUserLen_add_del world_two_waiting "__proto__" None
                (sock "s3") "L2") as (_ & H0 & _).
  pose proof (getWaitingUserLen_add_del world_two_waiting "L2" None (sock "s3") "L9")
    as (_ & _ & H2 & _ & H4).
  split; [apply H1; [discriminate|reflexivity]|].
  split; [apply H0; reflexivity|].
  split; [apply H2; discriminate|].
  split; [apply H3; [|discriminate]|apply H4; reflexivity].
  vm_compute. repeat constructor; rewrite ?elem_of_cons, ?elem_of_nil;
    intuition discriminate.
Defined.

(** X2. Putting a user whose derived id is not waiting on the waiting list
    and deleting that id again gives back the waiting map, entry for entry
    and in order; the active map and the chats are untouched, and the
    object made for the user stays allocated. *)
Theorem addToWaitingList_delWaitingUser (w : World) (lid : string)
    (e : option string) (socket : Socket) :
  let key := match e with Some e' => e' | None => lid end in
  JsObj.get key (waiting_users w) = None ->
  let w' := delWaitingUser key (snd (addToWaitingList lid e socket w)) in
  waiting_users w' = waiting_users w /\
  active_users w' = active_users w /\
  chats w' = chats w /\
  store w' = store w /\
  length (heap w') = S (length (heap w)) /\
  (forall l, l < length (heap w) -> deref w' l = deref w l).
Proof.
  intros key Hget w'. subst w'. simpl. fold key.
  split; [apply JsObj_del_assign_new, Hget|].
  repeat split.
  - rewrite List.length_app. simpl. lia.
  - intros l Hl. autorewrite with world. apply deref_alloc_old, Hl.
Qed.

Lemma addToWaitingList_delWaitingUser_witness :
  waiting_users
    (delWaitingUser "L3"
       (snd (addToWaitingList "L3" None (sock "s3") world_two_waiting)))
  = waiting_users world_two_waiting.
Proof.
  apply (addToWaitingList_delWaitingUser world_two_waiting "L3" None (sock "s3")).
  reflexivity.
Defined.

(** ** Pairing and chat creation at their edges *)

Arguments floor_mul : simpl never.

Lemma floor_mul_1 (r : Rand) : in_unit_interval r -> floor_mul r 1 = 0.
Proof.
  unfold floor_mul, in_unit_interval. intros Hr. rewrite Nat.mul_1_r.
  apply Nat.div_small, Hr.
Qed.

(** X3. On an empty waiting list [getRandomPairFromWaitingList] does not
    fail: it returns two [undefined] and leaves every map as it was. *)
Theorem getRandomPairFromWaitingList_empty (w : World) (r1 r2 : Rand) :
  waiting_users w = [] ->
  exists w',
    getRandomPairFromWaitingList r1 r2 w = ([None; None], w') /\
    waiting_users w' = [] /\ heap w' = heap w /\
    active_users w' = active_users w /\ chats w' = chats w /\
    store w' = store w.
Proof.
  intros Hw. eexists. split.
  - unfold getRandomPairFromWaitingList, pick. rewrite Hw. simpl.
    rewrite JsObjFacts.get_del_eq. reflexivity.
  - simpl. rewrite Hw. repeat split.
Qed.

Lemma getRandomPairFromWaitingList_empty_witness :
  exists w',
    getRandomPairFromWaitingList rand0 rand0 world_chat = ([None; None], w') /\
    waiting_users w' = [].
Proof.
  destruct (getRandomPairFromWaitingList_empty world_chat rand0 rand0 eq_refl)
    as (w' & H1 & H2 & _).
  exists w'. split; assumption.
Defined.

(** X4. With a single waiting user the pairing returns that user and
    [undefined] and empties the waiting list; [createChat] on this pair
    promotes the user - store record, current chat, chat id, active map -
    and then throws a [TypeError] on the [undefined] partner, before any
    chat is created in the store or in the chats map. *)
Theorem single_waiting_user_is_promoted_without_chat
    (w : World) (k : string) (u : loc) (r1 r2 : Rand) :
  waiting_users w = [(k, u)] ->
  u < length (heap w) ->
  in_unit_interval r1 ->
  store_ok 1 (faults w) ->
  let chatId := ObjectId_toString (next_oid w) in
  exists w1 w2,
    getRandomPairFromWaitingList r1 r2 w = ([Some u; None], w1) /\
    waiting_users w1 = [] /\
    createChat [Some u; None] w1 = (Throw TypeError, w2) /\
    JsObj.get (emailOrLoginId (deref w u)) (active_users w2) = Some u /\
    currentChatId (deref w2 u) = Some chatId /\
    chatIds (deref w2 u) = chatIds (deref w u) ++ [chatId] /\
    chats w2 = chats w /\
    Chats (store w2) = Chats (store w) /\
    waiting_users w2 = [].
Proof.
  intros Hw Hu Hr1 Hok chatId.
  assert (Hpair : getRandomPairFromWaitingList r1 r2 w =
                    ([Some u; None],
                     delWaitingUser "undefined" (delWaitingUser k w))).
  { unfold getRandomPairFromWaitingList, pick. rewrite Hw. simpl.
    rewrite (floor_mul_1 r1 Hr1). simpl. rewrite Hw. simpl.
    rewrite String.eqb_refl. reflexivity. }
  set (w1 := delWaitingUser "undefined" (delWaitingUser k w)) in *.
  assert (Hw1 : waiting_users w1 = []).
  { subst w1. simpl. rewrite Hw. simpl. rewrite String.eqb_refl. reflexivity. }
  set (wa := set_next_oid (N.succ (next_oid w1)) w1).
  destruct (createChat_users_cons 0 chatId u [None] [] wa Hok)
    as (wb & Hb & _ & Hheap & Hact & Hwait & Hchats & _ & _).
  assert (Hstore : Chats (store wb) = Chats (store w)).
  { clear -Hb. simpl in Hb.
    unfold ActiveUser_create, join_all in Hb. run_M.
    unfold store_call in Hb. simpl in Hb.
    destruct (faults w) as [|[] fs]; simpl in Hb; inversion Hb; reflexivity. }
  exists w1, wb. split; [exact Hpair|]. split; [exact Hw1|]. split.
  { unfold createChat, new_ObjectId at 1. run_M. fold wa. fold chatId.
    rewrite Hb. reflexivity. }
  assert (Hd : deref wb u = joined_chat chatId (ObjectId_toString (next_oid wa))
                              (deref w u)).
  { apply (deref_insert_eq wa wb u _ Hheap). exact Hu. }
  rewrite Hd, Hact, Hchats, Hwait. repeat split; try assumption.
  apply JsObjFacts.get_set_eq.
Qed.

Lemma single_waiting_user_is_promoted_without_chat_witness :
  exists w1 w2,
    getRandomPairFromWaitingList rand0 rand0 world_one_waiting
      = ([Some 0; None], w1) /\
    createChat [Some 0; None] w1 = (Throw TypeError, w2) /\
    isUserActive "L1" w2 = true /\
    chats w2 = [].
Proof.
  destruct (single_waiting_user_is_promoted_without_chat world_one_waiting
              "L1" 0 rand0 rand0)
    as (w1 & w2 & H1 & _ & H2 & H3 & _ & _ & H4 & _).
  - reflexivity.
  - vm_compute. lia.
  - vm_compute. lia.
  - exact I.
  - exists w1, w2. split; [exact H1|]. split; [exact H2|].
    split; [|exact H4]. unfold isUserActive, JsObj.read.
    change (emailOrLoginId (deref world_one_waiting 0)) with "L1" in H3.
    rewrite H3. reflexivity.
Defined.

Lemma createChat_users_promote (chatId : string) (u : loc)
    (rest : list UserRef) (acc : list string) (w : World) :
  store_ok 1 (faults w) ->
  createChat_users chatId (Some u :: rest) acc w
    = createChat_users chatId rest (acc ++ [ObjectId_toString (next_oid w)])
        (promote chatId u w).
Proof.
  intros Hok. destruct (store_call_ok 0 w Hok) as [Hcall _].
  simpl. unfold ActiveUser_create, join_all. run_M. rewrite Hcall. simpl.
  reflexivity.
Qed.

Lemma createChat_users_rejected (chatId : string) (u : loc)
    (rest : list UserRef) (acc : list string) (w : World) (fs : list bool) :
  faults w = true :: fs ->
  createChat_users chatId (Some u :: rest) acc w
    = (Throw StoreError, set_faults fs w).
Proof.
  intros Hf. simpl. unfold ActiveUser_create. run_M. unfold store_call.
  simpl. rewrite Hf. reflexivity.
Qed.

Lemma createChat_users_throw (users : list UserRef) (w w' : World) (e : Exn) :
  createChat_users (ObjectId_toString (next_oid w)) users []
      (set_next_oid (N.succ (next_oid w)) w) = (Throw e, w') ->
  createChat users w = (Throw e, w').
Proof.
  intros H. unfold createChat, new_ObjectId.
  unfold mbind, M_bind, read, modify. simpl. rewrite H. reflexivity.
Qed.

(** X5. [createChat] has no rollback.  When the store rejects the first
    user's record, it throws with the cache untouched; when the store takes
    the first user's record and rejects the second's, it throws with the
    first user already promoted (in the active map, with the chat id in its
    list and as its current chat, its record in the store), the second user
    untouched, and no chat in the store or in the chats map. *)
Theorem createChat_store_failure (w : World) (u1 u2 : loc)
    (rest : list UserRef) (fs : list bool) :
  let chatId := ObjectId_toString (next_oid w) in
  (faults w = true :: fs ->
     exists w',
       createChat (Some u1 :: rest) w = (Throw StoreError, w') /\
       cache w' = cache w /\ store w' = store w) /\
  (faults w = false :: true :: fs ->
     u1 < length (heap w) -> u1 <> u2 ->
     exists w',
       createChat (Some u1 :: Some u2 :: rest) w = (Throw StoreError, w') /\
       JsObj.get (emailOrLoginId (deref w u1)) (active_users w') = Some u1 /\
       currentChatId (deref w' u1) = Some chatId /\
       chatIds (deref w' u1) = chatIds (deref w u1) ++ [chatId] /\
       deref w' u2 = deref w u2 /\
       (forall k, k <> emailOrLoginId (deref w u1) ->
          JsObj.get k (active_users w') = JsObj.get k (active_users w)) /\
       chats w' = chats w /\
       Chats (store w') = Chats (store w) /\
       map au_loginId (ActiveUsers (store w'))
         = map au_loginId (ActiveUsers (store w)) ++ [loginId (deref w u1)]).
Proof.
  intros chatId.
  set (wa := set_next_oid (N.succ (next_oid w)) w).
  split.
  - intros Hf. eexists. split.
    + apply createChat_users_throw.
      apply (createChat_users_rejected _ u1 rest [] _ fs). exact Hf.
    + split; reflexivity.
  - intros Hf Hu1 Hne.
    assert (Hok : store_ok 1 (faults wa)) by (simpl; rewrite Hf; simpl; auto).
    remember (promote chatId u1 wa) as wb eqn:Hwb.
    assert (Hfb : faults wb = true :: fs)
      by (subst wb; simpl; rewrite Hf; reflexivity).
    assert (Hd1 : deref wb u1 =
              joined_chat chatId (ObjectId_toString (next_oid wa)) (deref w u1)).
    { subst wb. unfold promote. autorewrite with world.
      rewrite deref_update_user_eq by (simpl; exact Hu1). reflexivity. }
    assert (Hd2 : deref wb u2 = deref w u2).
    { subst wb. unfold promote. autorewrite with world.
      rewrite deref_update_user_ne by exact Hne. reflexivity. }
    assert (Hact : active_users wb =
              JsObj.set (emailOrLoginId (deref w u1)) u1 (active_users w)).
    { subst wb. unfold promote, addActiveUser. simpl.
      autorewrite with world. f_equal.
      rewrite (keeps_identity_key _ u1 u1 _ (joined_chat_keeps _ _)).
      autorewrite with world. reflexivity. }
    assert (Hst : chats wb = chats w /\ Chats (store wb) = Chats (store w) /\
              ActiveUsers (store wb) = ActiveUsers (store w) ++
                [{| au_id := ObjectId_toString (next_oid wa);
                    au_email := email (deref w u1);
                    au_loginId := loginId (deref w u1);
                    au_currentChat := Some chatId |}])
      by (subst wb; repeat split).
    destruct Hst as (Hch & Hsc & Hsa).
    exists (set_faults fs wb). split.
    + apply createChat_users_throw. fold wa. fold chatId.
      rewrite (createChat_users_promote chatId u1 _ [] wa Hok). rewrite <- Hwb.
      apply (createChat_users_rejected _ u2 rest _ wb fs Hfb).
    + autorewrite with world. rewrite Hd1, Hd2.
      change (active_users (set_faults fs wb)) with (active_users wb).
      change (chats (set_faults fs wb)) with (chats wb).
      change (store (set_faults fs wb)) with (store wb).
      rewrite Hact, Hch, Hsc, Hsa.
      split; [apply JsObjFacts.get_set_eq|].
      split; [reflexivity|]. split; [reflexivity|]. split; [reflexivity|].
      split; [intros k Hk; apply JsObjFacts.get_set_ne; congruence|].
      split; [reflexivity|]. split; [reflexivity|].
      rewrite List.map_app. reflexivity.
Qed.

Lemma createChat_store_failure_witness :
  exists w',
    createChat [Some 0; Some 1] world_second_call_fails = (Throw StoreError, w') /\
    isUserActive "a@x" w' = true /\ isUserActive "L2" w' = false /\
    chats w' = [].
Proof.
  destruct (createChat_store_failure world_second_call_fails 0 1 [] [])
    as [_ H].
  destruct H as (w' & Hrun & Hu1 & _ & _ & _ & Hother & Hchats & _);
    [reflexivity|vm_compute; lia|discriminate|].
  exists w'. split; [exact Hrun|]. unfold isUserActive, JsObj.read.
  change (emailOrLoginId (deref world_second_call_fails 0)) with "a@x"
    in Hu1, Hother.
  rewrite Hu1, (Hother "L2") by discriminate.
  repeat split. exact Hchats.
Defined.

(** ** Session registry *)

(** X6. [delActiveUser] takes the user out of the active map, under its
    derived id, before it calls the store: the entry is gone whether the
    store delete succeeds (no record with the user's persisted id is then
    left in the store, the other records stay) or fails (the call throws
    and the store is as before).  Nothing else of the cache changes. *)
Theorem delActiveUser_cache_first (w : World) (user : loc) (fs : list bool) :
  let key := emailOrLoginId (deref w user) in
  (store_ok 1 (faults w) ->
     exists w',
       delActiveUser user w = (Ok tt, w') /\
       active_users w' = JsObj.del key (active_users w) /\
       JsObj.get key (active_users w') = None /\
       (forall i, user_id (deref w user) = Some i ->
          forall d, d ∈ ActiveUsers (store w') <->
                    d ∈ ActiveUsers (store w) /\ au_id d <> i) /\
       heap w' = heap w /\ waiting_users w' = waiting_users w /\
       chats w' = chats w) /\
  (faults w = true :: fs ->
     exists w',
       delActiveUser user w = (Throw StoreError, w') /\
       active_users w' = JsObj.del key (active_users w) /\
       JsObj.get key (active_users w') = None /\
       store w' = store w /\
       heap w' = heap w /\ waiting_users w' = waiting_users w /\
       chats w' = chats w).
Proof.
  intros key. split.
  - intros Hok.
    destruct (store_call_ok 0
                (set_active_users (JsObj.del key (active_users w)) w) Hok)
      as [Hcall _].
    eexists. split.
    + unfold delActiveUser, ActiveUser_deleteOne. run_M. fold key.
      rewrite Hcall. reflexivity.
    + simpl. split; [reflexivity|]. split; [apply JsObjFacts.get_del_eq|].
      split; [|repeat split].
      intros i Hi d. autorewrite with world. rewrite Hi.
      rewrite !list_elem_of_In, List.filter_In, negb_true_iff.
      rewrite String.eqb_neq. reflexivity.
  - intros Hf. eexists. split.
    + unfold delActiveUser, ActiveUser_deleteOne. run_M. fold key.
      unfold store_call. simpl. rewrite Hf. reflexivity.
    + simpl. repeat split. apply JsObjFacts.get_del_eq.
Qed.

Lemma delActiveUser_cache_first_witness :
  (exists w', delActiveUser 0 world_chat = (Ok tt, w') /\
              isUserActive "a@x" w' = false /\
              forall d, d ∈ ActiveUsers (store w') ->
                        au_id d <> "000000000000000000000001") /\
  (exists w', delActiveUser 0 world_store_down = (Throw StoreError, w') /\
              isUserActive "a@x" w' = false /\
              store w' = store world_store_down).
Proof.
  split.
  - destruct (proj1 (delActiveUser_cache_first world_chat 0 []) I)
      as (w' & Hrun & _ & Hget & Hstore & _).
    exists w'. split; [exact Hrun|]. unfold isUserActive, JsObj.read.
    change (emailOrLoginId (deref world_chat 0)) with "a@x" in Hget.
    rewrite Hget. split; [reflexivity|].
    intros d Hd. apply (Hstore _ eq_refl d). exact Hd.
  - destruct (proj2 (delActiveUser_cache_first world_store_down 0 []) eq_refl)
      as (w' & Hrun & _ & Hget & Hstore & _).
    exists w'. split; [exact Hrun|]. unfold isUserActive, JsObj.read.
    change (emailOrLoginId (deref world_store_down 0)) with "a@x" in Hget.
    rewrite Hget. split; [reflexivity|exact Hstore].
Defined.

(** ** Message lifecycle *)

Lemma JsObj_replace_same {V} (k : string) (v : V) (o : JsObj.t V) :
  JsObj.get k o = Some v -> JsObj.replace k v o = o.
Proof.
  induction o as [|[k' v'] o IH]; simpl; [reflexivity|].
  destruct (String.eqb k' k) eqn:E.
  - intros [= ->]. reflexivity.
  - intros H. rewrite IH by exact H. reflexivity.
Qed.

Lemma JsObj_set_same {V} (k : string) (v : V) (o : JsObj.t V) :
  JsObj.get k o = Some v -> JsObj.set k v o = o.
Proof.
  intros H. unfold JsObj.set. rewrite H. apply JsObj_replace_same, H.
Qed.

Lemma JsObj_replace_replace {V} (k : string) (v v' : V) (o : JsObj.t V) :
  JsObj.replace k v (JsObj.replace k v' o) = JsObj.replace k v o.
Proof.
  induction o as [|[k' x] o IH]; simpl; [reflexivity|].
  destruct (String.eqb k' k) eqn:E; simpl; rewrite E; [reflexivity|].
  rewrite IH. reflexivity.
Qed.

Lemma JsObj_set_replace {V} (k : string) (v v' x : V) (o : JsObj.t V) :
  JsObj.get k o = Some x ->
  JsObj.set k v (JsObj.set k v' o) = JsObj.set k v o.
Proof.
  intros H. unfold JsObj.set at 2 3. rewrite H.
  unfold JsObj.set.
  rewrite JsObjFacts.get_replace_eq by (eapply JsObjFacts.get_elem_keys, H).
  apply JsObj_replace_replace.
Qed.

Lemma with_messages_same (c : Chat) : with_messages c (messages c) = c.
Proof. destruct c. reflexivity. Qed.

Lemma removeMessage_run (w : World) (chatId messageId : string) (c : Chat) :
  getChat chatId w = Some (JsObj.Own c) ->
  store_ok 1 (faults w) ->
  removeMessage chatId messageId w
    = (Ok true, message_removed chatId c messageId w).
Proof.
  intros Hc Hok. destruct (store_call_ok 0 w Hok) as [Hcall _].
  pose proof (proj1 (getChat_Own _ _ _) Hc) as Hget.
  unfold removeMessage, try_catch, Message_deleteOne, Message_deleteMany,
    update_messages.
  run_M. rewrite Hc. simpl. rewrite Hcall. simpl.
  unfold getChat, JsObj.read. simpl. rewrite Hget. reflexivity.
Qed.

(** X7. [removeMessage]: when [chats[chatId]] is [undefined] (the chat id
    is no key of the chats map and no property name of [Object.prototype])
    it returns [false] without touching anything.  For a cached chat: when
    the store delete fails it returns [false] (the error is swallowed) with
    cache and store as before; when the store delete succeeds it returns
    [true], the message id is no key of the chat's message map any more,
    every other message, the member list and every other chat are as
    before, the chats keep their order, and no stored message has that id;
    removing an id the chat does not hold succeeds and leaves the cache as
    it was.  For a chat id that is no key of the chats map but a property
    name of [Object.prototype] the guard passes: the store delete is done
    and then a [TypeError] is thrown, with the cache as before. *)
Theorem removeMessage_outcomes (w : World) (chatId messageId : string) :
  (getChat chatId w = None ->
     removeMessage chatId messageId w = (Ok false, w)) /\
  (forall c fs, getChat chatId w = Some (JsObj.Own c) ->
     faults w = true :: fs ->
     exists w', removeMessage chatId messageId w = (Ok false, w') /\
                cache w' = cache w /\ store w' = store w) /\
  (forall c, getChat chatId w = Some (JsObj.Own c) -> store_ok 1 (faults w) ->
     exists w' c',
       removeMessage chatId messageId w = (Ok true, w') /\
       getChat chatId w' = Some (JsObj.Own c') /\
       JsObj.get messageId (messages c') = None /\
       (forall k, k <> messageId ->
          JsObj.get k (messages c') = JsObj.get k (messages c)) /\
       userIds c' = userIds c /\
       (forall k, k <> chatId -> getChat k w' = getChat k w) /\
       JsObj.keys (chats w') = JsObj.keys (chats w) /\
       heap w' = heap w /\ waiting_users w' = waiting_users w /\
       active_users w' = active_users w /\
       (forall d, d ∈ Messages (store w') <->
                  d ∈ Messages (store w) /\ md_id d <> messageId) /\
       (JsObj.get messageId (messages c) = None -> cache w' = cache w)) /\
  (getChat chatId w = Some JsObj.Builtin -> store_ok 1 (faults w) ->
     exists w',
       removeMessage chatId messageId w = (Throw TypeError, w') /\
       cache w' = cache w /\
       (forall d, d ∈ Messages (store w') <->
                  d ∈ Messages (store w) /\ md_id d <> messageId)).
Proof.
  split; [|split; [|split]].
  - intros Hc. unfold removeMessage. run_M. rewrite Hc. reflexivity.
  - intros c fs Hc Hf.
    unfold removeMessage, try_catch, Message_deleteOne, Message_deleteMany,
      store_call.
    run_M. rewrite Hc. simpl. rewrite Hf. simpl.
    eexists. split; [reflexivity|]. split; reflexivity.
  - intros c Hc Hok.
    pose proof (proj1 (getChat_Own _ _ _) Hc) as Hget.
    exists (message_removed chatId c messageId w),
      (with_messages c (JsObj.del messageId (messages c))).
    split; [apply removeMessage_run; assumption|].
    split; [apply getChat_Own; simpl; apply JsObjFacts.get_set_eq|].
    simpl.
    split; [apply JsObjFacts.get_del_eq|].
    split; [intros k Hk; apply JsObjFacts.get_del_ne; congruence|].
    split; [reflexivity|].
    split; [intros k Hk; apply getChat_ext; simpl;
            apply JsObjFacts.get_set_ne; congruence|].
    split; [apply (JsObj_keys_set_old _ _ c), Hget|].
    split; [reflexivity|]. split; [reflexivity|]. split; [reflexivity|].
    split.
    + intros d. rewrite !list_elem_of_In, List.filter_In. simpl.
      rewrite orb_false_r, negb_true_iff, String.eqb_neq. reflexivity.
    + intros Hm. unfold cache. simpl.
      rewrite JsObjFacts.del_absent by (apply JsObjFacts.get_None_keys, Hm).
      rewrite with_messages_same, JsObj_set_same by exact Hget. reflexivity.
  - intros Hc Hok. destruct (store_call_ok 0 w Hok) as [Hcall _].
    pose proof (proj1 (getChat_Builtin _ _) Hc) as [Hget Hinh].
    eexists. split.
    + unfold removeMessage, try_catch, Message_deleteOne, Message_deleteMany,
        update_messages.
      run_M. rewrite Hc. simpl. rewrite Hcall. simpl.
      unfold getChat, JsObj.read. simpl. rewrite Hget, Hinh. reflexivity.
    + split; [reflexivity|]. simpl.
      intros d. rewrite !list_elem_of_In, List.filter_In. simpl.
      rewrite orb_false_r, negb_true_iff, String.eqb_neq. reflexivity.
Qed.

Lemma removeMessage_outcomes_witness :
  removeMessage "no such chat" message0 world_message
    = (Ok false, world_message) /\
  (exists w', removeMessage chat0 message0 world_store_down = (Ok false, w') /\
              cache w' = cache world_store_down) /\
  (exists w' c', removeMessage chat0 message0 world_message = (Ok true, w') /\
                 getChat chat0 w' = Some (JsObj.Own c') /\ messages c' = []) /\
  (exists w', removeMessage chat0 "no such message" world_message
                = (Ok true, w') /\ cache w' = cache world_message) /\
  (exists w', removeMessage "constructor" message0 world_message
                = (Throw TypeError, w') /\
              cache w' = cache world_message /\ Messages (store w') = []).
Proof.
  pose proof (removeMessage_outcomes world_message "no such chat" message0)
    as (H1 & _ & _).
  pose proof (removeMessage_outcomes world_store_down chat0 message0)
    as (_ & H2 & _).
  pose proof (removeMessage_outcomes world_message chat0 message0)
    as (_ & _ & H3 & _).
  pose proof (removeMessage_outcomes world_message chat0 "no such message")
    as (_ & _ & H4 & _).
  pose proof (removeMessage_outcomes world_message "constructor" message0)
    as (_ & _ & _ & H5).
  split; [apply H1; reflexivity|]. split; [|split; [|split]].
  - edestruct H2 as (w' & Hrun & Hc & _); [reflexivity..|].
    exists w'. split; assumption.
  - edestruct H3 as (w' & c' & Hrun & Hc & _); [reflexivity|exact I|].
    exists w', c'. split; [exact Hrun|]. split; [exact Hc|].
    rewrite (removeMessage_run world_message chat0 message0 _ eq_refl I)
      in Hrun.
    injection Hrun as <-. injection Hc as <-. reflexivity.
  - edestruct H4 as (w' & c' & Hrun & _ & _ & _ & _ & _ & _ & _ & _ & _ & _ & Hsame);
      [reflexivity|exact I|].
    exists w'. split; [exact Hrun|]. apply Hsame. reflexivity.
  - destruct (H5 eq_refl I) as (w' & Hrun & Hcache & _).
    exists w'. split; [exact Hrun|]. split; [exact Hcache|].
    remember (removeMessage "constructor" message0 world_message) as R eqn:E.
    vm_compute in E. subst R. injection Hrun as <-. reflexivity.
Defined.

(** X8. A successful [editMessage] - chat cached, message id in its map,
    store update successful - returns [true]; the cached message has the
    new text and is otherwise as before (id, sender, time and type), the
    message keeps its place among the chat's messages, the other messages,
    the member list and the other chats are as before, and in the store the
    text of the records with that id, and nothing else, is rewritten. *)
Theorem editMessage_success (w : World) (chatId : string) (e : MessageEdit)
    (c : Chat) (m : Message) :
  getChat chatId w = Some (JsObj.Own c) ->
  JsObj.get (e_id e) (messages c) = Some m ->
  store_ok 1 (faults w) ->
  exists w' c',
    editMessage chatId e w = (Ok true, w') /\
    getChat chatId w' = Some (JsObj.Own c') /\
    JsObj.get (e_id e) (messages c') = Some (with_text m (e_message e)) /\
    JsObj.keys (messages c') = JsObj.keys (messages c) /\
    (forall k, k <> e_id e ->
       JsObj.get k (messages c') = JsObj.get k (messages c)) /\
    userIds c' = userIds c /\
    (forall k, k <> chatId -> getChat k w' = getChat k w) /\
    JsObj.keys (chats w') = JsObj.keys (chats w) /\
    heap w' = heap w /\ waiting_users w' = waiting_users w /\
    active_users w' = active_users w /\
    Messages (store w')
      = map (retexted (e_id e) (e_message e)) (Messages (store w)) /\
    Chats (store w') = Chats (store w) /\
    ActiveUsers (store w') = ActiveUsers (store w).
Proof.
  intros Hc Hm Hok. destruct (store_call_ok 0 w Hok) as [Hcall _].
  pose proof (proj1 (getChat_Own _ _ _) Hc) as Hget.
  eexists.
  exists (with_messages c
            (JsObj.set (e_id e) (with_text m (e_message e)) (messages c))).
  split.
  - unfold editMessage, try_catch, Message_updateOne, update_messages.
    run_M. rewrite Hc. unfold JsObj.read at 1. rewrite Hm. simpl.
    rewrite Hcall. simpl.
    unfold getChat, JsObj.read. simpl. rewrite Hget, Hm. simpl. reflexivity.
  - split; [apply getChat_Own; simpl; apply JsObjFacts.get_set_eq|].
    simpl.
    split; [apply JsObjFacts.get_set_eq|].
    split; [apply (JsObj_keys_set_old _ _ m), Hm|].
    split; [intros k Hk; apply JsObjFacts.get_set_ne; congruence|].
    split; [reflexivity|].
    split; [intros k Hk; apply getChat_ext; simpl;
            apply JsObjFacts.get_set_ne; congruence|].
    split; [apply (JsObj_keys_set_old _ _ c), Hget|].
    repeat split.
Qed.

Lemma editMessage_success_witness :
  exists w' c',
    editMessage chat0 {| e_id := message0; e_message := "bye" |} world_message
      = (Ok true, w') /\
    getChat chat0 w' = Some (JsObj.Own c') /\
    JsObj.get message0 (messages c')
      = Some {| msg_id := message0; message := "bye"; senderId := "a@x";
                time := 5; type := message_type |} /\
    map md_message (Messages (store w')) = ["bye"].
Proof.
  edestruct (editMessage_success world_message chat0
               {| e_id := message0; e_message := "bye" |})
    as (w' & c' & Hrun & Hc & Hm & _ & _ & _ & _ & _ & _ & _ & _ & Hst & _);
    [reflexivity|reflexivity|exact I|].
  exists w', c'. split; [exact Hrun|]. split; [exact Hc|].
  split; [exact Hm|]. rewrite Hst. reflexivity.
Defined.

(** X24. For a cached chat and a message id that is no key of its message
    map but a property name of [Object.prototype], the second guard of
    [editMessage] passes: the store update is attempted; when it succeeds
    [editMessage] returns [true] with the cache as before, when it fails
    [editMessage] returns [false] with cache and store as before. *)
Theorem editMessage_inherited_message_id (w : World) (chatId : string)
    (e : MessageEdit) (c : Chat) (fs : list bool) :
  getChat chatId w = Some (JsObj.Own c) ->
  JsObj.read (e_id e) (messages c) = Some JsObj.Builtin ->
  (store_ok 1 (faults w) ->
     exists w',
       editMessage chatId e w = (Ok true, w') /\
       cache w' = cache w /\
       Messages (store w')
         = map (retexted (e_id e) (e_message e)) (Messages (store w))) /\
  (faults w = true :: fs ->
     exists w',
       editMessage chatId e w = (Ok false, w') /\
       cache w' = cache w /\ store w' = store w).
Proof.
  intros Hc Hm. pose proof (proj1 (getChat_Own _ _ _) Hc) as Hget. split.
  - intros Hok. destruct (store_call_ok 0 w Hok) as [Hcall _].
    eexists. split.
    + unfold editMessage, try_catch, Message_updateOne, update_messages.
      run_M. rewrite Hc, Hm. simpl. rewrite Hcall. simpl.
      unfold getChat, JsObj.read at 1. simpl. rewrite Hget. simpl.
      rewrite Hm. simpl. reflexivity.
    + split; [|reflexivity]. unfold cache. simpl.
      rewrite with_messages_same, JsObj_set_same by exact Hget. reflexivity.
  - intros Hf. eexists. split.
    + unfold editMessage, try_catch, Message_updateOne, store_call.
      run_M. rewrite Hc, Hm. simpl. rewrite Hf. simpl. reflexivity.
    + split; reflexivity.
Qed.

Lemma editMessage_inherited_message_id_witness :
  (exists w', editMessage chat0 {| e_id := "constructor"; e_message := "bye" |}
                world_message = (Ok true, w') /\
              cache w' = cache world_message) /\
  (exists w', editMessage chat0 {| e_id := "constructor"; e_message := "bye" |}
                world_store_down = (Ok false, w') /\
              cache w' = cache world_store_down).
Proof.
  split.
  - edestruct (proj1 (editMessage_inherited_message_id world_message chat0
                        {| e_id := "constructor"; e_message := "bye" |} _ []
                        eq_refl eq_refl)) as (w' & Hrun & Hcache & _);
      [exact I|].
    exists w'. split; assumption.
  - edestruct (proj2 (editMessage_inherited_message_id world_store_down chat0
                        {| e_id := "constructor"; e_message := "bye" |} _ []
                        eq_refl eq_refl)) as (w' & Hrun & Hcache & _);
      [reflexivity|].
    exists w'. split; assumption.
Defined.

Lemma addMessage_run (w : World) (chatId : string) (p : MessagePayload)
    (sender : loc) (c : Chat) (pid : string) :
  getActiveUser (SearchString (p_senderId p)) w = Some sender ->
  getChat chatId w = Some (JsObj.Own c) ->
  user_id (deref w sender) = Some pid ->
  store_ok 2 (faults w) ->
  let mid := ObjectId_toString (next_oid w) in
  let ty := match p_type p with Some ty => ty | None => message_type end in
  let m := {| msg_id := mid; message := p_message p; senderId := p_senderId p;
              time := p_time p; type := ty |} in
  let d := {| md_id := mid; md_message := p_message p; md_sender := pid;
              md_type := ty; md_createdAt := p_time p |} in
  addMessage chatId p w = (Ok (Some m), message_added chatId c m d w).
Proof.
  intros Hsender Hchat Hpid Hok mid ty m d.
  destruct (store_call_ok 1 w Hok) as [Hc1 Hok1].
  set (w1 := set_faults (tail (faults w)) w) in *.
  set (w2 := set_store
               {| ActiveUsers := ActiveUsers (store w); Chats := Chats (store w);
                  Messages := Messages (store w) ++ [d] |}
               (set_next_oid (N.succ (next_oid w)) w1)).
  destruct (store_call_ok 0 w2 Hok1) as [Hc2 _].
  pose proof (proj1 (getChat_Own _ _ _) Hchat) as Hget.
  unfold addMessage, Message_create, Chat_push_message, update_messages.
  run_M. rewrite Hsender, Hchat, Hpid. simpl. rewrite Hc1. simpl.
  fold mid ty. fold d. fold w2. rewrite Hc2. simpl.
  unfold getChat, JsObj.read. simpl. rewrite Hget. simpl. reflexivity.
Qed.

(** X9. Adding a message, for a sender with a persisted id, and then
    removing it, all three store calls successful, brings the cache back to
    what it was: the chat has its old
    message map, in the old order, and the chats map is the old one.  The
    store has its old message records again, when none of them had the new
    id, but the chat's store record keeps the id of the removed message:
    [removeMessage] never pulls it from the record's list. *)
Theorem addMessage_removeMessage (w : World) (chatId : string)
    (p : MessagePayload) (sender : loc) (c : Chat) (pid : string) :
  getActiveUser (SearchString (p_senderId p)) w = Some sender ->
  getChat chatId w = Some (JsObj.Own c) ->
  user_id (deref w sender) = Some pid ->
  store_ok 3 (faults w) ->
  let mid := ObjectId_toString (next_oid w) in
  JsObj.get mid (messages c) = None ->
  exists m w1 w2,
    addMessage chatId p w = (Ok (Some m), w1) /\
    msg_id m = mid /\
    removeMessage chatId (msg_id m) w1 = (Ok true, w2) /\
    cache w2 = cache w /\
    Chats (store w2) = map (pushed chatId mid) (Chats (store w)) /\
    ((forall d, d ∈ Messages (store w) -> md_id d <> mid) ->
       Messages (store w2) = Messages (store w)).
Proof.
  intros Hsender Hchat Hpid Hok mid Hfresh.
  pose proof (proj1 (getChat_Own _ _ _) Hchat) as Hget.
  assert (Hok2 : store_ok 2 (faults w)).
  { destruct (faults w) as [|[] [|[] fs]]; simpl in *; tauto. }
  pose proof (addMessage_run w chatId p sender c pid Hsender Hchat Hpid Hok2)
    as Hadd. cbv zeta in Hadd. fold mid in Hadd. clearbody mid.
  match type of Hadd with
  | _ = (Ok (Some ?m'), message_added _ _ _ ?d' _) =>
      set (m := m') in *; set (d := d') in *
  end.
  set (w1 := message_added chatId c m d w) in *.
  set (c1 := with_messages c (JsObj.set mid m (messages c))).
  assert (Hc1 : getChat chatId w1 = Some (JsObj.Own c1)).
  { apply getChat_Own. simpl. apply JsObjFacts.get_set_eq. }
  assert (Hok1 : store_ok 1 (faults w1)).
  { simpl. destruct (faults w) as [|[] [|[] [|[] fs]]]; simpl in *; tauto. }
  exists m, w1, (message_removed chatId c1 mid w1).
  split; [exact Hadd|]. split; [reflexivity|].
  split; [apply removeMessage_run; assumption|].
  split; [|split].
  - unfold cache. simpl.
    rewrite JsObj_del_set_new by exact Hfresh.
    change (with_messages c1 (messages c)) with (with_messages c (messages c)).
    rewrite with_messages_same.
    rewrite (JsObj_set_replace _ _ _ c) by exact Hget.
    rewrite JsObj_set_same by exact Hget. reflexivity.
  - reflexivity.
  - intros Hnew. simpl. rewrite List.filter_app. simpl.
    rewrite String.eqb_refl. simpl. rewrite app_nil_r.
    apply List.forallb_filter_id, List.forallb_forall.
    intros x Hx. apply list_elem_of_In, Hnew in Hx.
    rewrite orb_false_r, negb_true_iff, String.eqb_neq. exact Hx.
Qed.

Lemma addMessage_removeMessage_witness :
  exists m w1 w2,
    addMessage chat0 (hello "L1") world_chat = (Ok (Some m), w1) /\
    removeMessage chat0 (msg_id m) w1 = (Ok true, w2) /\
    cache w2 = cache world_chat /\
    map cd_messages (Chats (store w2)) = [[message0]] /\
    Messages (store w2) = [].
Proof.
  destruct (addMessage_removeMessage world_chat chat0 (hello "L1") 0
              {| chat_id := chat0; userIds := ["a@x"; "L2"]; messages := [];
                 createdAt := 0 |} "000000000000000000000001")
    as (m & w1 & w2 & Hadd & _ & Hdel & Hcache & Hchats & Hmsgs);
    [reflexivity|reflexivity|reflexivity|exact I|reflexivity|].
  exists m, w1, w2. split; [exact Hadd|]. split; [exact Hdel|].
  split; [exact Hcache|]. rewrite Hchats. split; [reflexivity|].
  apply Hmsgs. intros d Hd. apply elem_of_nil in Hd. destruct Hd.
Defined.

(** ** Chat lifecycle: closing *)

Lemma inactive_list_step (key : string) (acc : list string)
    (o : JsObj.t loc) :
  NoDup acc ->
  (forall k, k ∈ acc -> JsObj.get k o = None) ->
  JsObj.get key o = None ->
  let acc' := if includes key acc then acc else acc ++ [key] in
  NoDup acc' /\ (forall k, k ∈ acc' -> JsObj.get k o = None).
Proof.
  intros Hnd Habs Hkey. simpl.
  destruct (includes key acc) eqn:E; [auto|].
  split.
  - apply NoDup_app. split; [exact Hnd|]. split; [|apply NoDup_singleton].
    intros x Hx Hx'. apply list_elem_of_singleton in Hx'. subst x.
    apply includes_elem_of in Hx. congruence.
  - intros k Hk. apply elem_of_app in Hk as [Hk|Hk]; [auto|].
    apply list_elem_of_singleton in Hk. subst k. exact Hkey.
Qed.

Lemma get_del_None {V} (k k' : string) (o : JsObj.t V) :
  JsObj.get k' o = None -> JsObj.get k' (JsObj.del k o) = None.
Proof.
  intros H. destruct (JsObj.get k' (JsObj.del k o)) eqn:E; [|reflexivity].
  apply JsObjFacts.get_del_Some in E. congruence.
Qed.

Lemma closeChat_members_result (chatId : string) (members acc : list string)
    (w : World) :
  NoDup acc ->
  (forall k, k ∈ acc -> JsObj.get k (active_users w) = None) ->
  chats (snd (closeChat_members chatId members acc w)) = chats w /\
  forall l, fst (closeChat_members chatId members acc w) = Ok l ->
    NoDup l /\
    forall k, k ∈ l ->
      JsObj.get k
        (active_users (snd (closeChat_members chatId members acc w))) = None.
Proof.
  revert acc w.
  induction members as [|userId rest IH]; intros acc w Hnd Habs; simpl.
  - run_M. split; [reflexivity|]. intros l [= <-]. auto.
  - run_M.
    destruct (getActiveUser (SearchString userId) w) as [user|] eqn:Huser;
      [|apply IH; assumption].
    unfold Chat_deleteOne. run_M. unfold store_call. simpl.
    destruct (faults w) as [|[] fs]; simpl;
      [| split; [reflexivity|discriminate] |].
    all: match goal with
         | |- context [getChatsCount _ ?w2] => set (w2' := w2)
         end.
    all: unfold getChatsCount;
      destruct (getActiveUser (SearchString userId) w2') as [user'|]; simpl;
      [|split; [reflexivity|discriminate]].
    all: destruct (Nat.eqb _ 0);
      [|destruct (IH acc w2' Hnd Habs) as [Hch Hres];
        split; [rewrite Hch; reflexivity|exact Hres]].
    all: unfold delActiveUser, ActiveUser_deleteOne; run_M;
      unfold store_call; simpl.
    + match goal with
      | |- context [closeChat_members _ _ ?a ?w5] =>
          destruct (IH a w5) as [Hch Hres]
      end.
      * apply (inactive_list_step _ _
                 (JsObj.del (emailOrLoginId
                    (deref (update_user user no_current_chat w2') user))
                    (active_users w))); auto.
        -- intros k Hk. apply get_del_None, Habs, Hk.
        -- apply JsObjFacts.get_del_eq.
      * apply (inactive_list_step _ _
                 (JsObj.del (emailOrLoginId
                    (deref (update_user user no_current_chat w2') user))
                    (active_users w))); auto.
        -- intros k Hk. apply get_del_None, Habs, Hk.
        -- apply JsObjFacts.get_del_eq.
      * split; [rewrite Hch; reflexivity|exact Hres].
    + destruct fs as [|[] fs']; simpl; [|split; [reflexivity|discriminate]|].
      all: match goal with
           | |- context [closeChat_members _ _ ?a ?w5] =>
               destruct (IH a w5) as [Hch Hres]
           end.
      all: try (apply (inactive_list_step _ _
                 (JsObj.del (emailOrLoginId
                    (deref (update_user user no_current_chat w2') user))
                    (active_users w))); auto;
                [intros k Hk; apply get_del_None, Habs, Hk
                |apply JsObjFacts.get_del_eq]).
      all: split; [rewrite Hch; reflexivity|exact Hres].
Qed.

(** X10. What [closeChat] does in any world, whatever the store answers.
    It never touches the waiting map, never adds or rebinds an entry of the
    active map, and never changes another chat.  When it returns a list,
    the chat was cached and is now gone, the list has no repetition, and
    none of the listed ids is a key of the active map any more.  When it
    returns [null], [chats[chatId]] was [undefined] and the cache is as
    before.  When it throws, the chats map is as before: the chat stays
    cached, whatever had been done to its members. *)
Theorem closeChat_outcomes (chatId : string) (w : World) :
  let r := fst (closeChat chatId w) in
  let w' := snd (closeChat chatId w) in
  waiting_users w' = waiting_users w /\
  (forall k l, JsObj.get k (active_users w') = Some l ->
               JsObj.get k (active_users w) = Some l) /\
  (forall k, k <> chatId -> getChat k w' = getChat k w) /\
  match r with
  | Ok (Some l) =>
      (exists c, getChat chatId w = Some (JsObj.Own c)) /\
      JsObj.get chatId (chats w') = None /\
      NoDup l /\ (forall k, k ∈ l -> JsObj.get k (active_users w') = None)
  | Ok None => getChat chatId w = None /\ cache w' = cache w
  | Throw _ => chats w' = chats w
  end.
Proof.
  intros r w'.
  pose proof (shrinks_closeChat chatId w) as Hs. fold w' in Hs.
  split; [apply Hs|]. split; [apply Hs|].
  subst r w'. clear Hs.
  unfold closeChat, Chat_deleteOne, Message_deleteMany. run_M.
  unfold store_call. simpl.
  destruct (faults w) as [|[] fs]; simpl; [|split; reflexivity|].
  all: unfold getChat, JsObj.read; simpl;
    destruct (JsObj.get chatId (chats w)) as [chat|] eqn:Hchat; simpl;
    [|destruct (JsObj.inherited chatId) eqn:Hinh; simpl;
      [split; reflexivity|split; [reflexivity|split; reflexivity]]].
  2: destruct fs as [|[] fs]; simpl; [|split; reflexivity|].
  all: match goal with
       | |- context [closeChat_members ?c ?ms ?acc ?w2] =>
           destruct (closeChat_members_result c ms acc w2) as [Hch Hres];
           [apply NoDup_nil_2|intros k Hk; apply elem_of_nil in Hk; tauto|];
           destruct (closeChat_members c ms acc w2) as [[l|e] w3];
           simpl in Hch, Hres |- *
       end.
  all: rewrite Hch.
  all: try (split; reflexivity).
  all: split; [intros k Hk; rewrite JsObjFacts.get_del_ne by congruence;
               reflexivity|].
  all: split; [eexists; reflexivity|].
  all: split; [apply JsObjFacts.get_del_eq|].
  all: destruct (Hres l eq_refl) as [Hnd Habs].
  all: split; [exact Hnd|].
  all: intros k Hk; exact (Habs k Hk).
Qed.

Lemma closeChat_outcomes_witness :
  fst (closeChat chat0 world_chat) = Ok (Some ["a@x"; "L2"]) /\
  getChat chat0 (snd (closeChat chat0 world_chat)) = None /\
  isUserActive "L2" (snd (closeChat chat0 world_chat)) = false /\
  fst (closeChat chat0 world_store_down) = Throw StoreError /\
  chats (snd (closeChat chat0 world_store_down)) = chats world_store_down.
Proof.
  pose proof (closeChat_outcomes chat0 world_chat) as (_ & _ & _ & H1).
  pose proof (closeChat_outcomes chat0 world_store_down) as (_ & _ & _ & H2).
  remember (closeChat chat0 world_chat) as R1 eqn:E1.
  remember (closeChat chat0 world_store_down) as R2 eqn:E2.
  vm_compute in E1, E2. subst R1 R2.
  cbn [fst snd] in *.
  destruct H1 as (_ & Hgone & _ & Hin).
  split; [reflexivity|].
  split; [apply getChat_None; split; [exact Hgone|reflexivity]|].
  split; [|split; [reflexivity|exact H2]].
  unfold isUserActive, JsObj.read. rewrite Hin; [reflexivity|].
  apply elem_of_cons; right; apply elem_of_cons; auto.
Defined.

(** X12. The first thing [closeChat] does is to delete the chat's store
    record, before it looks the chat up.  When [chats[chatId]] is
    [undefined] (the chat id is no key of the chats map and no property
    name of [Object.prototype]) it returns [null] with the cache as before,
    and the store has lost every chat record with that id and nothing else.
    When that first store call fails, [closeChat] throws and neither cache
    nor store has changed, whether the chat is cached or not.  For a chat
    id that is no key of the chats map but a property name of
    [Object.prototype], [closeChat] does not return [null]: after the store
    delete it throws a [TypeError], with the cache as before. *)
Theorem closeChat_first_store_call (chatId : string) (w : World)
    (fs : list bool) :
  (getChat chatId w = None -> store_ok 1 (faults w) ->
     exists w',
       closeChat chatId w = (Ok None, w') /\
       cache w' = cache w /\
       (forall d, d ∈ Chats (store w') <->
                  d ∈ Chats (store w) /\ cd_id d <> chatId) /\
       Messages (store w') = Messages (store w) /\
       ActiveUsers (store w') = ActiveUsers (store w)) /\
  (faults w = true :: fs ->
     exists w',
       closeChat chatId w = (Throw StoreError, w') /\
       cache w' = cache w /\ store w' = store w) /\
  (getChat chatId w = Some JsObj.Builtin -> store_ok 1 (faults w) ->
     exists w',
       closeChat chatId w = (Throw TypeError, w') /\
       cache w' = cache w /\
       (forall d, d ∈ Chats (store w') <->
                  d ∈ Chats (store w) /\ cd_id d <> chatId) /\
       Messages (store w') = Messages (store w) /\
       ActiveUsers (store w') = ActiveUsers (store w)).
Proof.
  assert (Hfilter : forall d,
            d ∈ List.filter (fun d => negb (String.eqb (cd_id d) chatId))
                  (Chats (store w)) <->
            d ∈ Chats (store w) /\ cd_id d <> chatId).
  { intros d. rewrite !list_elem_of_In, List.filter_In, negb_true_iff.
    rewrite String.eqb_neq. reflexivity. }
  split; [|split].
  - intros Hc Hok. destruct (store_call_ok 0 w Hok) as [Hcall _].
    eexists. split.
    + unfold closeChat, Chat_deleteOne. run_M. rewrite Hcall. simpl.
      unfold getChat in *. simpl. rewrite Hc. reflexivity.
    + simpl. split; [reflexivity|]. split; [exact Hfilter|split; reflexivity].
  - intros Hf. eexists. split.
    + unfold closeChat, Chat_deleteOne. run_M. unfold store_call. simpl.
      rewrite Hf. reflexivity.
    + split; reflexivity.
  - intros Hc Hok. destruct (store_call_ok 0 w Hok) as [Hcall _].
    eexists. split.
    + unfold closeChat, Chat_deleteOne. run_M. rewrite Hcall. simpl.
      unfold getChat in *. simpl. rewrite Hc. reflexivity.
    + simpl. split; [reflexivity|]. split; [exact Hfilter|split; reflexivity].
Qed.

Lemma closeChat_first_store_call_witness :
  (exists w', closeChat "no such chat" world_message = (Ok None, w') /\
              cache w' = cache world_message /\
              map cd_id (Chats (store w')) = [chat0]) /\
  (exists w', closeChat chat0 world_store_down = (Throw StoreError, w') /\
              cache w' = cache world_store_down) /\
  (exists w', closeChat "constructor" world_message = (Throw TypeError, w') /\
              cache w' = cache world_message).
Proof.
  split; [|split].
  - destruct (proj1 (closeChat_first_store_call "no such chat" world_message [])
                eq_refl I) as (w' & Hrun & Hcache & _).
    exists w'. split; [exact Hrun|]. split; [exact Hcache|].
    remember (closeChat "no such chat" world_message) as R eqn:E.
    vm_compute in E. subst R. injection Hrun as <-. reflexivity.
  - destruct (proj1 (proj2 (closeChat_first_store_call chat0 world_store_down
                              [])) eq_refl) as (w' & Hrun & Hcache & _).
    exists w'. split; assumption.
  - destruct (proj2 (proj2 (closeChat_first_store_call "constructor"
                              world_message [])) eq_refl I)
      as (w' & Hrun & Hcache & _).
    exists w'. split; assumption.
Defined.

(** ** Lookups *)

(** X13. In every world reached by a run of the core, an id that is no
    property name of [Object.prototype] and for which [isUserActive]
    answers [true] is resolved by [getActiveUser] to a user of the active
    map that matches it, and [getChatsCount] on that id returns that user's
    number of chats without a fault and without changing the world. *)
Theorem active_id_resolves (held : list loc) (w : World) (id : string) :
  reachable held w ->
  JsObj.inherited id = false ->
  isUserActive id w = true ->
  exists user,
    getActiveUser (SearchString id) w = Some user /\
    refers (active_users w) user /\
    user_matches (SearchString id) (deref w user) = true /\
    getChatsCount id w = (Ok (length (chatIds (deref w user))), w).
Proof.
  intros Hreach Hinh Hact. apply reachable_invariant in Hreach.
  unfold isUserActive, JsObj.read in Hact. rewrite Hinh in Hact.
  destruct (JsObj.get id (active_users w)) as [l|] eqn:Hl; [|discriminate].
  pose proof (inv_active_key _ _ Hreach id l Hl) as Hkey.
  destruct (getActiveUser (SearchString id) w) as [user|] eqn:Hs.
  - exists user. split; [reflexivity|].
    split; [eapply getActiveUser_refers, Hs|].
    split.
    + unfold getActiveUser in Hs.
      apply scan_active_found in Hs as (k & _ & Hm). exact Hm.
    + unfold getChatsCount. rewrite Hs. reflexivity.
  - exfalso. unfold getActiveUser in Hs.
    pose proof (scan_active_none w _ _ id l Hs (get_elem_of _ _ _ Hl)) as Hno.
    rewrite <- Hkey in Hno at 1. rewrite derived_id_matches in Hno.
    discriminate.
Qed.

Lemma active_id_resolves_witness :
  exists user,
    getActiveUser (SearchString "L2") world_chat = Some user /\
    getChatsCount "L2" world_chat = (Ok 1, world_chat).
Proof.
  destruct (active_id_resolves [0; 1] world_chat "L2" reachable_chat eq_refl
              eq_refl) as (user & Hs & _ & _ & Hn).
  exists user. split; [exact Hs|].
  assert (user = 1) as -> by (vm_compute in Hs; congruence).
  exact Hn.
Defined.

(** X23. [isUserActive] and [chatExists] test the truth of a property read,
    and [getChat] returns what the read finds: they answer for the keys of
    their map and also for every property name of [Object.prototype].  For
    such a name that matches no active user, [isUserActive] answers [true]
    while [getActiveUser] finds nobody and [getChatsCount] throws. *)
Theorem prototype_names_are_found (w : World) (k : string) :
  (isUserActive k w = true <->
     JsObj.get k (active_users w) <> None \/ JsObj.inherited k = true) /\
  (chatExists k w = true <->
     JsObj.get k (chats w) <> None \/ JsObj.inherited k = true) /\
  (getChat k w = None <-> chatExists k w = false) /\
  (JsObj.inherited k = true ->
   getActiveUser (SearchString k) w = None ->
   isUserActive k w = true /\
   getChatsCount k w = (Throw TypeError, w)).
Proof.
  unfold isUserActive, chatExists, getChat, JsObj.read.
  split; [|split; [|split]].
  - destruct (JsObj.get k (active_users w)); [intuition congruence|].
    destruct (JsObj.inherited k); intuition congruence.
  - destruct (JsObj.get k (chats w)); [intuition congruence|].
    destruct (JsObj.inherited k); intuition congruence.
  - destruct (JsObj.get k (chats w)); [intuition congruence|].
    destruct (JsObj.inherited k); intuition congruence.
  - intros Hinh Hnone. rewrite Hinh. unfold getChatsCount. rewrite Hnone.
    split; [|reflexivity]. destruct (JsObj.get k (active_users w)); reflexivity.
Qed.

Lemma prototype_names_are_found_witness :
  isUserActive "constructor" world_chat = true /\
  getChatsCount "constructor" world_chat = (Throw TypeError, world_chat).
Proof.
  exact (proj2 (proj2 (proj2
           (prototype_names_are_found world_chat "constructor")))
           eq_refl eq_refl).
Defined.

Lemma reachable_cache_ok_witness :
  waiting_ok world_shared_login /\ active_ok world_shared_login.
Proof.
  exact (reachable_cache_ok [0; 1; 2; 3] world_shared_login
           reachable_shared_login).
Defined.

(** X15. [getActiveUser] returns the first entry of the active map, in key
    order, whose user matches the search: every entry before it does not
    match.  It returns [null] exactly when no user of the active map
    matches. *)
Theorem getActiveUser_first_match (s : Search) (w : World) :
  match getActiveUser s w with
  | Some user =>
      exists k before after,
        active_users w = before ++ (k, user) :: after /\
        user_matches s (deref w user) = true /\
        Forall (fun e => user_matches s (deref w (snd e)) = false) before
  | None =>
      Forall (fun e => user_matches s (deref w (snd e)) = false)
             (active_users w)
  end.
Proof.
  unfold getActiveUser.
  induction (active_users w) as [|[k u] entries IH]; simpl; [constructor|].
  destruct (user_matches s (deref w u)) eqn:Hm.
  - exists k, [], entries. split; [reflexivity|]. split; [exact Hm|constructor].
  - destruct (scan_active w s entries) as [user|].
    + destruct IH as (k' & before & after & -> & Hu & Hbefore).
      exists k', ((k, u) :: before), after.
      split; [reflexivity|]. split; [exact Hu|]. constructor; assumption.
    + constructor; assumption.
Qed.

(** ** Removing a chat id from a user's list *)

Lemma without_delete (c : string) (i : nat) (ids : list string) :
  ids !! i = Some c -> without c (delete i ids) = without c ids.
Proof.
  revert i. induction ids as [|x ids IH]; intros [|i]; simpl; try discriminate.
  - intros [= ->]. rewrite String.eqb_refl. reflexivity.
  - intros H. rewrite (IH i H). reflexivity.
Qed.

Lemma take_delete_here {A} (i : nat) (l : list A) :
  take i (delete i l) = take i l.
Proof.
  revert i. induction l as [|x l IH]; intros [|i]; simpl; try reflexivity.
  rewrite IH. reflexivity.
Qed.

Lemma forEach_splice_without (c : string) (turns i : nat) (ids : list string) :
  without c (forEach_splice c turns i ids) = without c ids.
Proof.
  revert i ids. induction turns as [|turns IH]; intros i ids; simpl;
    [reflexivity|].
  destruct (ids !! i) as [x|] eqn:Hx; [|apply IH].
  destruct (String.eqb_spec x c) as [->|_]; [|apply IH].
  rewrite IH. apply without_delete, Hx.
Qed.

Lemma forEach_splice_take (c : string) (turns i : nat) (ids : list string) :
  take i (forEach_splice c turns i ids) = take i ids.
Proof.
  revert i ids. induction turns as [|turns IH]; intros i ids; simpl;
    [reflexivity|].
  assert (Hstep : forall l,
            take i (forEach_splice c turns (S i) l) = take i l).
  { intros l. rewrite <- (Nat.min_l i (S i)) at 1 by lia.
    rewrite <- take_take, IH, take_take, Nat.min_l by lia. reflexivity. }
  destruct (ids !! i) as [x|] eqn:Hx; [|apply Hstep].
  destruct (String.eqb x c); [|apply Hstep].
  rewrite Hstep. apply take_delete_here.
Qed.

Lemma forEach_splice_hit (c : string) (turns i : nat) (ids : list string) :
  ids !! i = Some c ->
  forEach_splice c (S turns) i ids
    = forEach_splice c turns (S i) (delete i ids).
Proof. intros H. simpl. rewrite H, String.eqb_refl. reflexivity. Qed.

Lemma forEach_splice_skip (c : string) (pre rest : list string)
    (turns : nat) (done : list string) :
  c ∉ pre ->
  forEach_splice c (length pre + turns) (length done) (done ++ pre ++ rest)
    = forEach_splice c turns (length done + length pre) (done ++ pre ++ rest).
Proof.
  revert done. induction pre as [|x pre IH]; intros done Hc; simpl.
  - rewrite Nat.add_0_r. reflexivity.
  - apply not_elem_of_cons in Hc as [Hx Hc].
    rewrite list_lookup_middle by reflexivity.
    destruct (String.eqb_spec x c) as [->|_]; [congruence|].
    specialize (IH (done ++ [x]) Hc).
    rewrite length_app in IH. simpl in IH.
    rewrite <- !app_assoc in IH. simpl in IH.
    rewrite Nat.add_1_r in IH. rewrite IH. f_equal. lia.
Qed.

(** X16. The loop that takes a chat id out of a user's list,
    [chatIds.forEach((id, i) => { if (id == chatId) chatIds.splice(i, 1) })].
    It removes nothing but occurrences of the chat id and keeps the other
    ids in their order; on a list without repetition it removes the chat
    id; but the entry that follows a removed one is never visited, so of
    two occurrences in a row the second stays in the list. *)
Theorem splice_chat_behaviour (chatId : string) (ids : list string) :
  without chatId (splice_chat chatId ids) = without chatId ids /\
  (NoDup ids -> splice_chat chatId ids = without chatId ids) /\
  (forall pre x post,
     ids = pre ++ chatId :: x :: post -> chatId ∉ pre ->
     exists rest, splice_chat chatId ids = pre ++ x :: rest).
Proof.
  split; [apply forEach_splice_without|]. split.
  - intros Hnd. unfold splice_chat.
    rewrite forEach_splice_spec; simpl; rewrite ?drop_0; auto.
    apply not_elem_of_nil.
  - intros pre x post -> Hpre. unfold splice_chat.
    rewrite length_app.
    change (length (chatId :: x :: post)) with (S (S (length post))).
    assert (Hskip :
              forEach_splice chatId (length pre + S (S (length post))) 0
                (pre ++ chatId :: x :: post)
              = forEach_splice chatId (S (S (length post))) (length pre)
                  (pre ++ chatId :: x :: post))
      by exact (forEach_splice_skip chatId pre _ _ [] Hpre).
    rewrite Hskip.
    rewrite forEach_splice_hit by (apply list_lookup_middle; reflexivity).
    assert (Hdel : delete (length pre) (pre ++ chatId :: x :: post)
                   = pre ++ x :: post).
    { clear. induction pre as [|y pre IH]; simpl; [reflexivity|].
      rewrite IH. reflexivity. }
    rewrite Hdel.
    pose proof (forEach_splice_take chatId (S (length post)) (S (length pre))
                  (pre ++ x :: post)) as Htake.
    remember (forEach_splice chatId (S (length post)) (S (length pre))
                (pre ++ x :: post)) as r eqn:Hr.
    clear Hr. exists (drop (S (length pre)) r).
    assert (Hpx : take (S (length pre)) (pre ++ x :: post) = pre ++ [x]).
    { clear. induction pre as [|y pre IH]; simpl; [reflexivity|].
      rewrite IH. reflexivity. }
    rewrite Hpx in Htake.
    transitivity (take (S (length pre)) r ++ drop (S (length pre)) r);
      [symmetry; apply take_drop|].
    rewrite Htake, <- app_assoc. reflexivity.
Qed.

Lemma splice_chat_behaviour_witness :
  splice_chat "c" ["a"; "c"; "b"] = ["a"; "b"] /\
  exists rest, splice_chat "c" ["a"; "c"; "c"; "b"] = ["a"; "c"] ++ rest.
Proof.
  pose proof (splice_chat_behaviour "c" ["a"; "c"; "b"]) as (_ & H1 & _).
  pose proof (splice_chat_behaviour "c" ["a"; "c"; "c"; "b"]) as (_ & _ & H2).
  split.
  - apply H1. repeat constructor; rewrite ?elem_of_cons, ?elem_of_nil;
      intuition discriminate.
  - apply (H2 ["a"] "c" ["b"]); [reflexivity|].
    rewrite elem_of_cons, elem_of_nil. intuition discriminate.
Defined.

(** ** Bootstrap from a sound store *)












(** ** Further round trips and failures *)

(** X18. Promoting a user that is not in the active map and then removing
    it with [delActiveUser], the store answering, leaves the cache as it
    was; in between the user is active under its derived id. *)
Theorem addActiveUser_delActiveUser (w : World) (user : loc) :
  JsObj.get (emailOrLoginId (deref w user)) (active_users w) = None ->
  store_ok 1 (faults w) ->
  isUserActive (emailOrLoginId (deref w user)) (addActiveUser user w) = true /\
  exists w',
    delActiveUser user (addActiveUser user w) = (Ok tt, w') /\
    cache w' = cache w.
Proof.
  intros Hnew Hok. split.
  - unfold isUserActive, JsObj.read, addActiveUser. simpl.
    rewrite JsObjFacts.get_set_eq. reflexivity.
  - unfold delActiveUser, ActiveUser_deleteOne. run_M.
    unfold store_call. simpl.
    destruct (faults w) as [|[] fs]; simpl in *;
      [|destruct Hok; discriminate|].
    all: eexists; split; [reflexivity|]; unfold cache; simpl;
      unfold addActiveUser; autorewrite with world; simpl;
      rewrite JsObj_del_set_new by exact Hnew; reflexivity.
Qed.

Lemma addActiveUser_delActiveUser_witness :
  isUserActive "a@x" (addActiveUser 0 world_popped) = true /\
  exists w', delActiveUser 0 (addActiveUser 0 world_popped) = (Ok tt, w') /\
             cache w' = cache world_popped.
Proof.
  exact (addActiveUser_delActiveUser world_popped 0 eq_refl I).
Defined.

(** X19. [addMessage] has no [try]: a store failure is thrown to the
    caller.  In both cases the cache is as before.  When the creation of
    the message record fails, the store is as before too; when the record
    is created and the update of the chat's record fails, the new message
    record stays in the store, listed by no chat. *)
Theorem addMessage_store_failure (w : World) (chatId : string)
    (p : MessagePayload) (sender : loc) (c : Chat) (fs : list bool) :
  getActiveUser (SearchString (p_senderId p)) w = Some sender ->
  getChat chatId w = Some (JsObj.Own c) ->
  (faults w = true :: fs ->
     exists w', addMessage chatId p w = (Throw StoreError, w') /\
                cache w' = cache w /\ store w' = store w) /\
  (faults w = false :: true :: fs ->
     exists w' d,
       addMessage chatId p w = (Throw StoreError, w') /\
       cache w' = cache w /\
       Messages (store w') = Messages (store w) ++ [d] /\
       md_message d = p_message p /\ md_createdAt d = p_time p /\
       Chats (store w') = Chats (store w) /\
       ActiveUsers (store w') = ActiveUsers (store w)).
Proof.
  intros Hsender Hchat. split; intros Hf.
  - unfold addMessage, Message_create, ObjectId_of, new_ObjectId. run_M.
    rewrite Hsender, Hchat. simpl.
    destruct (user_id (deref w sender)) as [pid|]; simpl;
      unfold store_call; simpl; rewrite Hf;
      (eexists; split; [reflexivity|split; reflexivity]).
  - unfold addMessage, Message_create, Chat_push_message, ObjectId_of,
      new_ObjectId.
    run_M. rewrite Hsender, Hchat. simpl.
    destruct (user_id (deref w sender)) as [pid|]; simpl;
      unfold store_call; simpl; rewrite Hf; simpl;
      (eexists; eexists; split; [reflexivity|repeat split]).
Qed.

Lemma addMessage_store_failure_witness :
  (exists w', addMessage chat0 (hello "a@x") world_store_down
                = (Throw StoreError, w') /\
              cache w' = cache world_store_down) /\
  (exists w', addMessage chat0 (hello "a@x")
                (set_faults [false; true] world_message)
                = (Throw StoreError, w') /\
              cache w' = cache world_message /\
              length (Messages (store w')) = 2).
Proof.
  split.
  - edestruct (proj1 (addMessage_store_failure world_store_down chat0
                        (hello "a@x") 0 _ [] eq_refl eq_refl))
      as (w' & Hrun & Hc & _); [reflexivity|].
    exists w'. split; assumption.
  - edestruct (proj2 (addMessage_store_failure
                        (set_faults [false; true] world_message) chat0
                        (hello "a@x") 0 _ [] eq_refl eq_refl))
      as (w' & d & Hrun & Hc & Hm & _); [reflexivity|].
    exists w'. split; [exact Hrun|]. split; [exact Hc|].
    rewrite Hm, length_app. reflexivity.
Defined.
